(** * A shallow embedding of the bencode codec (package [bencode])

    The Go sources embedded here are
      - the field metadata cache ([encodeFields], [decodeFields], [parseTag]),
      - the helpers [isEmptyValue] and [bytesAsString],
      - the encoder ([Marshal], [newTypeEncoder] and its strategies),
      - the decoder ([Unmarshal], [parseValue], [parseByteString],
        [parseInteger], [parseList], [parseDict], [readValue] ...).

    Modelling conventions.
      - A byte is an [ascii]; a Go [string] and a [[]byte] are both [list ascii].
      - A [reflect.Value] is a pair of a type descriptor [rtype] and an untyped
        tree [data]; every function is directed by the type, as the Go code is
        directed by [v.Kind()] and [v.Type()].
      - Integers are [Z]; the width of a fixed-width kind is kept in the type.
        [int] and [uint] are 64 bits wide.
      - A Go map is an association list whose order stands for the (unspecified)
        iteration order of the map; keys are unique.
      - Pointers own their pointee (no aliasing), type definitions are finite
        trees (no recursive types).
      - A defined type whose method set carries the [Marshaler]/[Unmarshaler]
        hooks is [Custom id]; its values are opaque payloads and the hooks are
        parameters of the development.
      - [panic]/[recover] is an explicit outcome: a panic that carries an [error]
        is recovered by [unmarshal] and returned, a panic that carries anything
        else (the string panics of package [reflect]) is swallowed by it.
      - The library functions of [strconv], [strings], [sort], [io] and [reflect]
        are modelled from their documented behaviour.
      - The mutual recursion of the encoder (over the value) and of the decoder
        (over the input) is bounded by a counter that [Marshal] and [Unmarshal]
        compute from the size of the value and the length of the input;
        [Marshal_total] and [Unmarshal_total] show that it never runs out. *)

From Stdlib Require Import ZArith List Ascii String Lia Bool Permutation Sorted.
Set Warnings "-register-all".
Import ListNotations.
Local Open Scope Z_scope.

Definition bytes := list ascii.

(** Byte-string literals. *)
Definition B (s : string) : bytes := list_ascii_of_string s.

Definition byteval (c : ascii) : Z := Z.of_N (N_of_ascii c).

Definition bytes_eqb (a b : bytes) : bool :=
  if list_eq_dec ascii_dec a b then true else false.

(** Go's [<] on strings: lexicographic on the raw bytes. *)
Fixpoint bytes_ltb (a b : bytes) : bool :=
  match a, b with
  | [], [] => false
  | [], _ :: _ => true
  | _ :: _, [] => false
  | x :: a', y :: b' =>
      if byteval x <? byteval y then true
      else if byteval y <? byteval x then false
      else bytes_ltb a' b'
  end.

(** ** Package [strconv] *)
Module strconv.

Inductive NumError := ErrSyntax | ErrRange.

Definition digit (n : Z) : ascii := ascii_of_N (Z.to_N (48 + n)).

Definition isDigit (c : ascii) : bool :=
  (byteval "0"%char <=? byteval c) && (byteval c <=? byteval "9"%char).

(** [formatBits] for base 10: the digits of [u], most significant first. *)
Fixpoint formatBits (fuel : nat) (u : Z) (acc : bytes) : bytes :=
  match fuel with
  | O => acc
  | S fuel' =>
      if u <? 10 then digit u :: acc
      else formatBits fuel' (u / 10) (digit (u mod 10) :: acc)
  end.

Definition FormatUint (u : Z) : bytes :=
  formatBits (S (Z.to_nat (Z.log2 u))) u [].

Definition AppendUint (dst : bytes) (u : Z) : bytes := dst ++ FormatUint u.

Definition AppendInt (dst : bytes) (i : Z) : bytes :=
  if i <? 0 then dst ++ "-"%char :: FormatUint (- i) else dst ++ FormatUint i.

Definition maxUint64 : Z := 2 ^ 64 - 1.

(** The loop of [ParseUint(s, 10, 64)]; [n] is a [uint64]. *)
Fixpoint parseUintLoop (s : bytes) (n : Z) : NumError + Z :=
  match s with
  | [] => inr n
  | c :: s' =>
      if isDigit c then
        let d := byteval c - byteval "0"%char in
        if maxUint64 / 10 + 1 <=? n then inl ErrRange
        else
          let n10 := n * 10 in
          let n1 := (n10 + d) mod 2 ^ 64 in
          if (n1 <? n10) || (maxUint64 <? n1) then inl ErrRange
          else parseUintLoop s' n1
      else inl ErrSyntax
  end.

Definition ParseUint (s : bytes) : NumError + Z :=
  match s with
  | [] => inl ErrSyntax
  | _ => parseUintLoop s 0
  end.

(** [ParseInt(s, 10, 64)] (also [bitSize] 0 on a 64-bit platform). *)
Definition ParseInt (s : bytes) : NumError + Z :=
  match s with
  | [] => inl ErrSyntax
  | c :: s' =>
      let neg := Ascii.eqb c "-"%char in
      let s1 := if Ascii.eqb c "+"%char || neg then s' else s in
      match ParseUint s1 with
      | inl ErrSyntax => inl ErrSyntax
      | inl ErrRange => inl ErrRange
      | inr un =>
          let cutoff := 2 ^ 63 in
          if negb neg && (cutoff <=? un) then inl ErrRange
          else if neg && (cutoff <? un) then inl ErrRange
          else inr (if neg then - un else un)
      end
  end.

End strconv.

(** ** Package [strings] and [sort] *)

(** [strings.Split(s, ",")]: never returns the empty list. *)
Fixpoint Split (s : bytes) (sep : ascii) : list bytes :=
  match s with
  | [] => [[]]
  | c :: s' =>
      if Ascii.eqb c sep then [] :: Split s' sep
      else match Split s' sep with
           | h :: tl => (c :: h) :: tl
           | [] => [[c]]
           end
  end.

(** [sort.Sort] on a slice: [insertionSort] of package [sort], which is what
    [sort.Sort] runs on at most 12 elements.  [done] is the sorted prefix
    [data[0..i)] in reverse; the inner loop moves [x] down while
    [Less(j, j-1)].  The theorems below use of it only that the result is a
    sorted permutation, which [sort.Sort] guarantees at every length. *)
Section Sort.
Context {A : Type} (less : A -> A -> bool).

Fixpoint insertDown (x : A) (done : list A) : list A :=
  match done with
  | [] => [x]
  | y :: done' => if less x y then y :: insertDown x done' else x :: done
  end.

Fixpoint insertionLoop (todo done : list A) : list A :=
  match todo with
  | [] => rev done
  | x :: todo' => insertionLoop todo' (insertDown x done)
  end.

Definition sortSort (l : list A) : list A := insertionLoop l [].
End Sort.

(** ** Types and values (package [reflect]) *)

Record StructFieldOf (T : Type) := mkField {
  Name : bytes;
  PkgPath : bytes;          (* empty for an exported field *)
  Anonymous : bool;
  Tag : bytes;              (* [f.Tag.Get("bencode")] *)
  Typ : T
}.
Arguments mkField {T}.
Arguments Name {T}.
Arguments PkgPath {T}.
Arguments Anonymous {T}.
Arguments Tag {T}.
Arguments Typ {T}.

Inductive rtype : Type :=
| Bool
| Int (bits : Z)            (* Int, Int8 .. Int64 *)
| Uint (bits : Z)           (* Uint, Uint8 .. Uint64 *)
| Uintptr
| String_
| Interface
| Struct (fields : list (StructFieldOf rtype))
| Map (key elem : rtype)
| Slice (elem : rtype)
| Array (len : nat) (elem : rtype)
| Ptr (elem : rtype)
| BigInt                    (* math/big.Int *)
| Custom (id : nat)         (* defined struct type with the marshal/unmarshal hooks *)
| Other                     (* Float32/64, Complex64/128, Chan, UnsafePointer *)
| Func.

Definition StructField := StructFieldOf rtype.

Inductive data : Type :=
| DBool (b : bool)
| DInt (n : Z)
| DUint (n : Z)
| DString (s : bytes)
| DIface (held : option (rtype * data))
| DStruct (fields : list data)
| DMap (m : option (list (bytes * data)))    (* [None] is the nil map *)
| DSlice (s : option (list data))            (* [None] is the nil slice *)
| DArray (a : list data)
| DPtr (p : option data)                     (* [None] is the nil pointer *)
| DBig (z : Z)
| DOpaque (payload : bytes)
| DOther (isZero : bool).                     (* also a func value: nil or not *)

Inductive Kind :=
| KBool | KInt | KUint | KUintptr | KString | KInterface | KStruct | KMap
| KSlice | KArray | KPtr | KOther | KFunc.

Definition kind (t : rtype) : Kind :=
  match t with
  | Bool => KBool
  | Int _ => KInt
  | Uint _ => KUint
  | Uintptr => KUintptr
  | String_ => KString
  | Interface => KInterface
  | Struct _ => KStruct
  | Map _ _ => KMap
  | Slice _ => KSlice
  | Array _ _ => KArray
  | Ptr _ => KPtr
  | BigInt => KStruct
  | Custom _ => KStruct
  | Other => KOther
  | Func => KFunc
  end.

(** The two unexported fields of [big.Int]. *)
Definition bigIntFields : list StructField :=
  [ mkField (B "neg") (B "math/big") false [] Bool;
    mkField (B "abs") (B "math/big") false [] (Slice (Uint 64)) ].

(** ** Errors ([error.go] and the [fmt.Errorf] sites) *)

Inductive ioError := EOF | ErrUnexpectedEOF.

Inductive Error :=
| ErrInvalidUnmarshalArg                       (* "invalid unmarshal arg error" *)
| ErrUnexpectedE (offset : Z)                  (* "syntax error (Offset: %d): unexpected 'e'" *)
| newSyntaxError (offset : Z) (err : ioError)
| newUnknownValueType (offset : Z) (b : ascii)
| newUnknownType
| ErrCannotUnmarshal                           (* "cannot unmarshal a bencode %s into a %s" *)
| ErrEmptyMessage                              (* [newError("")] *)
| newParseError (key : bytes) (err : Error)
| ErrMissingValue (key : bytes)                (* [newError("missing value for key %q")] *)
| ErrMissingValueMap (key : bytes)             (* [fmt.Errorf("missing value for key %q")] *)
| ErrA                                         (* [newError("a")] *)
| ErrNum (err : strconv.NumError)
| ErrIO (err : ioError)
| ErrReflectValue                              (* a [*reflect.ValueError] *)
| ErrRuntime                                   (* a [runtime.Error] *)
| ErrHook (code : nat)                         (* an error returned by a hook *)
| ErrInvalidValueEncoder                       (* "invalid Value Encoder" *)
| ErrUnsupportedType (t : rtype)               (* "unsupported type: %s" *)
| ErrPtrIsNil                                  (* "ptr is nil" *)
| ErrUnaddressable (t : rtype).                (* "reflect.Value.Addr of unaddressable value: %s" *)

(** How a call ends: it returns, it panics with an [error] value, it panics
    with a value that is not an [error], or the model ran out of fuel. *)
Inductive outcome (A : Type) :=
| Ret (a : A)
| PanicErr (e : Error)
| PanicOther
| OutOfFuel.
Arguments Ret {A}.
Arguments PanicErr {A}.
Arguments PanicOther {A}.
Arguments OutOfFuel {A}.

(** How a call of a hook ends. *)
Inductive called (A : Type) :=
| Returned (a : A)
| PanickedErr (e : Error)
| Panicked.
Arguments Returned {A}.
Arguments PanickedErr {A}.
Arguments Panicked {A}.

Definition ofCall {A : Type} (c : called A) : outcome A :=
  match c with
  | Returned a => Ret a
  | PanickedErr e => PanicErr e
  | Panicked => PanicOther
  end.

(** A [reflect.Value]; [None] is the zero Value ([!v.IsValid()]). *)
Definition Value := option (rtype * data).

(** ** Field metadata *)

Record encodeStructField := mkEncodeStructField {
  ef_i : nat;
  ef_tag : bytes;
  ef_omitEmpty : bool
}.

Definition Less (a b : encodeStructField) : bool := bytes_ltb (ef_tag a) (ef_tag b).

Definition tag := list bytes.

Definition parseTag (tagStr : bytes) : tag := Split tagStr ","%char.

Definition Ignore (t : tag) : bool := bytes_eqb (hd [] t) (B "-").

Definition Key (t : tag) : bytes := hd [] t.

Definition HasOpt (t : tag) (opt : bytes) : bool :=
  existsb (fun s => bytes_eqb s opt) (tl t).

Definition OmitEmpty (t : tag) : bool := HasOpt t (B "omitempty").

Definition IgnoreUnmarshalTypeError (t : tag) : bool :=
  HasOpt t (B "ignore_unmarshal_type_error").

Definition getTag (f : StructField) : tag := parseTag (Tag f).

(** The loop of [encodeFields]; [i] is the index of the head of [fs]. *)
Fixpoint encodeFieldsLoop (i : nat) (fs : list StructField)
    (current : list encodeStructField) : list encodeStructField :=
  match fs with
  | [] => current
  | f :: fs' =>
      if negb (bytes_eqb (PkgPath f) []) then encodeFieldsLoop (S i) fs' current
      else if Anonymous f then encodeFieldsLoop (S i) fs' current
      else
        let tv := getTag f in
        if Ignore tv then encodeFieldsLoop (S i) fs' current
        else
          let ef := mkEncodeStructField i (Name f) (OmitEmpty tv) in
          let ef := if negb (bytes_eqb (Key tv) [])
                    then mkEncodeStructField (ef_i ef) (Key tv) (ef_omitEmpty ef)
                    else ef in
          encodeFieldsLoop (S i) fs' (current ++ [ef])
  end.

Definition encodeFields (fs : list StructField) : list encodeStructField :=
  sortSort Less (encodeFieldsLoop 0 fs []).

(** The cache is transparent: it stores the result of a pure function. *)
Definition cachedTypeFields (fs : list StructField) : list encodeStructField :=
  encodeFields fs.

Record structField := mkStructField {
  sf_r : StructField;
  sf_index : nat;           (* [r.Index] *)
  sf_tag : tag
}.

(** A Go map with string keys: [m[k] = v] and [m[k]]. *)
Fixpoint mapassign {V : Type} (m : list (bytes * V)) (k : bytes) (v : V)
    : list (bytes * V) :=
  match m with
  | [] => [(k, v)]
  | (k', v') :: m' =>
      if bytes_eqb k' k then (k, v) :: m' else (k', v') :: mapassign m' k v
  end.

Fixpoint mapaccess {V : Type} (m : list (bytes * V)) (k : bytes) : option V :=
  match m with
  | [] => None
  | (k', v') :: m' => if bytes_eqb k' k then Some v' else mapaccess m' k
  end.

Fixpoint decodeFieldsLoop (i : nat) (fs : list StructField)
    (m : list (bytes * structField)) : list (bytes * structField) :=
  match fs with
  | [] => m
  | f :: fs' =>
      if Anonymous f then decodeFieldsLoop (S i) fs' m
      else
        let tagStr := Tag f in
        if bytes_eqb tagStr (B "-") then decodeFieldsLoop (S i) fs' m
        else
          let tags := parseTag tagStr in
          let key := Key tags in
          let key := if bytes_eqb key [] then Name f else key in
          decodeFieldsLoop (S i) fs' (mapassign m key (mkStructField f i tags))
  end.

Definition decodeFields (fs : list StructField) : list (bytes * structField) :=
  decodeFieldsLoop 0 fs [].

Definition getStructFieldForKey (fs : list StructField) (key : bytes)
    : option structField :=
  mapaccess (decodeFields fs) key.

(** The fields that [t.NumField()] and [t.Field(i)] range over. *)
Definition structFields (t : rtype) : list StructField :=
  match t with
  | Struct fs => fs
  | BigInt => bigIntFields
  | _ => []
  end.

Definition bytesAsString (b : bytes) : bytes :=
  match b with
  | [] => []
  | _ => b
  end.

(** The hooks of the [Custom] types of a program. *)
Record Hooks := mkHooks {
  (** the zero payload of a [Custom] type *)
  customZero : nat -> bytes;
  (** [isEmptyValue] on a value of a [Custom] type; the flag tells whether
      the value was reached through an unexported field, [None] is a panic *)
  customIsEmpty : nat -> bool -> bytes -> option bool;
  (** whether the hooks of a [Custom] type are declared on the pointer type *)
  hookOnPtr : nat -> bool;
  (** [m.MarshalBencode()] and [m.UnmarshalBencode(b)]; the receiver is the
      value the hook is invoked on (a payload, or a pointer to one) *)
  MarshalBencode : nat -> data -> called (bytes * option Error);
  UnmarshalBencode : nat -> data -> bytes -> called (option Error) * data
}.

Section Engine.

Variable h : Hooks.

(** [reflect.Zero(t)]. *)
Fixpoint zero (t : rtype) : data :=
  match t with
  | Bool => DBool false
  | Int _ => DInt 0
  | Uint _ => DUint 0
  | Uintptr => DUint 0
  | String_ => DString []
  | Interface => DIface None
  | Struct fs => DStruct (map (fun f => zero (Typ f)) fs)
  | Map _ _ => DMap None
  | Slice _ => DSlice None
  | Array n e => DArray (repeat (zero e) n)
  | Ptr _ => DPtr None
  | BigInt => DBig 0
  | Custom id => DOpaque (customZero h id)
  | Other => DOther true
  | Func => DOther true
  end.

(** [isEmptyValue]; [ro] is [flagRO]: the value was obtained through an
    unexported field, so [v.Interface()] panics.  [None] is that panic. *)
Fixpoint isEmptyValue (ro : bool) (t : rtype) (d : data) {struct d} : option bool :=
  let default (isZero : bool) := if ro then None else Some isZero in
  match t, d with
  | Map _ _, DMap m => Some (match m with None => true | Some _ => false end)
  | Slice _, DSlice s => Some (match s with None => true | Some _ => false end)
  | Func, DOther z => Some z
  | Array _ e, DArray a =>
      (fix elems (a : list data) (z : bool) : option bool :=
         match a with
         | [] => Some z
         | x :: a' =>
             if z then
               match isEmptyValue ro e x with
               | Some z' => elems a' z'
               | None => None
               end
             else elems a' false
         end) a true
  | Struct fs, DStruct ds =>
      (fix fields (ds : list data) (fs : list StructField) (z : bool)
           {struct ds} : option bool :=
         match ds, fs with
         | _, [] => Some z
         | x :: ds', f :: fs' =>
             if z then
               match isEmptyValue (ro || negb (bytes_eqb (PkgPath f) [])) (Typ f) x with
               | Some z' => fields ds' fs' z'
               | None => None
               end
             else fields ds' fs' false
         | [], _ :: _ => None
         end) ds fs true
  | BigInt, DBig _ => None
  | Custom id, DOpaque p => customIsEmpty h id ro p
  | Bool, DBool b => default (negb b)
  | Int _, DInt n => default (n =? 0)
  | Uint _, DUint n => default (n =? 0)
  | Uintptr, DUint n => default (n =? 0)
  | String_, DString s => default (bytes_eqb s [])
  | Interface, DIface h => default (match h with None => true | Some _ => false end)
  | Ptr _, DPtr p => default (match p with None => true | Some _ => false end)
  | Other, DOther z => default z
  | _, _ => None
  end.

(** ** The encoder *)

(** [encodeState] embeds a [bytes.Buffer]; [scratch] is temporary space and
    [ptrLevel], [ptrSeen] are never used.  Writes to a [bytes.Buffer] do not
    return errors. *)
Record encodeState := mkEncodeState { eBuffer : bytes }.

Definition Write (e : encodeState) (b : bytes) : encodeState :=
  mkEncodeState (eBuffer e ++ b).

Definition WriteString (e : encodeState) (s : bytes) : encodeState := Write e s.

Definition newEncodeState : encodeState := mkEncodeState [].

Definition eres : Type := outcome (option Error) * encodeState.

Definition encoderFunc : Type := encodeState -> rtype -> data -> eres.

(** [t.Implements(marshalerType) || (t.Kind() != reflect.Ptr &&
    reflect.PtrTo(t).Implements(marshalerType))], and the same test for
    [unmarshalerType]. *)
Definition hasHook (t : rtype) : bool :=
  match t with
  | Custom _ => true
  | Ptr (Custom _) => true
  | _ => false
  end.

(** [v.Bytes()] and [v.SetBytes(b)] on a byte slice. *)
Definition byteOf (d : data) : ascii :=
  match d with
  | DUint n => ascii_of_N (Z.to_N n)
  | _ => Ascii.zero
  end.

Definition ofByte (c : ascii) : data := DUint (byteval c).

Definition isUint8 (t : rtype) : bool :=
  match t with
  | Uint 8 => true
  | _ => false
  end.

Definition len (b : bytes) : Z := Z.of_nat (List.length b).

Definition marshalerEncoder : encoderFunc := fun e t d =>
  match t, d with
  | Ptr (Custom _), DPtr None => (Ret (Some ErrPtrIsNil), e)
  | Ptr (Custom id), DPtr (Some _) =>
      match MarshalBencode h id d with
      | Returned (b, None) => (Ret None, Write e b)
      | Returned (_, Some err) => (Ret (Some err), e)
      | PanickedErr err => (PanicErr err, e)
      | Panicked => (PanicOther, e)
      end
  | Custom id, _ =>
      if hookOnPtr h id then (Ret (Some (ErrUnaddressable t)), e)
      else
        match MarshalBencode h id d with
        | Returned (b, None) => (Ret None, Write e b)
        | Returned (_, Some err) => (Ret (Some err), e)
        | PanickedErr err => (PanicErr err, e)
        | Panicked => (PanicOther, e)
        end
  | _, _ => (PanicErr ErrReflectValue, e)
  end.

Definition bigIntEncoder : encoderFunc := fun e t d =>
  match d with
  | DBig bi =>
      let e := WriteString e (B "i") in
      let e := WriteString e (strconv.AppendInt [] bi) in
      let e := WriteString e (B "e") in
      (Ret None, e)
  | _ => (PanicErr ErrReflectValue, e)
  end.

Definition boolEncoder : encoderFunc := fun e t d =>
  match d with
  | DBool true => (Ret None, WriteString e (B "i1e"))
  | DBool false => (Ret None, WriteString e (B "i0e"))
  | _ => (PanicErr ErrReflectValue, e)
  end.

Definition intEncoder : encoderFunc := fun e t d =>
  match d with
  | DInt n =>
      let e := WriteString e (B "i") in
      let e := Write e (strconv.AppendInt [] n) in
      let e := WriteString e (B "e") in
      (Ret None, e)
  | _ => (PanicErr ErrReflectValue, e)
  end.

Definition uintEncoder : encoderFunc := fun e t d =>
  match d with
  | DUint n =>
      let e := WriteString e (B "i") in
      let e := Write e (strconv.AppendUint [] n) in
      let e := WriteString e (B "e") in
      (Ret None, e)
  | _ => (PanicErr ErrReflectValue, e)
  end.

Definition stringEncoder : encoderFunc := fun e t d =>
  match d with
  | DString s =>
      let e := Write e (strconv.AppendInt [] (len s)) in
      let e := WriteString e (":"%char :: s) in
      (Ret None, e)
  | _ => (PanicErr ErrReflectValue, e)
  end.

Definition unsupportedTypeEncoder : encoderFunc := fun e t d =>
  (Ret (Some (ErrUnsupportedType t)), e).

Section Encoders.

(** [e.reflectValue], the recursive entry. *)
Variable reflectValue : encodeState -> Value -> eres.

Definition interfaceEncoder : encoderFunc := fun e t d =>
  match d with
  | DIface held => reflectValue e held
  | _ => (PanicErr ErrReflectValue, e)
  end.

(** The loop of [newStructEncoder] over [cachedTypeFields(v.Type())]. *)
Fixpoint structEncoderLoop (efs : list encodeStructField)
    (fs : list StructField) (ds : list data) (e : encodeState) : eres :=
  match efs with
  | [] => (Ret None, WriteString e (B "e"))
  | ef :: efs' =>
      match nth_error fs (ef_i ef), nth_error ds (ef_i ef) with
      | Some f, Some fieldValue =>
          match (if ef_omitEmpty ef
                 then isEmptyValue (negb (bytes_eqb (PkgPath f) [])) (Typ f) fieldValue
                 else Some false) with
          | None => (PanicOther, e)
          | Some true => structEncoderLoop efs' fs ds e
          | Some false =>
              let e := Write e (strconv.AppendInt [] (len (ef_tag ef))) in
              let e := WriteString e (":"%char :: ef_tag ef) in
              match reflectValue e (Some (Typ f, fieldValue)) with
              | (Ret None, e) => structEncoderLoop efs' fs ds e
              | r => r
              end
          end
      | _, _ => (PanicOther, e)
      end
  end.

Definition newStructEncoder : encoderFunc := fun e t d =>
  match d with
  | DStruct ds =>
      let e := WriteString e (B "d") in
      structEncoderLoop (cachedTypeFields (structFields t)) (structFields t) ds e
  | _ => (PanicErr ErrReflectValue, e)
  end.

(** The loop of [newMapEncoder] over the sorted keys. *)
Fixpoint mapEncoderLoop (sv : list bytes) (kt et : rtype)
    (m : list (bytes * data)) (e : encodeState) : eres :=
  match sv with
  | [] => (Ret None, WriteString e (B "e"))
  | key :: sv' =>
      match stringEncoder e kt (DString key) with
      | (Ret None, e) =>
          match reflectValue e (option_map (pair et) (mapaccess m key)) with
          | (Ret None, e) => mapEncoderLoop sv' kt et m e
          | r => r
          end
      | r => r
      end
  end.

Definition newMapEncoder : encoderFunc := fun e t d =>
  match t, d with
  | Map kt et, DMap m =>
      match kind kt with
      | KString =>
          match m with
          | None => (Ret None, WriteString e (B "de"))
          | Some m =>
              let e := WriteString e (B "d") in
              let sv := sortSort bytes_ltb (map fst m) in
              mapEncoderLoop sv kt et m e
          end
      | _ => unsupportedTypeEncoder e t d
      end
  | _, _ => (PanicErr ErrReflectValue, e)
  end.

(** The loop of [newArrayEncoder]. *)
Fixpoint arrayEncoderLoop (et : rtype) (a : list data) (e : encodeState) : eres :=
  match a with
  | [] => (Ret None, WriteString e (B "e"))
  | x :: a' =>
      match reflectValue e (Some (et, x)) with
      | (Ret None, e) => arrayEncoderLoop et a' e
      | r => r
      end
  end.

Definition newArrayEncoder : encoderFunc := fun e t d =>
  match t, d with
  | Array _ et, DArray a
  | Slice et, DSlice (Some a) =>
      let e := WriteString e (B "l") in
      arrayEncoderLoop et a e
  | _, _ => (PanicErr ErrReflectValue, e)
  end.

Definition newSliceEncoder : encoderFunc := fun e t d =>
  match t, d with
  | Slice et, DSlice s =>
      if isUint8 et then
        let s := map byteOf (match s with None => [] | Some a => a end) in
        let e := Write e (strconv.AppendInt [] (len s)) in
        let e := WriteString e (B ":") in
        (Ret None, Write e s)
      else
        match s with
        | None => (Ret None, WriteString e (B "le"))
        | Some _ => newArrayEncoder e t d
        end
  | _, _ => (PanicErr ErrReflectValue, e)
  end.

Definition newPtrEncoder : encoderFunc := fun e t d =>
  match t, d with
  | Ptr et, DPtr None => reflectValue e (Some (et, zero et))
  | Ptr et, DPtr (Some x) => reflectValue e (Some (et, x))
  | _, _ => (PanicErr ErrReflectValue, e)
  end.

Definition newTypeEncoder (t : rtype) : encoderFunc :=
  if hasHook t then marshalerEncoder
  else
    match t with
    | BigInt => bigIntEncoder
    | _ =>
        match kind t with
        | KBool => boolEncoder
        | KInt => intEncoder
        | KUint | KUintptr => uintEncoder
        | KString => stringEncoder
        | KInterface => interfaceEncoder
        | KStruct => newStructEncoder
        | KMap => newMapEncoder
        | KSlice => newSliceEncoder
        | KArray => newArrayEncoder
        | KPtr => newPtrEncoder
        | KOther | KFunc => unsupportedTypeEncoder
        end
    end.

(** The encoder cache stores [newTypeEncoder t] under [t]. *)
Definition typeEncoder (t : rtype) : encoderFunc := newTypeEncoder t.

End Encoders.

Fixpoint reflectValue (fuel : nat) (e : encodeState) (v : Value) {struct fuel} : eres :=
  match v with
  | None => (Ret (Some ErrInvalidValueEncoder), e)
  | Some (t, d) =>
      match fuel with
      | O => (OutOfFuel, e)
      | S fuel' => typeEncoder (reflectValue fuel') t e t d
      end
  end.

(** A bound on the nesting of [reflectValue] below a value. *)
Fixpoint tsize (t : rtype) : nat :=
  match t with
  | Struct fs => S (list_sum (map (fun f => tsize (Typ f)) fs))
  | Map k e => S (tsize k + tsize e)
  | Slice e | Array _ e | Ptr e => S (tsize e)
  | _ => 1%nat
  end.

Fixpoint dsize (d : data) : nat :=
  match d with
  | DIface (Some (t, x)) => S (tsize t + dsize x)
  | DStruct ds | DSlice (Some ds) | DArray ds => list_sum (map dsize ds)
  | DMap (Some m) => list_sum (map (fun kv => dsize (snd kv)) m)
  | DPtr (Some x) => dsize x
  | _ => 0%nat
  end.

Definition vsize (v : Value) : nat :=
  match v with
  | None => 0%nat
  | Some (t, d) => (tsize t + dsize d)%nat
  end.

Definition marshal (e : encodeState) (v : Value) : eres :=
  reflectValue (S (vsize v)) e v.

(** [Marshal]: the bytes and a nil error, or no bytes and the error. *)
Definition Marshal (v : Value) : outcome (bytes + Error) :=
  let e := newEncodeState in
  match marshal e v with
  | (Ret (Some err), _) => Ret (inr err)
  | (Ret None, e) => Ret (inl (eBuffer e))
  | (PanicErr err, _) => PanicErr err
  | (PanicOther, _) => PanicOther
  | (OutOfFuel, _) => OutOfFuel
  end.

(** ** The decoder *)

(** [decodeState]: the embedded scratch [bytes.Buffer], the unread part of the
    input held by [Scanner], and the running offset. *)
Record decodeState := mkDecodeState {
  Buffer : bytes;
  Scanner : bytes;
  Offset : Z
}.

Definition Reset (d : decodeState) : decodeState :=
  mkDecodeState [] (Scanner d) (Offset d).

Definition WriteByte (d : decodeState) (b : ascii) : decodeState :=
  mkDecodeState (Buffer d ++ [b]) (Scanner d) (Offset d).

Definition dWriteString (d : decodeState) (s : bytes) : decodeState :=
  mkDecodeState (Buffer d ++ s) (Scanner d) (Offset d).

(** Results of the cursor operations and of the parse functions; a parse
    function also gives back the target as the call left it. *)
Definition rres (A : Type) : Type := outcome A * decodeState.
Definition pres (A : Type) : Type := outcome A * data * decodeState.

(** A panic or an exhausted fuel passes through a caller unchanged. *)
Definition raise {A B : Type} (o : outcome A) : outcome B :=
  match o with
  | Ret _ => OutOfFuel
  | PanicErr e => PanicErr e
  | PanicOther => PanicOther
  | OutOfFuel => OutOfFuel
  end.

Definition readByte (d : decodeState) : rres ascii :=
  match Scanner d with
  | [] => (PanicErr (newSyntaxError (Offset d) EOF), d)
  | b :: s => (Ret b, mkDecodeState (Buffer d) s (Offset d + 1))
  end.

(** [unreadByte] directly after [readByte] returned [b]. *)
Definition unreadByte (d : decodeState) (b : ascii) : decodeState :=
  mkDecodeState (Buffer d) (b :: Scanner d) (Offset d - 1).

Fixpoint readUntilLoop (sep : ascii) (s buf : bytes) (off : Z) : rres unit :=
  match s with
  | [] => (PanicErr (newSyntaxError off EOF), mkDecodeState buf [] off)
  | b :: s' =>
      if Ascii.eqb b sep then (Ret tt, mkDecodeState buf s' (off + 1))
      else readUntilLoop sep s' (buf ++ [b]) (off + 1)
  end.

Definition readUntil (d : decodeState) (sep : ascii) : rres unit :=
  readUntilLoop sep (Scanner d) (Buffer d) (Offset d).

Definition readInt (d : decodeState) : rres bytes :=
  match readUntil d "e"%char with
  | (Ret _, d) =>
      match Buffer d with
      | [] => (Ret [], d)
      | _ => (Ret (bytesAsString (Buffer d)), Reset d)
      end
  | (o, d) => (raise o, d)
  end.

Definition readStringLength (d : decodeState) : rres Z :=
  match readUntil d ":"%char with
  | (Ret _, d) =>
      match strconv.ParseInt (bytesAsString (Buffer d)) with
      | inl err => (PanicErr (ErrNum err), Reset d)
      | inr length => (Ret length, Reset d)
      end
  | (o, d) => (raise o, d)
  end.

(** [io.ReadFull] into a fresh slice of [length] bytes. *)
Definition readLength (d : decodeState) (length : Z) : rres bytes :=
  if length <? 0 then (PanicErr ErrRuntime, d)
  else
    let b := firstn (Z.to_nat length) (Scanner d) in
    let d' := mkDecodeState (Buffer d) (skipn (Z.to_nat length) (Scanner d))
                (Offset d + len b) in
    if len b <? length
    then (PanicErr (ErrIO (match b with [] => EOF | _ => ErrUnexpectedEOF end)), d')
    else (Ret b, d').

(** [readValue]: copies the next well-formed value into the scratch buffer. *)
Section ReadValue.
Variable readValue : decodeState -> rres bool.

(** [for d.readValue() {}], at most [n] rounds. *)
Fixpoint readValueLoop (n : nat) (d : decodeState) : rres unit :=
  match n with
  | O => (OutOfFuel, d)
  | S n' =>
      match readValue d with
      | (Ret true, d) => readValueLoop n' d
      | (Ret false, d) => (Ret tt, d)
      | (o, d) => (raise o, d)
      end
  end.

Definition readValueBody (n : nat) (d : decodeState) : rres bool :=
  match readByte d with
  | (Ret b, d) =>
      if Ascii.eqb b "e"%char then (Ret false, unreadByte d b)
      else
        let d := WriteByte d b in
        if Ascii.eqb b "d"%char || Ascii.eqb b "l"%char then
          match readValueLoop n d with
          | (Ret _, d) =>
              match readByte d with
              | (Ret b, d) => (Ret true, WriteByte d b)
              | (o, d) => (raise o, d)
              end
          | (o, d) => (raise o, d)
          end
        else if Ascii.eqb b "i"%char then
          match readUntil d "e"%char with
          | (Ret _, d) => (Ret true, dWriteString d (B "e"))
          | (o, d) => (raise o, d)
          end
        else if strconv.isDigit b then
          let start := (List.length (Buffer d) - 1)%nat in
          match readUntil d ":"%char with
          | (Ret _, d) =>
              match strconv.ParseInt (bytesAsString (skipn start (Buffer d))) with
              | inl err => (PanicErr (ErrNum err), d)
              | inr length =>
                  let d := dWriteString d (B ":") in
                  let c := firstn (Z.to_nat length) (Scanner d) in
                  let d := mkDecodeState (Buffer d ++ c)
                             (skipn (Z.to_nat length) (Scanner d))
                             (Offset d + len c) in
                  if len c <? length then (PanicErr (ErrIO EOF), d)
                  else (Ret true, d)
              end
          | (o, d) => (raise o, d)
          end
        else (PanicErr (newUnknownValueType (Offset d - 1) b), d)
  | (o, d) => (raise o, d)
  end.
End ReadValue.

Fixpoint readValue (fuel : nat) (d : decodeState) {struct fuel} : rres bool :=
  match fuel with
  | O => (OutOfFuel, d)
  | S fuel' => readValueBody (readValue fuel') fuel' d
  end.

(** [v.OverflowInt(n)] and [v.OverflowUint(n)] for a kind of [bits] bits. *)
Definition OverflowInt (bits n : Z) : bool :=
  negb ((- 2 ^ (bits - 1) <=? n) && (n <? 2 ^ (bits - 1))).

Definition OverflowUint (bits n : Z) : bool := negb (n <? 2 ^ bits).

(** [new(big.Int).SetString(s, 10)]. *)
Fixpoint digitsValue (s : bytes) (n : Z) : option Z :=
  match s with
  | [] => Some n
  | c :: s' =>
      if strconv.isDigit c
      then digitsValue s' (n * 10 + (byteval c - byteval "0"%char))
      else None
  end.

Definition SetString (s : bytes) : option Z :=
  match s with
  | [] => None
  | c :: s' =>
      let neg := Ascii.eqb c "-"%char in
      let s1 := if Ascii.eqb c "+"%char || neg then s' else s in
      match s1 with
      | [] => None
      | _ => option_map (fun n => if neg then - n else n) (digitsValue s1 0)
      end
  end.

(** [reflect.Copy(v, reflect.ValueOf(b))] into an array. *)
Definition Copy (dst : list data) (src : bytes) : list data :=
  let n := Nat.min (List.length dst) (List.length src) in
  map ofByte (firstn n src) ++ skipn n dst.

Definition bigIntDecoder (d : decodeState) (t : rtype) (v : data) : pres (option Error) :=
  match readInt d with
  | (Ret s, d) =>
      match s with
      | [] => (Ret (Some ErrEmptyMessage), v, d)
      | _ =>
          match SetString s with
          | None => (Ret (Some ErrEmptyMessage), v, d)
          | Some bi =>
              match t with
              | BigInt => (Ret None, DBig bi, d)
              | _ => (Ret None, DPtr (Some (DBig bi)), d)
              end
          end
      end
  | (o, d) => (raise o, v, d)
  end.

(** The switch of [parseByteString] on [v.Kind()]: the error it returns and
    the target as it leaves it. *)
Definition setByteString (t : rtype) (v : data) (b : bytes) : option Error * data :=
  match t, v with
  | String_, _ => (None, DString (bytesAsString b))
  | Slice et, _ =>
      if isUint8 et then (None, DSlice (Some (map ofByte b)))
      else (Some ErrCannotUnmarshal, v)
  | Array _ et, DArray a =>
      if isUint8 et then (None, DArray (Copy a b))
      else (Some ErrCannotUnmarshal, v)
  | Interface, _ => (None, DIface (Some (String_, DString (bytesAsString b))))
  | _, _ => (Some ErrCannotUnmarshal, v)
  end.

Definition parseByteString (d : decodeState) (t : rtype) (v : data) : pres (option Error) :=
  match readStringLength d with
  | (Ret length, d) =>
      match readLength d length with
      | (Ret b, d) =>
          let '(err, v) := setByteString t v b in (Ret err, v, d)
      | (o, d) => (raise o, v, d)
      end
  | (o, d) => (raise o, v, d)
  end.

Definition parseInteger (d : decodeState) (t : rtype) (v : data) : pres (option Error) :=
  match readInt d with
  | (Ret s, d) =>
      match t, v with
      | BigInt, _ => bigIntDecoder d t v
      | Ptr _, DPtr None => (PanicErr ErrReflectValue, v, d)
      | Ptr BigInt, _ => bigIntDecoder d t v
      | Interface, _ =>
          match strconv.ParseInt s with
          | inl _ => (Ret (Some ErrCannotUnmarshal), v, d)
          | inr n => (Ret None, DIface (Some (Int 64, DInt n)), d)
          end
      | Int bits, _ =>
          match strconv.ParseInt s with
          | inl _ => (Ret (Some ErrCannotUnmarshal), v, d)
          | inr n =>
              if OverflowInt bits n then (Ret (Some ErrCannotUnmarshal), v, d)
              else (Ret None, DInt n, d)
          end
      | Uint bits, _ =>
          match strconv.ParseUint s with
          | inl _ => (Ret (Some ErrCannotUnmarshal), v, d)
          | inr n =>
              if OverflowUint bits n then (Ret (Some ErrCannotUnmarshal), v, d)
              else (Ret None, DUint n, d)
          end
      | Bool, _ => (Ret None, DBool (negb (bytes_eqb s (B "0"))), d)
      | _, _ => (Ret (Some newUnknownType), v, d)
      end
  | (o, d) => (raise o, v, d)
  end.

(** [unmarshalerDecoder]; [n] bounds the nesting of the value it copies. *)
Definition unmarshalerDecoder (n : nat) (d : decodeState) (t : rtype) (v : data)
    : pres (option Error) :=
  match t with
  | Custom id | Ptr (Custom id) =>
      let d := Reset d in
      match readValue n d with
      | (Ret false, d) => (Ret (Some ErrA), v, d)
      | (Ret true, d) =>
          let '(o, v') := UnmarshalBencode h id v (Buffer d) in (ofCall o, v', d)
      | (o, d) => (raise o, v, d)
      end
  | _ => (Ret (Some (ErrUnaddressable t)), v, d)
  end.

(** [v.SetMapIndex(reflect.ValueOf(key).Convert(v.Type().Key()), value)]: a
    string converts to a string kind and to an interface, nothing else. *)
Definition convertibleKey (kt : rtype) : bool :=
  match kind kt with
  | KString | KInterface => true
  | _ => false
  end.

(** [l] with its element at [i] replaced. *)
Fixpoint setNth (l : list data) (i : nat) (x : data) : list data :=
  match l, i with
  | [], _ => []
  | _ :: l', O => x :: l'
  | y :: l', S i' => y :: setNth l' i' x
  end.

Section Parsers.

(** The recursive entry [parseValue]. *)
Variable parseValue : decodeState -> rtype -> data -> pres (bool * option Error).

(** The loop of [parseList] on a slice; [done] holds [v[0..i)], and round
    [i] appends a zero element and decodes into it. *)
Fixpoint parseSliceLoop (n : nat) (d : decodeState) (et : rtype)
    (done : list data) : pres (option Error) :=
  match n with
  | O => (OutOfFuel, DSlice (Some done), d)
  | S n' =>
      match parseValue d et (zero et) with
      | (Ret (_, Some err), x, d) => (Ret (Some err), DSlice (Some (done ++ [x])), d)
      | (Ret (true, None), x, d) => (Ret None, DSlice (Some (done ++ [x])), d)
      | (Ret (false, None), x, d) => parseSliceLoop n' d et (done ++ [x])
      | (o, x, d) => (raise o, DSlice (Some (done ++ [x])), d)
      end
  end.

(** The loop of [parseList] on an array. *)
Fixpoint parseArrayLoop (d : decodeState) (et : rtype)
    (done todo : list data) : pres (option Error) :=
  match todo with
  | [] => (Ret None, DArray done, d)
  | x :: todo' =>
      match parseValue d et x with
      | (Ret (_, Some err), x', d) => (Ret (Some err), DArray (done ++ x' :: todo'), d)
      | (Ret (true, None), x', d) => parseArrayLoop d et (done ++ [x']) todo'
      | (Ret (false, None), x', d) => parseArrayLoop d et (done ++ [zero et]) todo'
      | (o, x', d) => (raise o, DArray (done ++ x' :: todo'), d)
      end
  end.

Definition parseList (n : nat) (d : decodeState) (t : rtype) (v : data)
    : pres (option Error) :=
  match t, v with
  | Slice et, _ => parseSliceLoop n d et []
  | Array _ et, DArray a => parseArrayLoop d et [] a
  | Interface, _ =>
      (* [parseList(d, v.Elem())]: [v.Set] on the unaddressable slice held
         by the interface panics with a string *)
      (PanicOther, DIface (Some (Slice Interface, DSlice None)), d)
  | _, _ => (Ret None, v, d)
  end.

(** The loop of [parseDict]; [settable] is false for the map that
    [v.Elem()] takes out of an interface. *)
Fixpoint parseDictLoop (n : nat) (settable : bool) (d : decodeState)
    (t : rtype) (v : data) : pres (option Error) :=
  match n with
  | O => (OutOfFuel, v, d)
  | S n' =>
      match parseValue d String_ (DString []) with
      | (Ret (_, Some err), _, d) => (Ret (Some err), v, d)
      | (Ret (false, None), _, d) => (Ret None, v, d)
      | (Ret (true, None), k, d) =>
          let key := match k with DString s => s | _ => [] end in
          match t, v with
          | Map kt et, DMap m =>
              match parseValue d et (zero et) with
              | (Ret (_, Some err), _, d) => (Ret (Some (newParseError key err)), v, d)
              | (Ret (false, None), _, d) => (Ret (Some (ErrMissingValueMap key)), v, d)
              | (Ret (true, None), value, d) =>
                  match m, settable with
                  | None, false => (PanicOther, v, d)
                  | _, _ =>
                      let m := match m with None => [] | Some m => m end in
                      if convertibleKey kt
                      then parseDictLoop n' settable d t (DMap (Some (mapassign m key value)))
                      else (PanicOther, DMap (Some m), d)
                  end
              | (o, _, d) => (raise o, v, d)
              end
          | Map _ _, _ => (PanicErr ErrReflectValue, v, d)
          | (Struct _ | BigInt | Custom _), _ =>
              match getStructFieldForKey (structFields t) key with
              | None => (Ret (Some ErrEmptyMessage), v, d)
              | Some sf =>
                  if negb (bytes_eqb (PkgPath (sf_r sf)) [])
                  then (Ret (Some ErrEmptyMessage), v, d)
                  else
                    match v with
                    | DStruct ds =>
                        match nth_error ds (sf_index sf) with
                        | Some value =>
                            match parseValue d (Typ (sf_r sf)) value with
                            | (Ret (_, Some err), x, d) =>
                                (Ret (Some (newParseError key err)),
                                 DStruct (setNth ds (sf_index sf) x), d)
                            | (Ret (false, None), x, d) =>
                                (Ret (Some (ErrMissingValue key)),
                                 DStruct (setNth ds (sf_index sf) x), d)
                            | (Ret (true, None), x, d) =>
                                parseDictLoop n' settable d t
                                  (DStruct (setNth ds (sf_index sf) x))
                            | (o, x, d) =>
                                (raise o, DStruct (setNth ds (sf_index sf) x), d)
                            end
                        | None => (PanicErr ErrReflectValue, v, d)
                        end
                    | _ => (PanicErr ErrReflectValue, v, d)
                    end
              end
          | _, _ => parseDictLoop n' settable d t v
          end
      | (o, _, d) => (raise o, v, d)
      end
  end.

Definition parseDict (n : nat) (d : decodeState) (t : rtype) (v : data)
    : pres (option Error) :=
  match t with
  | Interface =>
      let mt := Map String_ Interface in
      let '(o, _, d) := parseDictLoop n false d mt (DMap None) in
      (o, DIface (Some (mt, DMap None)), d)
  | _ => parseDictLoop n true d t v
  end.

(** [parseValue] after the pointer indirection. *)
Definition parseValueElem (n : nat) (d : decodeState) (t : rtype) (v : data)
    : pres (bool * option Error) :=
  let withTrue (r : pres (option Error)) : pres (bool * option Error) :=
    match r with
    | (Ret err, v, d) => (Ret (true, err), v, d)
    | (o, v, d) => (raise o, v, d)
    end in
  if hasHook t then
    match unmarshalerDecoder (S n) d t v with
    | (Ret (Some err), v, d) => (Ret (false, Some err), v, d)
    | (Ret None, v, d) => (Ret (true, None), v, d)
    | (o, v, d) => (raise o, v, d)
    end
  else
    match readByte d with
    | (Ret b, d) =>
        if Ascii.eqb b "e"%char then (Ret (false, None), v, d)
        else if Ascii.eqb b "d"%char then withTrue (parseDict n d t v)
        else if Ascii.eqb b "l"%char then withTrue (parseList n d t v)
        else if Ascii.eqb b "i"%char then withTrue (parseInteger d t v)
        else if strconv.isDigit b then
          let d := Reset d in
          let d := WriteByte d b in
          withTrue (parseByteString d t v)
        else (Ret (false, Some (newUnknownValueType (Offset d - 1) b)), v, d)
    | (o, d) => (raise o, v, d)
    end.

Definition parseValueBody (n : nat) (d : decodeState) (t : rtype) (v : data)
    : pres (bool * option Error) :=
  match t with
  | Ptr te =>
      (* [if v.IsNil() { v.Set(reflect.New(v.Type().Elem())) }; v = v.Elem()] *)
      let x := match v with DPtr (Some x) => x | _ => zero te end in
      let '(o, x, d) := parseValueElem n d te x in
      (o, DPtr (Some x), d)
  | _ => parseValueElem n d t v
  end.

End Parsers.

Fixpoint parseValue (fuel : nat) (d : decodeState) (t : rtype) (v : data)
    {struct fuel} : pres (bool * option Error) :=
  match fuel with
  | O => (OutOfFuel, v, d)
  | S fuel' => parseValueBody (parseValue fuel') fuel' d t v
  end.

(** [unmarshal]: the deferred [recover] turns a panic with an [Error] into
    the returned error and drops any other panic value.  The target is the
    pointee of [v]; the result carries it as the call left it. *)
Definition unmarshal (d : decodeState) (v : Value) : outcome (option Error) * Value :=
  match v with
  | Some (Ptr t, DPtr (Some x)) =>
      let '(o, x, d) := parseValue (S (List.length (Scanner d))) d t x in
      let v := Some (Ptr t, DPtr (Some x)) in
      match o with
      | Ret (_, Some err) => (Ret (Some err), v)
      | Ret (false, None) => (Ret (Some (ErrUnexpectedE (Offset d - 1))), v)
      | Ret (true, None) => (Ret None, v)
      | PanicErr ee => (Ret (Some ee), v)
      | PanicOther => (Ret None, v)
      | OutOfFuel => (OutOfFuel, v)
      end
  | _ => (Ret (Some ErrInvalidUnmarshalArg), v)
  end.

Definition Unmarshal (data : bytes) (v : Value) : outcome (option Error) * Value :=
  unmarshal (mkDecodeState [] data 0) v.

End Engine.

(** ** Vocabulary of the statements *)

(** A program that declares no [Custom] type. *)
Definition noHooks : Hooks :=
  mkHooks (fun _ => []) (fun _ _ _ => None) (fun _ => false)
    (fun _ _ => Returned ([], Some (ErrHook 0)))
    (fun _ v _ => (Returned (Some (ErrHook 0)), v)).

(** The argument [&x] of [Unmarshal] for a target [x] of type [t]. *)
Definition target (t : rtype) (x : data) : Value := Some (Ptr t, DPtr (Some x)).

(** A bencode byte string. *)
Definition bencString (s : bytes) : bytes :=
  strconv.AppendInt [] (len s) ++ ":"%char :: s.

(** A bencode dict given by its keys and the encodings of its values, in the
    order in which they appear. *)
Definition dictBody (kvs : list (bytes * bytes)) : bytes :=
  flat_map (fun kv => bencString (fst kv) ++ snd kv) kvs.

Definition dictBytes (kvs : list (bytes * bytes)) : bytes :=
  B "d" ++ dictBody kvs ++ B "e".

Definition bytes_lt (a b : bytes) : Prop := bytes_ltb a b = true.
Definition bytes_le (a b : bytes) : Prop := bytes_ltb b a = false.

(** [rv] appends [enc] and returns nil when it encodes [v] on an empty buffer. *)
Definition encodesWith (rv : encodeState -> Value -> eres) (v : Value) (enc : bytes) : Prop :=
  rv newEncodeState v = (Ret None, mkEncodeState enc).

(** The encoding of a value on its own: what [reflectValue] appends. *)
Definition encodes (h : Hooks) (v : Value) (out : bytes) : Prop :=
  exists fuel, reflectValue h fuel newEncodeState v = (Ret None, mkEncodeState out).

(** The field value [v.Field(ef.i)] that the struct encoder reads for [ef]. *)
Definition fieldOf (fs : list StructField) (ds : list data)
    (ef : encodeStructField) : Value :=
  match nth_error fs (ef_i ef), nth_error ds (ef_i ef) with
  | Some f, Some x => Some (Typ f, x)
  | _, _ => None
  end.

(** [isEmptyValue(fieldValue)] for that field value. *)
Definition isEmptyField (h : Hooks) (fs : list StructField) (ds : list data)
    (ef : encodeStructField) : option bool :=
  match nth_error fs (ef_i ef), nth_error ds (ef_i ef) with
  | Some f, Some x => isEmptyValue h (negb (bytes_eqb (PkgPath f) [])) (Typ f) x
  | _, _ => None
  end.

(** [ef.omitEmpty && isEmptyValue(fieldValue)] holds. *)
Definition omits (h : Hooks) (fs : list StructField) (ds : list data)
    (ef : encodeStructField) : bool :=
  ef_omitEmpty ef &&
  match isEmptyField h fs ds ef with
  | Some b => b
  | None => false
  end.

(** The fields of a struct value that are not omitted, in encoding order. *)
Definition emitted (h : Hooks) (fs : list StructField) (ds : list data)
    : list encodeStructField :=
  filter (fun ef => negb (omits h fs ds ef)) (cachedTypeFields fs).

(** The struct with two [int] fields [A] and [B] that share the wire key [x]. *)
Definition sharedKeyFields : list StructField :=
  [ mkField (B "A") [] false (B "x") (Int 64);
    mkField (B "B") [] false (B "x") (Int 64) ].



(** The wire key under which [decodeFields] files a field; [None] for a field
    it skips. *)
Definition decodeKey (f : StructField) : option bytes :=
  if Anonymous f then None
  else if bytes_eqb (Tag f) (B "-") then None
  else
    let key := Key (parseTag (Tag f)) in
    Some (if bytes_eqb key [] then Name f else key).

(** Following the claim's words: the value that a decimal payload denotes.
    An unsigned payload is a non-empty run of digits; a signed payload may
    start with one sign. *)
Definition digitValue (c : ascii) : option Z :=
  if strconv.isDigit c then Some (byteval c - 48) else None.

Definition decimalOf (s : bytes) : option Z :=
  fold_left (fun acc c =>
               match acc, digitValue c with
               | Some a, Some d => Some (10 * a + d)
               | _, _ => None
               end) s (Some 0).

Definition unsignedValue (s : bytes) : option Z :=
  match s with
  | [] => None
  | _ => decimalOf s
  end.

Definition signedValue (s : bytes) : option Z :=
  match s with
  | [] => None
  | c :: s' =>
      if Ascii.eqb c "-"%char then option_map Z.opp (unsignedValue s')
      else if Ascii.eqb c "+"%char then unsignedValue s'
      else unsignedValue s
  end.

(** Representable in a signed, in an unsigned kind of [bits] bits. *)
Definition fitsInt (bits n : Z) : bool :=
  (- 2 ^ (bits - 1) <=? n) && (n <=? 2 ^ (bits - 1) - 1).

Definition fitsUint (bits n : Z) : bool :=
  (0 <=? n) && (n <=? 2 ^ bits - 1).

(** The type that [parseValue] decodes into after its pointer indirection. *)
Definition pointee (t : rtype) : rtype :=
  match t with
  | Ptr te => te
  | _ => t
  end.

(** [struct{Foo int `bencode:"foo"`}]. *)
Definition fooFields : list StructField :=
  [ mkField (B "Foo") [] false (B "foo") (Int 64) ].

(** [struct{A T}]: one exported field without a tag. *)
Definition listField (t : rtype) : list StructField :=
  [ mkField (B "A") [] false [] t ].

(** The decoder state with [extra] bytes appended to the unread input. *)
Definition extend (d : decodeState) (extra : bytes) : decodeState :=
  mkDecodeState (Buffer d) (Scanner d ++ extra) (Offset d).

(** The ways a call can end without having met the end of the input: it
    returned, or it panicked with a value that is not an error. *)
Definition stable {A : Type} (o : outcome A) : Prop :=
  match o with
  | Ret _ | PanicOther => True
  | PanicErr _ | OutOfFuel => False
  end.

(** A run that ended in a stable way on some input ends the same way, with
    the same target and the same bytes consumed, on the extended input. *)
Definition rsim {A : Type} (extra : bytes) (r1 r2 : rres A) : Prop :=
  forall o d, r1 = (o, d) -> stable o -> r2 = (o, extend d extra).

Definition psim {A : Type} (extra : bytes) (r1 r2 : pres A) : Prop :=
  forall o v d, r1 = (o, v, d) -> stable o -> r2 = (o, v, extend d extra).

(** The number of unread bytes. *)
Definition unread (d : decodeState) : nat := List.length (Scanner d).

(** A cursor operation from [d] ended other than by lack of fuel, consumed
    input only, and consumed some of it when [strict] holds of its result. *)
Definition rgood {A : Type} (strict : A -> Prop) (d : decodeState) (r : rres A) : Prop :=
  fst r <> OutOfFuel /\
  (unread (snd r) <= unread d)%nat /\
  (forall a, fst r = Ret a -> strict a -> (unread (snd r) < unread d)%nat).

Definition pgood {A : Type} (strict : A -> Prop) (d : decodeState) (r : pres A) : Prop :=
  fst (fst r) <> OutOfFuel /\
  (unread (snd r) <= unread d)%nat /\
  (forall a, fst (fst r) = Ret a -> strict a -> (unread (snd r) < unread d)%nat).

(** [parseValue] returned without an error. *)
Definition noError (r : bool * option Error) : Prop := snd r = None.

(** ** Vocabulary of the further properties *)

Definition untouched (h : Hooks) (t : rtype) (v : data) : data :=
  match t with
  | Ptr te => DPtr (Some (match v with DPtr (Some x) => x | _ => zero h te end))
  | _ => v
  end.


(** The kinds for which [parseInteger] has no case. *)
Definition noIntegerCase (t : rtype) : bool :=
  match t with
  | Uintptr | String_ | Struct _ | Map _ _ | Slice _ | Array _ _ | Other | Func => true
  | _ => false
  end.

(** The largest length that [make([]byte, length)] accepts on a 64-bit
    platform; above it [make] panics before anything is read. *)
Definition maxAlloc : Z := 2 ^ 48.

(** The kinds for which [parseByteString] has no case. *)
Definition noStringCase (t : rtype) : bool :=
  match t with
  | Bool | Int _ | Uint _ | Uintptr | Struct _ | Map _ _ | BigInt | Other | Func => true
  | Slice et | Array _ et => negb (isUint8 et)
  | _ => false
  end.

(** The fields that the loop of [encodeFields] does not skip. *)
Definition encodable (f : StructField) : bool :=
  bytes_eqb (PkgPath f) [] && negb (Anonymous f) && negb (Ignore (getTag f)).

(** The key of the tag, or the name of the field when the tag gives none. *)
Definition wireKey (f : StructField) : bytes :=
  if bytes_eqb (Key (getTag f)) [] then Name f else Key (getTag f).

Definition entryOf (fs : list StructField) (ef : encodeStructField) : Prop :=
  exists f, nth_error fs (ef_i ef) = Some f /\ encodable f = true /\
            ef_tag ef = wireKey f /\ ef_omitEmpty ef = OmitEmpty (getTag f).


(** The values directly below a value. *)
Definition children (d : data) : list data :=
  match d with
  | DIface (Some (_, x)) => [x]
  | DStruct ds | DSlice (Some ds) | DArray ds => ds
  | DMap (Some m) => map snd m
  | DPtr (Some x) => [x]
  | _ => []
  end.

(** A bencode list whose items are the encodings of the elements of [a]. *)
Definition listEncoding (h : Hooks) (et : rtype) (a : list data) (out : bytes) : Prop :=
  exists encs,
    Forall2 (fun x enc => Marshal h (Some (et, x)) = Ret (inl enc)) a encs /\
    out = B "l" ++ List.concat encs ++ B "e".

(** The values that [readValue] tells apart: an integer with its payload, a
    byte string, and a list or a dict with its items (the keys and the values
    of a dict are items alike). *)
Inductive bvalue : Type :=
| BInt (payload : bytes)
| BStr (s : bytes)
| BList (items : list bvalue)
| BDict (items : list bvalue).

Fixpoint render (v : bvalue) : bytes :=
  match v with
  | BInt payload => "i"%char :: payload ++ B "e"
  | BStr s => bencString s
  | BList items => "l"%char :: flat_map render items ++ B "e"
  | BDict items => "d"%char :: flat_map render items ++ B "e"
  end.

Fixpoint wellFormed (v : bvalue) : Prop :=
  match v with
  | BInt payload => ~ In "e"%char payload
  | BStr s => len s < 2 ^ 63
  | BList items | BDict items => fold_right (fun x acc => wellFormed x /\ acc) True items
  end.

(** What [unmarshal] makes of the way a hook ends. *)
Definition hookError (c : called (option Error)) : option Error :=
  match c with
  | Returned err => err
  | PanickedErr e => Some e
  | Panicked => None
  end.

(** [enc] decodes into [x]: with fuel above the length of [enc], from an
    empty scratch buffer, [parseValue] on an input that starts with [enc]
    stores [x] in a fresh target of type [t], reports a value and no error,
    consumes [enc] and nothing more, and leaves the scratch buffer empty. *)
Definition decodesTo (h : Hooks) (t : rtype) (enc : bytes) (x : data) : Prop :=
  forall fuel rest off,
    (List.length enc < fuel)%nat ->
    exists off',
      parseValue h fuel (mkDecodeState [] (enc ++ rest) off) t (zero h t) =
        (Ret (true, None), x, mkDecodeState [] rest off').

(** The map after the assignments [m[k] = v] for the pairs of [kvs], in order;
    a nil map is made only when there is something to assign. *)
Definition assignAll (m0 : option (list (bytes * data))) (kvs : list (bytes * data))
    : option (list (bytes * data)) :=
  match kvs with
  | [] => m0
  | _ => Some (fold_left (fun m kv => mapassign m (fst kv) (snd kv)) kvs
                 (match m0 with None => [] | Some m => m end))
  end.

(** An element of a [[]byte]. *)
Definition isByte (d : data) : bool :=
  match d with
  | DUint n => (0 <=? n) && (n <? 256)
  | _ => false
  end.

(** The values for which the round trip is proved: booleans, integers of
    every width, strings, non-nil byte slices, maps with string keys, structs
    whose fields are all encoded under distinct keys, and non-nil pointers to
    such values that are not pointers themselves. *)
Inductive plain : rtype -> data -> Prop :=
| plain_bool b : plain Bool (DBool b)
| plain_int bits n :
    0 < bits <= 64 -> fitsInt bits n = true -> plain (Int bits) (DInt n)
| plain_uint bits n :
    0 < bits <= 64 -> fitsUint bits n = true -> plain (Uint bits) (DUint n)
| plain_string s : len s < 2 ^ 63 -> plain String_ (DString s)
| plain_bytes a :
    Z.of_nat (List.length a) < 2 ^ 63 -> forallb isByte a = true ->
    plain (Slice (Uint 8)) (DSlice (Some a))
| plain_ptr t x : kind t <> KPtr -> plain t x -> plain (Ptr t) (DPtr (Some x))
| plain_nil_map et : plain (Map String_ et) (DMap None)
| plain_map et m :
    NoDup (map fst m) ->
    Forall (fun kv => len (fst kv) < 2 ^ 63 /\ plain et (snd kv)) m ->
    plain (Map String_ et) (DMap (Some m))
| plain_struct fs ds :
    Forall (fun f => encodable f = true /\ len (wireKey f) < 2 ^ 63) fs ->
    NoDup (map wireKey fs) ->
    Forall2 (fun f x => plain (Typ f) x) fs ds ->
    plain (Struct fs) (DStruct ds).

(** The entries of a map in the order of their keys. *)
Definition sortedEntries (m : list (bytes * data)) : list (bytes * data) :=
  sortSort (fun a b => bytes_ltb (fst a) (fst b)) m.

(** The value up to what a Go program cannot tell apart after a round trip:
    the entries of a map are put in the order of their keys, and a map
    without entries is the nil map. *)
Fixpoint canon (d : data) : data :=
  match d with
  | DStruct ds => DStruct (map canon ds)
  | DMap (Some []) => DMap None
  | DMap (Some m) => DMap (Some (sortedEntries (map (fun kv => (fst kv, canon (snd kv))) m)))
  | DPtr (Some x) => DPtr (Some (canon x))
  | _ => d
  end.

Definition canonEntries (m : list (bytes * data)) : list (bytes * data) :=
  map (fun kv => (fst kv, canon (snd kv))) m.

(** What the struct encoder and the dict decoder do for one field: [None]
    for a field that is left out, otherwise the encoding of its value and the
    value that the decoder stores. *)
Definition fieldPlan : Type := encodeStructField * option (bytes * data).

Definition bodyOf (l : list fieldPlan) : bytes :=
  flat_map (fun p => match snd p with
                     | Some (enc, _) => bencString (ef_tag (fst p)) ++ enc
                     | None => []
                     end) l.

Definition applyAll (l : list fieldPlan) (cur : list data) : list data :=
  fold_left (fun c p => match snd p with
                        | Some (_, y) => setNth c (ef_i (fst p)) y
                        | None => c
                        end) l cur.

(** A field of a plain struct and its value: how the encoder and the decoder
    treat it. *)
Definition planned (h : Hooks) (fs : list StructField) (ds : list data)
    (ef : encodeStructField) (o : option (bytes * data)) : Prop :=
  exists f x,
    nth_error fs (ef_i ef) = Some f /\ nth_error ds (ef_i ef) = Some x /\
    encodable f = true /\ ef_tag ef = wireKey f /\
    match o with
    | None => ef_omitEmpty ef = true /\ isEmptyValue h false (Typ f) x = Some true /\
              x = zero h (Typ f)
    | Some (enc, y) =>
        (ef_omitEmpty ef = false \/ isEmptyValue h false (Typ f) x = Some false) /\
        Marshal h (Some (Typ f, x)) = Ret (inl enc) /\
        decodesTo h (Typ f) enc y /\ y = canon x
    end.

(** [struct{N int `bencode:"n,omitempty"`; M map[string]string; P *uint8 `bencode:"p"`}]
    and a value of it. *)
Definition sampleFields : list StructField :=
  [ mkField (B "N") [] false (B "n,omitempty") (Int 64);
    mkField (B "M") [] false [] (Map String_ String_);
    mkField (B "P") [] false (B "p") (Ptr (Uint 8)) ].

Definition sampleValue : data :=
  DStruct [ DInt 0;
            DMap (Some [(B "b", DString (B "x")); (B "a", DString (B "y"))]);
            DPtr (Some (DUint 200)) ].

(** A program with one self-marshalling type, whose hooks keep the raw bytes. *)
Definition rawHooks : Hooks :=
  mkHooks (fun _ => []) (fun _ _ _ => None) (fun _ => false)
    (fun _ d => match d with
                | DOpaque p => Returned (p, None)
                | _ => Returned ([], Some (ErrHook 1))
                end)
    (fun _ _ b => (Returned None, DOpaque b)).

(** [marshalerEncoder]: what [Marshal] does with a type that has the hook. *)
Definition hookResult (c : called (bytes * option Error)) : outcome (bytes + Error) :=
  match c with
  | Returned (b, None) => Ret (inl b)
  | Returned (_, Some err) => Ret (inr err)
  | PanickedErr err => PanicErr err
  | Panicked => PanicOther
  end.

(** An entry of a dict that the decoder stores in a struct: its key, the
    field that [getStructFieldForKey] finds for the key, the bytes of its
    value and the value decoded from them. *)
Record fieldEntry := mkFieldEntry {
  fe_key : bytes;
  fe_field : structField;
  fe_enc : bytes;
  fe_value : data
}.

Definition entriesBody (es : list fieldEntry) : bytes :=
  dictBody (map (fun e => (fe_key e, fe_enc e)) es).

Definition storeAll (es : list fieldEntry) (cur : list data) : list data :=
  fold_left (fun c e => setNth c (sf_index (fe_field e)) (fe_value e)) es cur.

(** The entry names an exported field of [fs] that still holds its zero
    value in [cur], and its bytes decode into that field. *)
Definition storable (h : Hooks) (fs : list StructField) (cur : list data)
    (e : fieldEntry) : Prop :=
  len (fe_key e) < 2 ^ 63 /\
  getStructFieldForKey fs (fe_key e) = Some (fe_field e) /\
  PkgPath (sf_r (fe_field e)) = [] /\
  nth_error cur (sf_index (fe_field e)) = Some (zero h (Typ (sf_r (fe_field e)))) /\
  decodesTo h (Typ (sf_r (fe_field e))) (fe_enc e) (fe_value e).

(** The entry [3:fooi1e] for the field of [fooFields]. *)
Definition fooEntry : fieldEntry :=
  mkFieldEntry (B "foo")
    (mkStructField (mkField (B "Foo") [] false (B "foo") (Int 64)) 0 (parseTag (B "foo")))
    (B "i1e") (DInt 1).

(** * Properties *)

(** ** Byte order *)

Lemma byteval_inj (x y : ascii) : byteval x = byteval y -> x = y.
Proof.
  unfold byteval. intros H. apply N2Z.inj in H.
  rewrite <- (ascii_N_embedding x), <- (ascii_N_embedding y). now rewrite H.
Qed.

Lemma bytes_ltb_irrefl (a : bytes) : bytes_ltb a a = false.
Proof.
  induction a as [|x a IH]; simpl; auto.
  rewrite Z.ltb_irrefl. exact IH.
Qed.

Lemma bytes_ltb_trans (a b c : bytes) :
  bytes_ltb a b = true -> bytes_ltb b c = true -> bytes_ltb a c = true.
Proof.
  revert b c. induction a as [|x a IH]; intros [|y b] [|z c]; simpl; try congruence.
  destruct (Z.ltb_spec (byteval x) (byteval y)), (Z.ltb_spec (byteval y) (byteval x)),
           (Z.ltb_spec (byteval y) (byteval z)), (Z.ltb_spec (byteval z) (byteval y)),
           (Z.ltb_spec (byteval x) (byteval z)), (Z.ltb_spec (byteval z) (byteval x));
    try congruence; try lia.
  apply IH.
Qed.

Lemma bytes_ltb_total (a b : bytes) :
  bytes_ltb a b = false -> bytes_ltb b a = false -> a = b.
Proof.
  revert b. induction a as [|x a IH]; intros [|y b]; simpl; try congruence.
  destruct (Z.ltb_spec (byteval x) (byteval y)), (Z.ltb_spec (byteval y) (byteval x));
    try congruence; try lia.
  intros Hab Hba. f_equal.
  - apply byteval_inj. lia.
  - now apply IH.
Qed.

Lemma bytes_ltb_asym (a b : bytes) : bytes_ltb a b = true -> bytes_ltb b a = false.
Proof.
  intros H. destruct (bytes_ltb b a) eqn:E; auto.
  pose proof (bytes_ltb_trans _ _ _ H E) as T. now rewrite bytes_ltb_irrefl in T.
Qed.

(** [a <= b] and [b <= c] give [a <= c]. *)
Lemma bytes_le_trans (a b c : bytes) :
  bytes_ltb b a = false -> bytes_ltb c b = false -> bytes_ltb c a = false.
Proof.
  intros Hab Hbc. destruct (bytes_ltb c a) eqn:E; auto.
  destruct (bytes_ltb a b) eqn:E1.
  - pose proof (bytes_ltb_trans _ _ _ E E1). congruence.
  - assert (a = b) by now apply bytes_ltb_total. subst. congruence.
Qed.

Lemma bytes_eqb_eq (a b : bytes) : bytes_eqb a b = true <-> a = b.
Proof. unfold bytes_eqb. destruct (list_eq_dec ascii_dec a b); split; congruence. Qed.

Lemma bytes_eqb_refl (a : bytes) : bytes_eqb a a = true.
Proof. now apply bytes_eqb_eq. Qed.

Lemma bytes_eqb_neq (a b : bytes) : bytes_eqb a b = false <-> a <> b.
Proof. unfold bytes_eqb. destruct (list_eq_dec ascii_dec a b); split; congruence. Qed.

(** ** [sort.Sort] returns a sorted permutation *)

Section SortProperties.
Context {A : Type} (less : A -> A -> bool).
Hypothesis less_asym : forall a b, less a b = true -> less b a = false.
Hypothesis le_trans : forall a b c,
  less b a = false -> less c b = false -> less c a = false.

Lemma insertDown_perm (x : A) (done : list A) :
  Permutation (insertDown less x done) (x :: done).
Proof.
  induction done as [|y done IH]; simpl; auto.
  destruct (less x y); auto.
  rewrite IH. apply perm_swap.
Qed.

Lemma insertDown_sorted (x : A) (done : list A) :
  StronglySorted (fun a b => less a b = false) done -> StronglySorted (fun a b => less a b = false) (insertDown less x done).
Proof.
  induction done as [|y done IH]; simpl; intros HS.
  - repeat constructor.
  - inversion HS as [|? ? HS' HF]; subst.
    destruct (less x y) eqn:E.
    + constructor; auto.
      rewrite Forall_forall in *. intros z Hz.
      apply (Permutation_in _ (insertDown_perm x done)) in Hz.
      destruct Hz as [->|Hz]; [now apply less_asym | now apply HF].
    + constructor; auto. constructor; auto.
      rewrite Forall_forall in *. intros z Hz.
      apply (le_trans z y x); [apply HF, Hz | exact E].
Qed.

Lemma insertionLoop_perm (todo done : list A) :
  Permutation (insertionLoop less todo done) (todo ++ done).
Proof.
  revert done. induction todo as [|x todo IH]; intros done; simpl.
  - symmetry. apply Permutation_rev.
  - rewrite IH, insertDown_perm. symmetry. apply Permutation_middle.
Qed.

Lemma StronglySorted_rev (l : list A) :
  StronglySorted (fun a b => less a b = false) l -> StronglySorted (fun a b => less b a = false) (rev l).
Proof.
  induction 1 as [|a l HS IH HF]; simpl; [constructor|].
  clear HS. revert IH. generalize (rev_involutive l).
  assert (Hin : forall z, In z (rev l) -> less a z = false).
  { intros z Hz. apply in_rev in Hz. rewrite Forall_forall in HF. now apply HF. }
  clear HF. intros _. induction (rev l) as [|b r IHr]; simpl; intros HS.
  - repeat constructor.
  - inversion HS as [|? ? HS' HF']; subst. constructor.
    + apply IHr; auto. intros z Hz. apply Hin. now right.
    + apply Forall_app. split; auto. constructor; auto. apply Hin. now left.
Qed.

Lemma insertionLoop_sorted (todo done : list A) :
  StronglySorted (fun a b => less a b = false) done -> StronglySorted (fun a b => less b a = false) (insertionLoop less todo done).
Proof.
  revert done. induction todo as [|x todo IH]; intros done HS; simpl.
  - now apply StronglySorted_rev.
  - apply IH. now apply insertDown_sorted.
Qed.

Lemma sortSort_perm (l : list A) : Permutation (sortSort less l) l.
Proof. unfold sortSort. rewrite insertionLoop_perm. now rewrite app_nil_r. Qed.

Lemma sortSort_sorted (l : list A) : StronglySorted (fun a b => less b a = false) (sortSort less l).
Proof. apply insertionLoop_sorted. constructor. Qed.

End SortProperties.

(** ** The encoder only appends to its buffer *)

Lemma Write_app (e : encodeState) (a b : bytes) : Write (Write e a) b = Write e (a ++ b).
Proof. unfold Write. simpl. now rewrite app_assoc. Qed.

Lemma Write_nil (e : encodeState) : Write e [] = e.
Proof. destruct e. unfold Write. simpl. now rewrite app_nil_r. Qed.

(** [f] appends the same bytes and ends the same way from every buffer. *)
Definition frames (f : encodeState -> eres) : Prop :=
  forall e o e', f e = (o, e') ->
    exists out, e' = Write e out /\ forall e2, f e2 = (o, Write e2 out).

Ltac frame_now :=
  unfold WriteString; rewrite ?Write_app;
  first [ eexists; split; [reflexivity | intros; rewrite ?Write_app; reflexivity]
        | exists []; split; [now rewrite Write_nil | intros; now rewrite Write_nil] ].

Ltac frame_inv H := inversion H; subst; clear H; frame_now.

Lemma ret_frames (a : bytes) : frames (fun e => (Ret None, Write e a)).
Proof. intros e o e' H. frame_inv H. Qed.

Lemma stop_frames (o : outcome (option Error)) : frames (fun e => (o, e)).
Proof. intros e o' e' H. frame_inv H. Qed.

Lemma pre_frames (f : encodeState -> eres) (a : bytes) :
  frames f -> frames (fun e => f (Write e a)).
Proof.
  intros Hf e o e' H. destruct (Hf _ _ _ H) as (out & -> & Hout).
  rewrite Write_app. eexists. split; [reflexivity|]. intros e2.
  now rewrite Hout, Write_app.
Qed.

Lemma bind_frames (f g : encodeState -> eres) :
  frames f -> frames g ->
  frames (fun e => match f e with
                   | (Ret None, e1) => g e1
                   | r => r
                   end).
Proof.
  intros Hf Hg e o e' H. destruct (f e) as [o1 e1] eqn:E1.
  destruct (Hf _ _ _ E1) as (out1 & -> & Hout1).
  destruct o1 as [[err|]| | |];
    try (inversion H; subst; exists out1; split; [reflexivity|];
         intros e2; now rewrite Hout1).
  destruct (Hg _ _ _ H) as (out & -> & Hout).
  rewrite Write_app. eexists. split; [reflexivity|]. intros e2.
  now rewrite Hout1, Hout, Write_app.
Qed.

Section Frames.
Variable h : Hooks.

Lemma marshalerEncoder_frames t d : frames (fun e => marshalerEncoder h e t d).
Proof.
  intros e o e' H. unfold marshalerEncoder in *.
  destruct t as [| | | | | | | | | |[]| | | |]; try (frame_inv H).
  - destruct d as [| | | | | | | | |[]| | |]; try (frame_inv H).
    destruct (MarshalBencode h id _) as [[b []]| |]; frame_inv H.
  - destruct (hookOnPtr h id); [frame_inv H|].
    destruct (MarshalBencode h id d) as [[b []]| |]; frame_inv H.
Qed.

Lemma stringEncoder_frames t d : frames (fun e => stringEncoder e t d).
Proof. intros e o e' H. unfold stringEncoder in *. destruct d; frame_inv H. Qed.

Section Rec.
Variable rv : encodeState -> Value -> eres.
Hypothesis rv_frames : forall v, frames (fun e => rv e v).

Lemma structEncoderLoop_frames efs fs ds :
  frames (structEncoderLoop h rv efs fs ds).
Proof.
  induction efs as [|ef efs IH].
  - apply (ret_frames (B "e")).
  - intros e o e'. simpl.
    destruct (nth_error fs (ef_i ef)) as [f|]; [|apply (stop_frames PanicOther)].
    destruct (nth_error ds (ef_i ef)) as [x|]; [|apply (stop_frames PanicOther)].
    destruct (if ef_omitEmpty ef then _ else _) as [[]|];
      [apply IH| |apply (stop_frames PanicOther)].
    revert e o e'. unfold WriteString.
    apply (pre_frames
             (fun e => match rv (Write e (":"%char :: ef_tag ef)) (Some (Typ f, x)) with
                       | (Ret None, e1) => structEncoderLoop h rv efs fs ds e1
                       | r => r
                       end)).
    apply (bind_frames (fun e => rv (Write e (":"%char :: ef_tag ef)) (Some (Typ f, x)))); auto.
    apply (pre_frames (fun e => rv e (Some (Typ f, x)))). apply rv_frames.
Qed.

Lemma mapEncoderLoop_frames sv kt et m : frames (mapEncoderLoop rv sv kt et m).
Proof.
  induction sv as [|key sv IH].
  - apply (ret_frames (B "e")).
  - simpl.
    apply (bind_frames (fun e => stringEncoder e kt (DString key))
             (fun e => match rv e (option_map (pair et) (mapaccess m key)) with
                       | (Ret None, e1) => mapEncoderLoop rv sv kt et m e1
                       | r => r
                       end)).
    + apply stringEncoder_frames.
    + apply (bind_frames (fun e => rv e _)); auto.
Qed.

Lemma arrayEncoderLoop_frames et a : frames (arrayEncoderLoop rv et a).
Proof.
  induction a as [|x a IH].
  - apply (ret_frames (B "e")).
  - simpl. apply (bind_frames (fun e => rv e _)); auto.
Qed.

Lemma newArrayEncoder_frames t d : frames (fun e => newArrayEncoder rv e t d).
Proof.
  unfold newArrayEncoder.
  destruct t; try apply (stop_frames (PanicErr ErrReflectValue)).
  - destruct d as [| | | | | | |[]| | | | |];
      try apply (stop_frames (PanicErr ErrReflectValue)).
    apply (pre_frames (arrayEncoderLoop rv t l)), arrayEncoderLoop_frames.
  - destruct d; try apply (stop_frames (PanicErr ErrReflectValue)).
    apply (pre_frames (arrayEncoderLoop rv t a)), arrayEncoderLoop_frames.
Qed.

Lemma typeEncoder_frames t t' d : frames (fun e => typeEncoder h rv t e t' d).
Proof.
  unfold typeEncoder, newTypeEncoder.
  destruct (hasHook t); [apply marshalerEncoder_frames|].
  assert (HK : frames (fun e =>
            match kind t with
            | KBool => boolEncoder
            | KInt => intEncoder
            | KUint | KUintptr => uintEncoder
            | KString => stringEncoder
            | KInterface => interfaceEncoder rv
            | KStruct => newStructEncoder h rv
            | KMap => newMapEncoder rv
            | KSlice => newSliceEncoder rv
            | KArray => newArrayEncoder rv
            | KPtr => newPtrEncoder h rv
            | KOther | KFunc => unsupportedTypeEncoder
            end e t' d)).
  { destruct (kind t).
    - intros e o e' H. unfold boolEncoder in *. destruct d as [[]| | | | | | | | | | | |]; frame_inv H.
    - intros e o e' H. unfold intEncoder in *. destruct d; frame_inv H.
    - intros e o e' H. unfold uintEncoder, strconv.AppendUint in *. destruct d; frame_inv H.
    - intros e o e' H. unfold uintEncoder, strconv.AppendUint in *. destruct d; frame_inv H.
    - apply stringEncoder_frames.
    - unfold interfaceEncoder. destruct d; try apply (stop_frames (PanicErr ErrReflectValue)).
      apply rv_frames.
    - unfold newStructEncoder. destruct d; try apply (stop_frames (PanicErr ErrReflectValue)).
      apply (pre_frames (structEncoderLoop h rv _ _ _)), structEncoderLoop_frames.
    - unfold newMapEncoder.
      destruct t'; try apply (stop_frames (PanicErr ErrReflectValue)).
      destruct d as [| | | | | |[m|]| | | | | |];
        try apply (stop_frames (PanicErr ErrReflectValue));
        destruct (kind t'1);
        try apply (stop_frames (Ret (Some (ErrUnsupportedType (Map t'1 t'2))))).
      + apply (pre_frames (mapEncoderLoop rv _ _ _ _)), mapEncoderLoop_frames.
      + apply (ret_frames (B "de")).
    - unfold newSliceEncoder.
      destruct t'; try apply (stop_frames (PanicErr ErrReflectValue)).
      destruct d as [| | | | | | |s| | | | |];
        try apply (stop_frames (PanicErr ErrReflectValue)).
      destruct (isUint8 t').
      + intros e o e' H. frame_inv H.
      + destruct s; [apply newArrayEncoder_frames | apply (ret_frames (B "le"))].
    - apply newArrayEncoder_frames.
    - unfold newPtrEncoder.
      destruct t'; try apply (stop_frames (PanicErr ErrReflectValue)).
      destruct d as [| | | | | | | | |[]| | |];
        try apply (stop_frames (PanicErr ErrReflectValue)); apply rv_frames.
    - apply (stop_frames (Ret (Some (ErrUnsupportedType t')))).
    - apply (stop_frames (Ret (Some (ErrUnsupportedType t')))). }
  destruct t; try exact HK.
  intros e o e' H. unfold bigIntEncoder in *. destruct d; frame_inv H.
Qed.

End Rec.

Lemma reflectValue_frames fuel v : frames (fun e => reflectValue h fuel e v).
Proof.
  revert v. induction fuel as [|fuel IH]; intros [[t d]|]; simpl;
    try apply (stop_frames (Ret (Some ErrInvalidValueEncoder)));
    try apply (stop_frames OutOfFuel).
  apply typeEncoder_frames. exact IH.
Qed.

End Frames.

(** ** The shape of an encoded dict *)

Lemma dictBody_cons (k enc : bytes) (kvs : list (bytes * bytes)) :
  dictBody ((k, enc) :: kvs) = (bencString k ++ enc) ++ dictBody kvs.
Proof. reflexivity. Qed.

Section DictShape.
Variable h : Hooks.
Variable rv : encodeState -> Value -> eres.
Hypothesis rv_frames : forall v, frames (fun e => rv e v).

Lemma rv_from_empty e v o e' :
  rv e v = (o, e') ->
  exists out, e' = Write e out /\ rv newEncodeState v = (o, mkEncodeState out).
Proof.
  intros H. destruct (rv_frames _ _ _ _ H) as (out & -> & Hout).
  exists out. split; [reflexivity | apply Hout].
Qed.

Lemma structEncoderLoop_shape efs fs ds e e' :
  structEncoderLoop h rv efs fs ds e = (Ret None, e') ->
  let kept := filter (fun ef => negb (omits h fs ds ef)) efs in
  exists encs,
    Forall2 (fun ef enc => encodesWith rv (fieldOf fs ds ef) enc) kept encs /\
    e' = Write e (dictBody (combine (map ef_tag kept) encs) ++ B "e").
Proof.
  revert e. induction efs as [|ef efs IH]; intros e H; simpl in *.
  - exists []. split; [constructor|]. now inversion H.
  - unfold omits, isEmptyField, fieldOf in *.
    destruct (nth_error fs (ef_i ef)) as [f|] eqn:Ef; [|discriminate].
    destruct (nth_error ds (ef_i ef)) as [x|] eqn:Ex; [|discriminate].
    destruct (ef_omitEmpty ef); simpl in *.
    + destruct (isEmptyValue h _ (Typ f) x) as [[]|]; simpl; [now apply IH| |discriminate].
      destruct (rv _ _) as [o1 e1] eqn:E1.
      destruct (rv_from_empty _ _ _ _ E1) as (out1 & -> & Hout1).
      destruct o1 as [[]| | |]; try discriminate.
      destruct (IH _ H) as (encs & HF & ->).
      exists (out1 :: encs). split.
      * constructor; auto. cbv beta. unfold fieldOf, encodesWith. now rewrite Ef, Ex.
      * unfold WriteString. rewrite !Write_app. simpl combine.
        rewrite dictBody_cons. unfold bencString. f_equal.
        now rewrite <- !app_assoc.
    + destruct (rv _ _) as [o1 e1] eqn:E1.
      destruct (rv_from_empty _ _ _ _ E1) as (out1 & -> & Hout1).
      destruct o1 as [[]| | |]; try discriminate.
      destruct (IH _ H) as (encs & HF & ->).
      exists (out1 :: encs). split.
      * constructor; auto. cbv beta. unfold fieldOf, encodesWith. now rewrite Ef, Ex.
      * unfold WriteString. rewrite !Write_app. simpl combine.
        rewrite dictBody_cons. unfold bencString. f_equal.
        now rewrite <- !app_assoc.
Qed.

Lemma mapEncoderLoop_shape sv kt et m e e' :
  mapEncoderLoop rv sv kt et m e = (Ret None, e') ->
  exists encs,
    Forall2 (fun k enc => encodesWith rv (option_map (pair et) (mapaccess m k)) enc) sv encs /\
    e' = Write e (dictBody (combine sv encs) ++ B "e").
Proof.
  revert e. induction sv as [|k sv IH]; intros e H; simpl in *.
  - exists []. split; [constructor|]. now inversion H.
  - destruct (rv _ _) as [o1 e1] eqn:E1.
    destruct (rv_from_empty _ _ _ _ E1) as (out1 & -> & Hout1).
    destruct o1 as [[]| | |]; try discriminate.
    destruct (IH _ H) as (encs & HF & ->).
    exists (out1 :: encs). split.
    + constructor; auto.
    + unfold WriteString. rewrite !Write_app. simpl combine.
      rewrite dictBody_cons. unfold bencString. f_equal.
      now rewrite <- !app_assoc.
Qed.

End DictShape.

(** ** Sorted keys *)

Lemma StronglySorted_filter {A : Type} (R : A -> A -> Prop) (p : A -> bool) (l : list A) :
  StronglySorted R l -> StronglySorted R (filter p l).
Proof.
  induction 1 as [|a l HS IH HF]; simpl; [constructor|].
  destruct (p a); auto. constructor; auto.
  rewrite Forall_forall in *. intros x Hx. apply filter_In in Hx. now apply HF.
Qed.

Lemma StronglySorted_map {A B : Type} (R : B -> B -> Prop) (f : A -> B) (l : list A) :
  StronglySorted (fun a b => R (f a) (f b)) l -> StronglySorted R (map f l).
Proof.
  induction 1 as [|a l HS IH HF]; simpl; constructor; auto.
  rewrite Forall_forall in *. intros y Hy. apply in_map_iff in Hy.
  destruct Hy as (x & <- & Hx). now apply HF.
Qed.

Lemma sorted_le_strict (l : list bytes) :
  StronglySorted bytes_le l -> NoDup l -> StronglySorted bytes_lt l.
Proof.
  induction 1 as [|a l HS IH HF]; intros ND; constructor; inversion ND; subst; auto.
  rewrite Forall_forall in *. intros b Hb. unfold bytes_lt.
  destruct (bytes_ltb a b) eqn:E; auto.
  assert (a = b) by (apply bytes_ltb_total; [exact E | now apply HF]).
  subst. contradiction.
Qed.

Lemma sorted_perm_unique (l1 l2 : list bytes) :
  StronglySorted bytes_lt l1 -> StronglySorted bytes_lt l2 ->
  Permutation l1 l2 -> l1 = l2.
Proof.
  intros H1. revert l2. induction H1 as [|a l1 HS1 IH HF1]; intros l2 H2 HP.
  - now apply Permutation_nil in HP.
  - destruct H2 as [|b l2 HS2 HF2].
    + symmetry in HP. now apply Permutation_nil in HP.
    + assert (a = b).
      { assert (Ha : In a (b :: l2)) by (apply (Permutation_in _ HP); now left).
        assert (Hb : In b (a :: l1)) by (apply (Permutation_in _ (Permutation_sym HP)); now left).
        destruct Ha as [->|Ha]; auto. destruct Hb as [->|Hb]; auto.
        rewrite Forall_forall in *. pose proof (HF1 _ Hb) as X. pose proof (HF2 _ Ha) as Y.
        unfold bytes_lt in *. apply bytes_ltb_asym in X. congruence. }
      subst. f_equal. apply IH; auto. now apply Permutation_cons_inv in HP.
Qed.

Lemma sortSort_bytes_le (l : list bytes) : StronglySorted bytes_le (sortSort bytes_ltb l).
Proof.
  apply (sortSort_sorted bytes_ltb bytes_ltb_asym).
  intros a b c. apply bytes_le_trans.
Qed.

Lemma sortSort_bytes_perm (l : list bytes) : Permutation (sortSort bytes_ltb l) l.
Proof. apply sortSort_perm. Qed.

Lemma sortSort_bytes_lt (l : list bytes) :
  NoDup l -> StronglySorted bytes_lt (sortSort bytes_ltb l).
Proof.
  intros ND. apply sorted_le_strict; [apply sortSort_bytes_le|].
  apply (Permutation_NoDup (Permutation_sym (sortSort_bytes_perm l)) ND).
Qed.

Lemma cachedTypeFields_sorted (fs : list StructField) :
  StronglySorted bytes_le (map ef_tag (cachedTypeFields fs)).
Proof.
  apply StronglySorted_map. unfold cachedTypeFields, encodeFields.
  apply (sortSort_sorted Less).
  - intros a b. apply bytes_ltb_asym.
  - intros a b c. apply bytes_le_trans.
Qed.

Lemma emitted_sorted (h : Hooks) (fs : list StructField) (ds : list data) :
  StronglySorted bytes_le (map ef_tag (emitted h fs ds)).
Proof.
  apply StronglySorted_map. unfold emitted. apply StronglySorted_filter.
  unfold cachedTypeFields, encodeFields. apply (sortSort_sorted Less).
  - intros a b. apply bytes_ltb_asym.
  - intros a b c. apply bytes_le_trans.
Qed.

(** Dropping fields keeps their wire keys distinct. *)
Lemma kept_keys_NoDup (keep : encodeStructField -> bool) (efs : list encodeStructField) :
  NoDup (map ef_tag efs) -> NoDup (map ef_tag (filter keep efs)).
Proof.
  induction efs as [|ef efs IH]; cbn [filter map]; intros ND; [exact ND|].
  inversion ND as [|? ? Hnotin ND']; subst.
  destruct (keep ef); cbn [map]; [|now apply IH].
  constructor; [|now apply IH].
  intros Hin. apply Hnotin. apply in_map_iff in Hin.
  destruct Hin as (ef' & Etag & Hin). apply filter_In in Hin.
  apply in_map_iff. exists ef'. tauto.
Qed.

(** ** A Go map does not depend on its iteration order *)

Lemma mapaccess_perm {V : Type} (m m' : list (bytes * V)) (k : bytes) :
  NoDup (map fst m) -> Permutation m m' -> mapaccess m k = mapaccess m' k.
Proof.
  intros ND HP. induction HP as [|[k1 v1] m m' HP IH|[k1 v1] [k2 v2] m|m m' m'' HP1 IH1 HP2 IH2].
  - reflexivity.
  - simpl. inversion ND; subst. now rewrite IH.
  - simpl. inversion ND as [|? ? Hn ND']; subst.
    destruct (bytes_eqb k1 k) eqn:E1, (bytes_eqb k2 k) eqn:E2; auto.
    apply bytes_eqb_eq in E1, E2. subst. exfalso. apply Hn. now left.
  - rewrite IH1; auto. apply IH2.
    apply (Permutation_NoDup (Permutation_map fst HP1) ND).
Qed.

Lemma list_sum_perm (l l' : list nat) : Permutation l l' -> list_sum l = list_sum l'.
Proof. induction 1; simpl; lia. Qed.

Lemma mapEncoderLoop_ext rv sv kt et (m m' : list (bytes * data)) e :
  (forall k, mapaccess m k = mapaccess m' k) ->
  mapEncoderLoop rv sv kt et m e = mapEncoderLoop rv sv kt et m' e.
Proof.
  intros Hm. revert e. induction sv as [|k sv IH]; intros e; simpl; auto.
  rewrite Hm. destruct (rv _ _) as [[[]| | |] e1]; auto.
Qed.

(** ** [Marshal] of a struct and of a map *)

Lemma Marshal_struct h fs ds out :
  Marshal h (Some (Struct fs, DStruct ds)) = Ret (inl out) ->
  exists encs,
    Forall2 (fun ef enc => encodes h (fieldOf fs ds ef) enc) (emitted h fs ds) encs /\
    out = dictBytes (combine (map ef_tag (emitted h fs ds)) encs).
Proof.
  unfold Marshal, marshal. remember (vsize _) as n eqn:En. clear En.
  cbn [reflectValue]. unfold typeEncoder, newTypeEncoder. cbn [hasHook kind].
  unfold newStructEncoder. cbn [structFields].
  destruct (structEncoderLoop _ _ _ _ _ _) as [o e'] eqn:E.
  destruct o as [[]| | |]; try discriminate. intros H. inversion H; subst; clear H.
  apply structEncoderLoop_shape in E; [|apply reflectValue_frames].
  destruct E as (encs & HF & ->). exists encs. split.
  - eapply Forall2_impl; [|exact HF]. intros ef enc He. now exists n.
  - reflexivity.
Qed.

Lemma Marshal_map h kt et m out :
  Marshal h (Some (Map kt et, DMap (Some m))) = Ret (inl out) ->
  exists encs,
    Forall2 (fun k enc => encodes h (option_map (pair et) (mapaccess m k)) enc)
      (sortSort bytes_ltb (map fst m)) encs /\
    out = dictBytes (combine (sortSort bytes_ltb (map fst m)) encs).
Proof.
  unfold Marshal, marshal. remember (vsize _) as n eqn:En. clear En.
  cbn [reflectValue]. unfold typeEncoder, newTypeEncoder. cbn [hasHook kind].
  unfold newMapEncoder, unsupportedTypeEncoder.
  destruct (kind kt); try discriminate.
  destruct (mapEncoderLoop _ _ _ _ _ _) as [o e'] eqn:E.
  destruct o as [[]| | |]; try discriminate. intros H. inversion H; subst; clear H.
  apply mapEncoderLoop_shape in E; [|apply reflectValue_frames].
  destruct E as (encs & HF & ->). exists encs. split.
  - eapply Forall2_impl; [|exact HF]. intros ef enc He. now exists n.
  - reflexivity.
Qed.

Lemma Marshal_map_perm h kt et m m' :
  NoDup (map fst m) -> Permutation m m' ->
  Marshal h (Some (Map kt et, DMap (Some m))) =
  Marshal h (Some (Map kt et, DMap (Some m'))).
Proof.
  intros ND HP. unfold Marshal, marshal.
  assert (Hsize : vsize (Some (Map kt et, DMap (Some m))) =
                  vsize (Some (Map kt et, DMap (Some m')))).
  { simpl. f_equal. f_equal. apply list_sum_perm. now apply Permutation_map. }
  rewrite <- Hsize. remember (vsize _) as n eqn:En. clear En Hsize.
  cbn [reflectValue]. unfold typeEncoder, newTypeEncoder. cbn [hasHook kind].
  unfold newMapEncoder.
  assert (Hsv : sortSort bytes_ltb (map fst m) = sortSort bytes_ltb (map fst m')).
  { assert (ND' : NoDup (map fst m'))
      by (apply (Permutation_NoDup (Permutation_map fst HP) ND)).
    apply sorted_perm_unique; try now apply sortSort_bytes_lt.
    rewrite !sortSort_bytes_perm. now apply Permutation_map. }
  rewrite <- Hsv.
  destruct (kind kt); auto.
  now rewrite (mapEncoderLoop_ext _ _ _ _ m m' _ (fun k => mapaccess_perm m m' k ND HP)).
Qed.

Lemma shared_key_not_strict : ~ StronglySorted bytes_lt [B "x"; B "x"].
Proof.
  intros H. inversion H as [|? ? _ HF]; subst. inversion HF as [|? ? Hlt _]; subst.
  unfold bytes_lt in Hlt. now rewrite bytes_ltb_irrefl in Hlt.
Qed.

(** C2, as the code has it: [Marshal] of a map with string keys does not
    depend on the iteration order of the map and writes a dict whose keys are
    the keys of the map in strictly ascending byte order; [Marshal] of a
    struct writes a dict whose keys are the wire keys of the emitted fields in
    ascending byte order, strictly ascending when no two fields share a wire
    key; and [Marshal] of the map [{"a":1,"b":2}] is ["d1:ai1e1:bi2ee"]
    whatever the order in which the map yields its keys. *)
Theorem C2_canonical_dict (h : Hooks) :
  (forall kt et m m',
      NoDup (map fst m) -> Permutation m m' ->
      Marshal h (Some (Map kt et, DMap (Some m))) =
      Marshal h (Some (Map kt et, DMap (Some m')))) /\
  (forall kt et m out,
      NoDup (map fst m) ->
      Marshal h (Some (Map kt et, DMap (Some m))) = Ret (inl out) ->
      exists keys encs,
        out = dictBytes (combine keys encs) /\
        List.length encs = List.length keys /\
        Permutation keys (map fst m) /\
        StronglySorted bytes_lt keys /\
        Forall2 (fun k enc => encodes h (option_map (pair et) (mapaccess m k)) enc)
          keys encs) /\
  (forall fs ds out,
      Marshal h (Some (Struct fs, DStruct ds)) = Ret (inl out) ->
      exists encs,
        out = dictBytes (combine (map ef_tag (emitted h fs ds)) encs) /\
        List.length encs = List.length (emitted h fs ds) /\
        Forall2 (fun ef enc => encodes h (fieldOf fs ds ef) enc) (emitted h fs ds) encs /\
        StronglySorted bytes_le (map ef_tag (emitted h fs ds)) /\
        (NoDup (map ef_tag (cachedTypeFields fs)) ->
         StronglySorted bytes_lt (map ef_tag (emitted h fs ds)))) /\
  Marshal h (Some (Map String_ (Int 64), DMap (Some [(B "a", DInt 1); (B "b", DInt 2)])))
    = Ret (inl (B "d1:ai1e1:bi2ee")) /\
  Marshal h (Some (Map String_ (Int 64), DMap (Some [(B "b", DInt 2); (B "a", DInt 1)])))
    = Ret (inl (B "d1:ai1e1:bi2ee")).
Proof.
  split; [|split; [|split; [|split]]].
  - intros. now apply Marshal_map_perm.
  - intros kt et m out ND H. apply Marshal_map in H. destruct H as (encs & HF & ->).
    exists (sortSort bytes_ltb (map fst m)), encs. repeat split; auto.
    + symmetry. apply (Forall2_length HF).
    + apply sortSort_bytes_perm.
    + now apply sortSort_bytes_lt.
  - intros fs ds out H. apply Marshal_struct in H. destruct H as (encs & HF & ->).
    exists encs. repeat split; auto.
    + symmetry. apply (Forall2_length HF).
    + apply emitted_sorted.
    + intros ND. apply sorted_le_strict; [apply emitted_sorted|].
      unfold emitted. now apply kept_keys_NoDup.
  - reflexivity.
  - reflexivity.
Qed.

(** The claim C2 as stated fails on a struct whose fields share a wire key:
    the dict that [Marshal] writes repeats the key. *)
Lemma C2_counterexample :
  Marshal noHooks (Some (Struct sharedKeyFields, DStruct [DInt 0; DInt 7]))
    = Ret (inl (dictBytes [(B "x", B "i0e"); (B "x", B "i7e")])) /\
  dictBytes [(B "x", B "i0e"); (B "x", B "i7e")] = B "d1:xi0e1:xi7ee" /\
  map ef_tag (emitted noHooks sharedKeyFields [DInt 0; DInt 7]) = [B "x"; B "x"] /\
  ~ StronglySorted bytes_lt [B "x"; B "x"].
Proof.
  split; [reflexivity|]. split; [reflexivity|]. split; [reflexivity|].
  exact shared_key_not_strict.
Qed.

Lemma C2_witness :
  NoDup (map fst [(B "b", DInt 2); (B "a", DInt 1)]) /\
  Permutation [(B "b", DInt 2); (B "a", DInt 1)] [(B "a", DInt 1); (B "b", DInt 2)] /\
  Marshal noHooks (Some (Map String_ (Int 64), DMap (Some [(B "b", DInt 2); (B "a", DInt 1)]))) =
  Marshal noHooks (Some (Map String_ (Int 64), DMap (Some [(B "a", DInt 1); (B "b", DInt 2)]))).
Proof.
  assert (ND : NoDup (map fst [(B "b", DInt 2); (B "a", DInt 1)])).
  { simpl. constructor.
    - intros [E|[]]. discriminate E.
    - constructor; [intros []|constructor]. }
  assert (HP : Permutation [(B "b", DInt 2); (B "a", DInt 1)]
                           [(B "a", DInt 1); (B "b", DInt 2)]) by apply perm_swap.
  split; [exact ND|]. split; [exact HP|].
  exact (proj1 (C2_canonical_dict noHooks) String_ (Int 64) _ _ ND HP).
Defined.




(** ** The decoding-side field index *)

Lemma mapaccess_mapassign {V : Type} (m : list (bytes * V)) (k k' : bytes) (v : V) :
  mapaccess (mapassign m k v) k' = if bytes_eqb k k' then Some v else mapaccess m k'.
Proof.
  induction m as [|[k0 v0] m IH]; simpl.
  - reflexivity.
  - destruct (bytes_eqb k0 k) eqn:E0; simpl.
    + apply bytes_eqb_eq in E0. subst. destruct (bytes_eqb k k'); reflexivity.
    + rewrite IH. destruct (bytes_eqb k0 k') eqn:E1; auto.
      destruct (bytes_eqb k k') eqn:E2; auto.
      apply bytes_eqb_eq in E1, E2. subst. now rewrite bytes_eqb_refl in E0.
Qed.

Lemma decodeFieldsLoop_app i fs1 fs2 m :
  decodeFieldsLoop i (fs1 ++ fs2) m =
  decodeFieldsLoop (i + List.length fs1) fs2 (decodeFieldsLoop i fs1 m).
Proof.
  revert i m. induction fs1 as [|f fs1 IH]; intros i m; simpl.
  - now rewrite Nat.add_0_r.
  - replace (i + S (List.length fs1))%nat with (S i + List.length fs1)%nat by lia.
    destruct (Anonymous f); [apply IH|].
    destruct (bytes_eqb (Tag f) _); apply IH.
Qed.

Lemma decodeFieldsLoop_other i fs m key :
  (forall g, In g fs -> decodeKey g <> Some key) ->
  mapaccess (decodeFieldsLoop i fs m) key = mapaccess m key.
Proof.
  revert i m. induction fs as [|f fs IH]; intros i m Hno; simpl; auto.
  assert (Hf : decodeKey f <> Some key) by (apply Hno; now left).
  assert (Hfs : forall g, In g fs -> decodeKey g <> Some key)
    by (intros g Hg; apply Hno; now right).
  unfold decodeKey in Hf.
  destruct (Anonymous f); [now apply IH|].
  destruct (bytes_eqb (Tag f) _); [now apply IH|].
  rewrite IH; auto. rewrite mapaccess_mapassign.
  destruct (bytes_eqb _ key) eqn:E; auto.
  apply bytes_eqb_eq in E. exfalso. apply Hf. now rewrite E.
Qed.

(** C5, as the code has it: among the fields that [decodeFields] files under
    one wire key, the lookup returns the one declared last; a wire key that no
    field is filed under is not found. *)
Theorem C5_last_declared_wins (fs1 fs2 : list StructField) (f : StructField) (key : bytes) :
  decodeKey f = Some key ->
  (forall g, In g fs2 -> decodeKey g <> Some key) ->
  getStructFieldForKey (fs1 ++ f :: fs2) key =
    Some (mkStructField f (List.length fs1) (parseTag (Tag f))).
Proof.
  intros Hf Hno. unfold getStructFieldForKey, decodeFields.
  rewrite decodeFieldsLoop_app. simpl.
  unfold decodeKey in Hf.
  destruct (Anonymous f); [discriminate|].
  destruct (bytes_eqb (Tag f) _); [discriminate|].
  rewrite decodeFieldsLoop_other; auto.
  rewrite mapaccess_mapassign. inversion Hf as [Hk]. rewrite Hk.
  now rewrite bytes_eqb_refl.
Qed.

Lemma getStructFieldForKey_unknown (fs : list StructField) (key : bytes) :
  (forall g, In g fs -> decodeKey g <> Some key) ->
  getStructFieldForKey fs key = None.
Proof.
  intros Hno. unfold getStructFieldForKey, decodeFields.
  now rewrite decodeFieldsLoop_other.
Qed.

(** The claim C5 as stated fails: with two fields filed under the wire key
    [x] the lookup returns the second one, [B] at index 1, not the first. *)
Lemma C5_counterexample :
  option_map sf_index (getStructFieldForKey sharedKeyFields (B "x")) = Some 1%nat /\
  option_map (fun sf => Name (sf_r sf)) (getStructFieldForKey sharedKeyFields (B "x"))
    = Some (B "B") /\
  option_map sf_index (getStructFieldForKey sharedKeyFields (B "x")) <> Some 0%nat.
Proof. split; [reflexivity|]. split; [reflexivity|]. discriminate. Qed.

Lemma C5_witness :
  getStructFieldForKey sharedKeyFields (B "x") =
    Some (mkStructField (mkField (B "B") [] false (B "x") (Int 64)) 1 (parseTag (B "x"))).
Proof.
  apply (C5_last_declared_wins
           [mkField (B "A") [] false (B "x") (Int 64)] []
           (mkField (B "B") [] false (B "x") (Int 64)) (B "x")).
  - reflexivity.
  - intros g [].
Defined.

(** ** [strconv]: parsing is exact, and inverts formatting *)

Lemma byteval_range (c : ascii) : 0 <= byteval c < 256.
Proof.
  unfold byteval. pose proof (N_ascii_bounded c). lia.
Qed.

Lemma byteval_digit (n : Z) : 0 <= n <= 9 -> byteval (strconv.digit n) = 48 + n.
Proof.
  intros Hn. unfold byteval, strconv.digit. rewrite N_ascii_embedding; lia.
Qed.

Lemma isDigit_spec (c : ascii) :
  strconv.isDigit c = true <-> 48 <= byteval c <= 57.
Proof.
  unfold strconv.isDigit. change (byteval "0"%char) with 48. change (byteval "9"%char) with 57.
  rewrite andb_true_iff, !Z.leb_le. tauto.
Qed.

Lemma isDigit_digit (n : Z) : 0 <= n <= 9 -> strconv.isDigit (strconv.digit n) = true.
Proof. intros Hn. apply isDigit_spec. rewrite byteval_digit; lia. Qed.

Lemma digitsValue_app (a b : bytes) (n : Z) :
  digitsValue (a ++ b) n =
  match digitsValue a n with
  | Some v => digitsValue b v
  | None => None
  end.
Proof.
  revert n. induction a as [|c a IH]; intros n; simpl; auto.
  destruct (strconv.isDigit c); auto.
Qed.

Lemma digitsValue_ge (s : bytes) (n v : Z) :
  0 <= n -> digitsValue s n = Some v -> n <= v.
Proof.
  revert n. induction s as [|c s IH]; intros n Hn; simpl.
  - intros H. inversion H. lia.
  - destruct (strconv.isDigit c) eqn:E; [|discriminate].
    apply isDigit_spec in E. change (byteval "0"%char) with 48.
    intros H. apply IH in H; lia.
Qed.

Lemma digitsValue_decimalOf_gen (s : bytes) (n : Z) :
  digitsValue s n =
  fold_left (fun acc c =>
               match acc, digitValue c with
               | Some a, Some d => Some (10 * a + d)
               | _, _ => None
               end) s (Some n).
Proof.
  revert n. induction s as [|c s IH]; intros n; [reflexivity|].
  cbn [digitsValue fold_left]. unfold digitValue at 2.
  change (byteval "0"%char) with 48.
  destruct (strconv.isDigit c).
  - rewrite IH. do 2 f_equal. lia.
  - clear IH. induction s as [|c' s IH']; cbn [fold_left]; auto.
Qed.

Lemma digitsValue_decimalOf (s : bytes) : digitsValue s 0 = decimalOf s.
Proof. apply digitsValue_decimalOf_gen. Qed.

(** The overflow tests of the [ParseUint] loop fire exactly when the value
    leaves 64 bits. *)
Lemma parseUintLoop_spec (s : bytes) (n : Z) :
  0 <= n < 2 ^ 64 ->
  match digitsValue s n with
  | Some v =>
      strconv.parseUintLoop s n = if v <? 2 ^ 64 then inr v else inl strconv.ErrRange
  | None => exists e, strconv.parseUintLoop s n = inl e
  end.
Proof.
  revert n. induction s as [|c s IH]; intros n Hn;
    cbn [digitsValue strconv.parseUintLoop].
  - destruct (Z.ltb_spec n (2 ^ 64)); [reflexivity|lia].
  - destruct (strconv.isDigit c) eqn:E; [|now exists strconv.ErrSyntax].
    apply isDigit_spec in E. cbv zeta.
    change (byteval "0"%char) with 48.
    change (strconv.maxUint64 / 10 + 1) with 1844674407370955162.
    change strconv.maxUint64 with 18446744073709551615.
    change (2 ^ 64) with 18446744073709551616 in *.
    destruct (Z.leb_spec 1844674407370955162 n) as [Hc|Hc].
    + destruct (digitsValue s _) as [v|] eqn:Ev; [|now exists strconv.ErrRange].
      apply digitsValue_ge in Ev; [|lia].
      destruct (Z.ltb_spec v 18446744073709551616); [lia|reflexivity].
    + destruct (Z.lt_ge_cases (n * 10 + (byteval c - 48)) 18446744073709551616) as [Hs|Hb].
      * rewrite Z.mod_small by lia.
        destruct (Z.ltb_spec (n * 10 + (byteval c - 48)) (n * 10)); [lia|].
        destruct (Z.ltb_spec 18446744073709551615 (n * 10 + (byteval c - 48))); [lia|].
        cbn [orb]. apply IH. lia.
      * assert (Hm : (n * 10 + (byteval c - 48)) mod 18446744073709551616
                     = n * 10 + (byteval c - 48) - 18446744073709551616).
        { symmetry. apply (Z.mod_unique _ _ 1); lia. }
        rewrite Hm.
        destruct (Z.ltb_spec (n * 10 + (byteval c - 48) - 18446744073709551616) (n * 10)); [|lia].
        cbn [orb].
        destruct (digitsValue s _) as [v|] eqn:Ev; [|now exists strconv.ErrRange].
        apply digitsValue_ge in Ev; [|lia].
        destruct (Z.ltb_spec v 18446744073709551616); [lia|reflexivity].
Qed.

(** [ParseUint] against the value of an unsigned payload. *)
Lemma ParseUint_spec (s : bytes) :
  match unsignedValue s with
  | Some v => 0 <= v /\
      strconv.ParseUint s = if v <? 2 ^ 64 then inr v else inl strconv.ErrRange
  | None => exists e, strconv.ParseUint s = inl e
  end.
Proof.
  unfold unsignedValue, strconv.ParseUint. destruct s as [|c s].
  - now exists strconv.ErrSyntax.
  - rewrite <- digitsValue_decimalOf.
    pose proof (parseUintLoop_spec (c :: s) 0) as H.
    destruct (digitsValue (c :: s) 0) as [v|] eqn:Ev.
    + split; [apply (digitsValue_ge _ _ _ (Z.le_refl 0) Ev)|]. apply H. lia.
    + apply H. lia.
Qed.

Lemma fitsInt_64 (bits n : Z) :
  0 < bits <= 64 -> fitsInt bits n = true -> fitsInt 64 n = true.
Proof.
  unfold fitsInt. rewrite !andb_true_iff, !Z.leb_le. intros Hb [H1 H2].
  assert (2 ^ (bits - 1) <= 2 ^ (64 - 1)) by (apply Z.pow_le_mono_r; lia).
  lia.
Qed.

Ltac zcases :=
  repeat match goal with
         | |- context [?a <=? ?b] => destruct (Z.leb_spec a b)
         | |- context [?a <? ?b] => destruct (Z.ltb_spec a b)
         end;
  cbn [andb orb negb]; try lia; try reflexivity.

(** [ParseInt] against the value of a signed payload. *)
Lemma ParseInt_spec (s : bytes) :
  match signedValue s with
  | Some n => strconv.ParseInt s = if fitsInt 64 n then inr n else inl strconv.ErrRange
  | None => exists e, strconv.ParseInt s = inl e
  end.
Proof.
  unfold signedValue, strconv.ParseInt. destruct s as [|c s].
  - now exists strconv.ErrSyntax.
  - unfold fitsInt. change (2 ^ (64 - 1)) with 9223372036854775808.
    change (2 ^ 63) with 9223372036854775808.
    destruct (Ascii.eqb c "-"%char) eqn:Em.
    + rewrite orb_true_r. cbv zeta.
      pose proof (ParseUint_spec s) as H.
      destruct (unsignedValue s) as [v|]; cbn [option_map].
      * destruct H as [Hv ->]. change (2 ^ 64) with 18446744073709551616.
        destruct (Z.ltb_spec v 18446744073709551616); cbn [negb andb]; zcases.
      * destruct H as [e ->]. destruct e; eauto.
    + cbv zeta. rewrite orb_false_r. cbn [negb andb].
      assert (Hgen : forall s1,
                 match unsignedValue s1 with
                 | Some n =>
                     match strconv.ParseUint s1 with
                     | inl strconv.ErrSyntax => inl strconv.ErrSyntax
                     | inl strconv.ErrRange => inl strconv.ErrRange
                     | inr un =>
                         if 9223372036854775808 <=? un then inl strconv.ErrRange else inr un
                     end =
                     if (- 9223372036854775808 <=? n) && (n <=? 9223372036854775808 - 1)
                     then inr n else inl strconv.ErrRange
                 | None =>
                     exists e,
                       match strconv.ParseUint s1 with
                       | inl strconv.ErrSyntax => inl strconv.ErrSyntax
                       | inl strconv.ErrRange => inl strconv.ErrRange
                       | inr un =>
                           if 9223372036854775808 <=? un then inl strconv.ErrRange else inr un
                       end = @inl _ Z e
                 end).
      { intros s1. pose proof (ParseUint_spec s1) as H.
        destruct (unsignedValue s1) as [v|].
        - destruct H as [Hv ->]. change (2 ^ 64) with 18446744073709551616.
          destruct (Z.ltb_spec v 18446744073709551616); zcases.
        - destruct H as [e ->]. destruct e; eauto. }
      destruct (Ascii.eqb c "+"%char); apply Hgen.
Qed.

Lemma formatBits_spec (fuel : nat) (u : Z) (acc : bytes) :
  (0 < fuel)%nat -> 0 <= u < 2 ^ Z.of_nat fuel ->
  exists ds, strconv.formatBits fuel u acc = ds ++ acc /\
             ds <> [] /\
             Forall (fun c => strconv.isDigit c = true) ds /\
             digitsValue ds 0 = Some u.
Proof.
  revert u acc. induction fuel as [|fuel IH]; intros u acc Hf Hu; [lia|].
  cbn [strconv.formatBits]. destruct (Z.ltb_spec u 10) as [Hlt|Hge].
  - exists [strconv.digit u]. repeat split.
    + discriminate.
    + constructor; [apply isDigit_digit; lia|constructor].
    + cbn [digitsValue]. rewrite isDigit_digit by lia.
      rewrite byteval_digit by lia. change (byteval "0"%char) with 48. f_equal. lia.
  - assert (Hdiv : 1 <= u / 10) by (apply Z.div_le_lower_bound; lia).
    assert (Hup : u / 10 < 2 ^ Z.of_nat fuel).
    { apply Z.div_lt_upper_bound; [lia|].
      replace (Z.of_nat (S fuel)) with (Z.of_nat fuel + 1) in Hu by lia.
      rewrite Z.pow_add_r in Hu by lia. change (2 ^ 1) with 2 in Hu.
      assert (0 < 2 ^ Z.of_nat fuel) by (apply Z.pow_pos_nonneg; lia). lia. }
    assert (Hfuel : (0 < fuel)%nat).
    { destruct fuel; [|lia]. change (2 ^ Z.of_nat 0) with 1 in Hup. lia. }
    destruct (IH (u / 10) (strconv.digit (u mod 10) :: acc) Hfuel) as (ds & -> & Hne & HF & HV);
      [lia|].
    pose proof (Z.mod_pos_bound u 10) as Hm.
    exists (ds ++ [strconv.digit (u mod 10)]). repeat split.
    + now rewrite <- app_assoc.
    + destruct ds; discriminate.
    + apply Forall_app. split; auto. constructor; [apply isDigit_digit; lia|constructor].
    + rewrite digitsValue_app, HV. cbn [digitsValue].
      rewrite isDigit_digit by lia. rewrite byteval_digit by lia.
      change (byteval "0"%char) with 48. f_equal.
      pose proof (Z.div_mod u 10). lia.
Qed.

Lemma FormatUint_spec (u : Z) :
  0 <= u ->
  exists c ds, strconv.FormatUint u = c :: ds /\
               Forall (fun c => strconv.isDigit c = true) (c :: ds) /\
               digitsValue (c :: ds) 0 = Some u.
Proof.
  intros Hu. unfold strconv.FormatUint.
  destruct (formatBits_spec (S (Z.to_nat (Z.log2 u))) u []) as (ds & E & Hne & HF & HV).
  - lia.
  - split; [lia|]. rewrite Nat2Z.inj_succ, Z2Nat.id by apply Z.log2_nonneg.
    destruct (Z.eq_dec u 0) as [->|Hnz]; [reflexivity|].
    apply Z.log2_spec. lia.
  - rewrite app_nil_r in E. destruct ds as [|c ds]; [congruence|].
    exists c, ds. auto.
Qed.

(** [ParseInt] reads back the length that [AppendInt] wrote. *)
Lemma ParseInt_FormatUint (u : Z) :
  0 <= u < 2 ^ 63 -> strconv.ParseInt (strconv.FormatUint u) = inr u.
Proof.
  intros Hu. destruct (FormatUint_spec u) as (c & ds & E & HF & HV); [lia|].
  pose proof (ParseInt_spec (strconv.FormatUint u)) as H. rewrite E in *.
  unfold signedValue in H.
  assert (Hc : strconv.isDigit c = true) by now inversion HF.
  apply isDigit_spec in Hc.
  assert (Em : Ascii.eqb c "-"%char = false).
  { apply Ascii.eqb_neq. intros ->. change (byteval "-"%char) with 45 in Hc. lia. }
  assert (Ep : Ascii.eqb c "+"%char = false).
  { apply Ascii.eqb_neq. intros ->. change (byteval "+"%char) with 43 in Hc. lia. }
  rewrite Em, Ep in H. unfold unsignedValue in H.
  rewrite <- digitsValue_decimalOf, HV in H. rewrite H.
  unfold fitsInt. change (2 ^ (64 - 1)) with 9223372036854775808.
  change (2 ^ 63) with 9223372036854775808 in Hu. zcases.
Qed.

(** ** The byte cursor *)

Lemma len_app (a b : bytes) : len (a ++ b) = len a + len b.
Proof. unfold len. rewrite length_app. lia. Qed.

Lemma readUntilLoop_stop (sep : ascii) (s rest buf : bytes) (off : Z) :
  ~ In sep s ->
  readUntilLoop sep (s ++ sep :: rest) buf off =
    (Ret tt, mkDecodeState (buf ++ s) rest (off + len s + 1)).
Proof.
  revert buf off. induction s as [|c s IH]; intros buf off Hno; cbn [readUntilLoop app].
  - rewrite Ascii.eqb_refl, app_nil_r. unfold len. cbn [List.length]. do 2 f_equal. lia.
  - destruct (Ascii.eqb_spec c sep) as [->|Hne]; [exfalso; apply Hno; now left|].
    rewrite IH by (intros Hin; apply Hno; now right).
    rewrite <- app_assoc. cbn [app]. do 2 f_equal. unfold len. cbn [List.length]. lia.
Qed.

Lemma readInt_payload (payload rest buf : bytes) (off : Z) :
  ~ In "e"%char payload ->
  exists d', readInt (mkDecodeState buf (payload ++ "e"%char :: rest) off) = (Ret (buf ++ payload), d')
             /\ Scanner d' = rest /\ Buffer d' = [] /\ Offset d' = off + len payload + 1.
Proof.
  intros Hno. unfold readInt, readUntil. cbn [Scanner Buffer Offset].
  rewrite readUntilLoop_stop by exact Hno. cbn [Buffer].
  destruct (buf ++ payload) eqn:E.
  - eexists. split; [reflexivity|]. cbn. auto.
  - eexists. split; [reflexivity|]. cbn. auto.
Qed.

(** ** Integers *)

Lemma OverflowInt_fits (bits n : Z) : OverflowInt bits n = negb (fitsInt bits n).
Proof. unfold OverflowInt, fitsInt. f_equal. f_equal. zcases. Qed.

Lemma OverflowUint_fits (bits n : Z) : 0 <= n -> OverflowUint bits n = negb (fitsUint bits n).
Proof. intros Hn. unfold OverflowUint, fitsUint. f_equal. zcases. Qed.

Lemma fitsUint_64 (bits n : Z) :
  0 < bits <= 64 -> fitsUint bits n = true -> n < 2 ^ 64.
Proof.
  unfold fitsUint. rewrite !andb_true_iff, !Z.leb_le. intros Hb [H1 H2].
  assert (2 ^ bits <= 2 ^ 64) by (apply Z.pow_le_mono_r; lia). lia.
Qed.

Lemma parseInteger_int (bits : Z) (payload rest : bytes) (x : data) (off : Z) :
  0 < bits <= 64 -> ~ In "e"%char payload ->
  exists d',
    parseInteger (mkDecodeState [] (payload ++ "e"%char :: rest) off) (Int bits) x =
      match signedValue payload with
      | Some n =>
          if fitsInt bits n then (Ret None, DInt n, d')
          else (Ret (Some ErrCannotUnmarshal), x, d')
      | None => (Ret (Some ErrCannotUnmarshal), x, d')
      end.
Proof.
  intros Hb Hno. unfold parseInteger.
  destruct (readInt_payload payload rest [] off Hno) as (d' & -> & _).
  exists d'. cbn [app]. pose proof (ParseInt_spec payload) as H.
  destruct (signedValue payload) as [n|].
  - rewrite H. destruct (fitsInt bits n) eqn:E.
    + rewrite (fitsInt_64 bits n Hb E). now rewrite OverflowInt_fits, E.
    + destruct (fitsInt 64 n); [now rewrite OverflowInt_fits, E|reflexivity].
  - destruct H as [e ->]. reflexivity.
Qed.

Lemma parseInteger_uint (bits : Z) (payload rest : bytes) (x : data) (off : Z) :
  0 < bits <= 64 -> ~ In "e"%char payload ->
  exists d',
    parseInteger (mkDecodeState [] (payload ++ "e"%char :: rest) off) (Uint bits) x =
      match unsignedValue payload with
      | Some n =>
          if fitsUint bits n then (Ret None, DUint n, d')
          else (Ret (Some ErrCannotUnmarshal), x, d')
      | None => (Ret (Some ErrCannotUnmarshal), x, d')
      end.
Proof.
  intros Hb Hno. unfold parseInteger.
  destruct (readInt_payload payload rest [] off Hno) as (d' & -> & _).
  exists d'. cbn [app]. pose proof (ParseUint_spec payload) as H.
  destruct (unsignedValue payload) as [n|].
  - destruct H as [Hn ->]. destruct (fitsUint bits n) eqn:E.
    + pose proof (fitsUint_64 bits n Hb E) as H64.
      destruct (Z.ltb_spec n (2 ^ 64)); [|lia].
      now rewrite OverflowUint_fits, E.
    + destruct (n <? 2 ^ 64); [|reflexivity].
      now rewrite OverflowUint_fits, E.
  - destruct H as [e ->]. reflexivity.
Qed.

Lemma Unmarshal_int (h : Hooks) (bits : Z) (payload rest : bytes) (x : data) :
  0 < bits <= 64 -> ~ In "e"%char payload ->
  Unmarshal h (B "i" ++ payload ++ B "e" ++ rest) (target (Int bits) x) =
    match signedValue payload with
    | Some n =>
        if fitsInt bits n then (Ret None, target (Int bits) (DInt n))
        else (Ret (Some ErrCannotUnmarshal), target (Int bits) x)
    | None => (Ret (Some ErrCannotUnmarshal), target (Int bits) x)
    end.
Proof.
  intros Hb Hno. unfold Unmarshal, unmarshal, target. cbn [Scanner].
  cbn [parseValue parseValueBody]. unfold parseValueElem. cbn [hasHook].
  change (B "i" ++ payload ++ B "e" ++ rest) with ("i"%char :: payload ++ "e"%char :: rest).
  unfold readByte. cbn [Scanner Buffer Offset].
  cbn [Ascii.eqb Bool.eqb andb].
  destruct (parseInteger_int bits payload rest x (0 + 1) Hb Hno) as (d' & ->).
  destruct (signedValue payload) as [n|]; [destruct (fitsInt bits n)|]; reflexivity.
Qed.

Lemma Unmarshal_uint (h : Hooks) (bits : Z) (payload rest : bytes) (x : data) :
  0 < bits <= 64 -> ~ In "e"%char payload ->
  Unmarshal h (B "i" ++ payload ++ B "e" ++ rest) (target (Uint bits) x) =
    match unsignedValue payload with
    | Some n =>
        if fitsUint bits n then (Ret None, target (Uint bits) (DUint n))
        else (Ret (Some ErrCannotUnmarshal), target (Uint bits) x)
    | None => (Ret (Some ErrCannotUnmarshal), target (Uint bits) x)
    end.
Proof.
  intros Hb Hno. unfold Unmarshal, unmarshal, target. cbn [Scanner].
  cbn [parseValue parseValueBody]. unfold parseValueElem. cbn [hasHook].
  change (B "i" ++ payload ++ B "e" ++ rest) with ("i"%char :: payload ++ "e"%char :: rest).
  unfold readByte. cbn [Scanner Buffer Offset].
  cbn [Ascii.eqb Bool.eqb andb].
  destruct (parseInteger_uint bits payload rest x (0 + 1) Hb Hno) as (d' & ->).
  destruct (unsignedValue payload) as [n|]; [destruct (fitsUint bits n)|]; reflexivity.
Qed.

(** C6: decoding a bencode integer into a signed or unsigned target of at
    most 64 bits stores the value of the decimal payload when the payload
    parses (an optional sign and digits for a signed target, digits only for
    an unsigned one) and the value is representable in the width of the
    target; in every other case the decode fails with the "cannot unmarshal"
    error and leaves the target as it was.  ["i-5e"] fails for every unsigned
    target. *)
Theorem C6_integer_width (h : Hooks) (bits : Z) (payload rest : bytes) (x : data) :
  0 < bits <= 64 -> ~ In "e"%char payload ->
  Unmarshal h (B "i" ++ payload ++ B "e" ++ rest) (target (Int bits) x) =
    match signedValue payload with
    | Some n =>
        if fitsInt bits n then (Ret None, target (Int bits) (DInt n))
        else (Ret (Some ErrCannotUnmarshal), target (Int bits) x)
    | None => (Ret (Some ErrCannotUnmarshal), target (Int bits) x)
    end /\
  Unmarshal h (B "i" ++ payload ++ B "e" ++ rest) (target (Uint bits) x) =
    match unsignedValue payload with
    | Some n =>
        if fitsUint bits n then (Ret None, target (Uint bits) (DUint n))
        else (Ret (Some ErrCannotUnmarshal), target (Uint bits) x)
    | None => (Ret (Some ErrCannotUnmarshal), target (Uint bits) x)
    end /\
  Unmarshal h (B "i-5e" ++ rest) (target (Uint bits) x) =
    (Ret (Some ErrCannotUnmarshal), target (Uint bits) x).
Proof.
  intros Hb Hno. split; [|split].
  - now apply Unmarshal_int.
  - now apply Unmarshal_uint.
  - assert (Hno5 : ~ In "e"%char (B "-5")).
    { cbn. intros [E|[E|[]]]; discriminate E. }
    exact (Unmarshal_uint h bits (B "-5") rest x Hb Hno5).
Qed.

Lemma C6_witness :
  Unmarshal noHooks (B "i" ++ B "-128" ++ B "e" ++ []) (target (Int 8) (DInt 0)) =
    (Ret None, target (Int 8) (DInt (-128))) /\
  Unmarshal noHooks (B "i" ++ B "256" ++ B "e" ++ []) (target (Uint 8) (DUint 0)) =
    (Ret (Some ErrCannotUnmarshal), target (Uint 8) (DUint 0)).
Proof.
  assert (Hb : 0 < 8 <= 64) by lia.
  assert (H1 : ~ In "e"%char (B "-128")).
  { cbn. intros [E|[E|[E|[E|[]]]]]; discriminate E. }
  assert (H2 : ~ In "e"%char (B "256")).
  { cbn. intros [E|[E|[E|[]]]]; discriminate E. }
  split.
  - exact (proj1 (C6_integer_width noHooks 8 (B "-128") [] (DInt 0) Hb H1)).
  - exact (proj1 (proj2 (C6_integer_width noHooks 8 (B "256") [] (DUint 0) Hb H2))).
Defined.

(** ** Byte strings *)

Lemma bytesAsString_id (b : bytes) : bytesAsString b = b.
Proof. now destruct b. Qed.

Lemma firstn_len_app (s rest : bytes) : firstn (Z.to_nat (len s)) (s ++ rest) = s.
Proof.
  unfold len. rewrite Nat2Z.id. rewrite firstn_app, Nat.sub_diag, firstn_all.
  cbn [firstn]. apply app_nil_r.
Qed.

Lemma skipn_len_app (s rest : bytes) : skipn (Z.to_nat (len s)) (s ++ rest) = rest.
Proof.
  unfold len. rewrite Nat2Z.id. rewrite skipn_app, Nat.sub_diag, skipn_all.
  reflexivity.
Qed.

Lemma len_nonneg (s : bytes) : 0 <= len s.
Proof. unfold len. lia. Qed.

Lemma readLength_exact (s rest buf : bytes) (off : Z) :
  readLength (mkDecodeState buf (s ++ rest) off) (len s) =
    (Ret s, mkDecodeState buf rest (off + len s)).
Proof.
  unfold readLength. cbn [Scanner Buffer Offset].
  rewrite firstn_len_app, skipn_len_app. pose proof (len_nonneg s).
  destruct (Z.ltb_spec (len s) 0); [lia|].
  destruct (Z.ltb_spec (len s) (len s)); [lia|]. reflexivity.
Qed.

Lemma digits_no_colon (ds : bytes) :
  Forall (fun c => strconv.isDigit c = true) ds -> ~ In ":"%char ds.
Proof.
  intros HF Hin. rewrite Forall_forall in HF. apply HF in Hin. discriminate Hin.
Qed.

(** [parseValue], past its pointer indirection, on a bencode byte string. *)
Lemma parseValueElem_bencString (h : Hooks) rec (n : nat) (buf s rest : bytes)
    (off : Z) (t : rtype) (v : data) :
  hasHook t = false -> len s < 2 ^ 63 ->
  exists d',
    parseValueElem h rec n (mkDecodeState buf (bencString s ++ rest) off) t v =
      (Ret (true, fst (setByteString t v s)), snd (setByteString t v s), d') /\
    Scanner d' = rest /\ Buffer d' = [].
Proof.
  intros Hh Hs. unfold parseValueElem. rewrite Hh.
  unfold bencString, strconv.AppendInt. pose proof (len_nonneg s) as Hl.
  destruct (Z.ltb_spec (len s) 0); [lia|]. cbn [app].
  destruct (FormatUint_spec (len s) Hl) as (c & ds & E & HF & HV).
  pose proof (ParseInt_FormatUint (len s) (conj Hl Hs)) as HP.
  rewrite E in *. cbn [app]. unfold readByte. cbn [Scanner Buffer Offset].
  assert (Hc : 48 <= byteval c <= 57) by (apply isDigit_spec; now inversion HF).
  assert (Ee : Ascii.eqb c "e"%char = false).
  { apply Ascii.eqb_neq. intros ->. change (byteval "e"%char) with 101 in Hc. lia. }
  assert (Ed : Ascii.eqb c "d"%char = false).
  { apply Ascii.eqb_neq. intros ->. change (byteval "d"%char) with 100 in Hc. lia. }
  assert (El : Ascii.eqb c "l"%char = false).
  { apply Ascii.eqb_neq. intros ->. change (byteval "l"%char) with 108 in Hc. lia. }
  assert (Ei : Ascii.eqb c "i"%char = false).
  { apply Ascii.eqb_neq. intros ->. change (byteval "i"%char) with 105 in Hc. lia. }
  rewrite Ee, Ed, El, Ei.
  replace (strconv.isDigit c) with true by (symmetry; now inversion HF).
  unfold parseByteString, readStringLength, readUntil, Reset, WriteByte.
  cbn [Scanner Buffer Offset app].
  rewrite <- app_assoc. cbn [app].
  rewrite readUntilLoop_stop by (apply digits_no_colon; now inversion HF).
  cbn [Buffer Scanner Offset app]. rewrite bytesAsString_id, HP.
  rewrite readLength_exact.
  destruct (setByteString t v s) as [err v']. cbn [fst snd].
  eexists. split; [reflexivity|]. split; reflexivity.
Qed.

(** C4, as the code has it: decoding a byte string into a fixed-size byte
    array never fails on account of the length of the string; [reflect.Copy]
    stores the first [min(len(string), capacity)] bytes in order and leaves
    the other elements of the array as they were. *)
Theorem C4_byte_array_copy (h : Hooks) (n : nat) (a : list data) (s rest : bytes) :
  len s < 2 ^ 63 ->
  let k := Nat.min (List.length a) (List.length s) in
  Unmarshal h (bencString s ++ rest) (target (Array n (Uint 8)) (DArray a)) =
    (Ret None,
     target (Array n (Uint 8)) (DArray (map ofByte (firstn k s) ++ skipn k a))).
Proof.
  intros Hs k. unfold Unmarshal, unmarshal, target. cbn [Scanner].
  cbn [parseValue parseValueBody].
  destruct (parseValueElem_bencString h
              (parseValue h (List.length (bencString s ++ rest)))
              (List.length (bencString s ++ rest)) [] s rest 0
              (Array n (Uint 8)) (DArray a) eq_refl Hs) as (d' & -> & _).
  reflexivity.
Qed.

(** The claim C4 as stated fails: a string of three bytes decodes into an
    array of two without an error, and so does a string of one byte. *)
Lemma C4_counterexample :
  Unmarshal noHooks (B "3:abc") (target (Array 2 (Uint 8)) (DArray [DUint 0; DUint 0])) =
    (Ret None, target (Array 2 (Uint 8)) (DArray [DUint 97; DUint 98])) /\
  Unmarshal noHooks (B "1:a") (target (Array 2 (Uint 8)) (DArray [DUint 7; DUint 9])) =
    (Ret None, target (Array 2 (Uint 8)) (DArray [DUint 97; DUint 9])).
Proof. split; reflexivity. Qed.

Lemma C4_witness :
  Unmarshal noHooks (bencString (B "abc") ++ []) (target (Array 2 (Uint 8)) (DArray [DUint 0; DUint 0])) =
    (Ret None, target (Array 2 (Uint 8)) (DArray [DUint 97; DUint 98])).
Proof.
  assert (Hs : len (B "abc") < 2 ^ 63) by (vm_compute; reflexivity).
  exact (C4_byte_array_copy noHooks 2 [DUint 0; DUint 0] (B "abc") [] Hs).
Defined.

(** ** Unknown keys *)

(** One round of the loop of [parseDict] on a struct: a key that
    [getStructFieldForKey] does not find, or finds on an unexported field,
    ends the loop with an error. *)
Lemma parseDictLoop_unknown_key (h : Hooks) rec (n : nat) (settable : bool)
    (d d1 : decodeState) (fs : list StructField) (v : data) (key : bytes) :
  rec d String_ (DString []) = (Ret (true, None), DString key, d1) ->
  (forall sf, getStructFieldForKey fs key = Some sf -> PkgPath (sf_r sf) <> []) ->
  parseDictLoop h rec (S n) settable d (Struct fs) v = (Ret (Some ErrEmptyMessage), v, d1).
Proof.
  intros Hk Hunk. cbn [parseDictLoop]. rewrite Hk. cbn [structFields].
  destruct (getStructFieldForKey fs key) as [sf|] eqn:E; [|reflexivity].
  specialize (Hunk sf eq_refl). apply bytes_eqb_neq in Hunk. now rewrite Hunk.
Qed.

(** C8 fails on the code: an unknown key that follows a list-valued field is
    never read.  In ["d1:Ali1ee3:bari2ee"] the key [bar] matches no field of
    [struct{A []int}], nor of [struct{A [1]int}], and [Unmarshal] returns nil
    on both: the slice loop of [parseList] leaves after the first element and
    the array loop does not read the ['e'] of the list, so the loop of
    [parseDict] takes that ['e'] for the end of the dict.  Read first, the
    same key fails. *)
Theorem C8_unknown_key_after_list (h : Hooks) :
  (forall t, getStructFieldForKey (listField t) (B "bar") = None) /\
  Unmarshal h (B "d1:Ali1ee3:bari2ee")
    (target (Struct (listField (Slice (Int 64)))) (DStruct [DSlice None])) =
    (Ret None,
     target (Struct (listField (Slice (Int 64)))) (DStruct [DSlice (Some [DInt 1])])) /\
  Unmarshal h (B "d1:Ali1ee3:bari2ee")
    (target (Struct (listField (Array 1 (Int 64)))) (DStruct [DArray [DInt 0]])) =
    (Ret None,
     target (Struct (listField (Array 1 (Int 64)))) (DStruct [DArray [DInt 1]])) /\
  Unmarshal h (B "d3:bari2e1:Ali1eee")
    (target (Struct (listField (Slice (Int 64)))) (DStruct [DSlice None])) =
    (Ret (Some ErrEmptyMessage),
     target (Struct (listField (Slice (Int 64)))) (DStruct [DSlice None])).
Proof.
  split; [intros t; reflexivity|]. split; [reflexivity|]. split; reflexivity.
Qed.

(** ** A leading ['e'] *)






(** ** Lists into slices *)

(** C3 fails on the code: the loop of [parseList] on a slice leaves when
    [parseValue] reports a value and goes on when it reports the ['e'] that
    ends the list.  Whatever follows the first element, decoding
    ["li1ei2ei3ee"] into an [int] slice gives [[1]], and decoding the empty
    list ["le"] reads past its end. *)
Theorem C3_slice_stops_after_first_element (h : Hooks) :
  Unmarshal h (B "li1ei2ei3ee") (target (Slice (Int 64)) (DSlice None)) =
    (Ret None, target (Slice (Int 64)) (DSlice (Some [DInt 1]))) /\
  (forall rest,
     Unmarshal h (B "li1e" ++ rest) (target (Slice (Int 64)) (DSlice None)) =
       (Ret None, target (Slice (Int 64)) (DSlice (Some [DInt 1])))) /\
  Unmarshal h (B "le") (target (Slice (Int 64)) (DSlice None)) =
    (Ret (Some (newSyntaxError 2 EOF)),
     target (Slice (Int 64)) (DSlice (Some [DInt 0; DInt 0]))) /\
  Unmarshal h (B "lei5e") (target (Slice (Int 64)) (DSlice None)) =
    (Ret None, target (Slice (Int 64)) (DSlice (Some [DInt 0; DInt 5]))).
Proof.
  split; [reflexivity|]. split; [|split; reflexivity].
  intros rest. vm_compute. reflexivity.
Qed.

(** ** Round trip *)

Lemma Unmarshal_bencString (h : Hooks) (s rest : bytes) (x : data) :
  len s < 2 ^ 63 ->
  Unmarshal h (bencString s ++ rest) (target String_ x) =
    (Ret None, target String_ (DString s)).
Proof.
  intros Hs. unfold Unmarshal, unmarshal, target. cbn [Scanner].
  cbn [parseValue parseValueBody].
  destruct (parseValueElem_bencString h
              (parseValue h (List.length (bencString s ++ rest)))
              (List.length (bencString s ++ rest)) [] s rest 0
              String_ x eq_refl Hs) as (d' & -> & _).
  cbn [setByteString fst snd]. now rewrite bytesAsString_id.
Qed.

(** Text round-trips. *)
Lemma round_trip_string (h : Hooks) (s : bytes) :
  len s < 2 ^ 63 ->
  Marshal h (Some (String_, DString s)) = Ret (inl (bencString s)) /\
  Unmarshal h (bencString s) (target String_ (DString [])) =
    (Ret None, target String_ (DString s)).
Proof.
  intros Hs. split; [reflexivity|].
  rewrite <- (app_nil_r (bencString s)) at 1. now apply Unmarshal_bencString.
Qed.

Lemma signedValue_AppendInt (n : Z) :
  signedValue (strconv.AppendInt [] n) = Some n /\ ~ In "e"%char (strconv.AppendInt [] n).
Proof.
  assert (Hdig : forall ds, Forall (fun c => strconv.isDigit c = true) ds ->
                            ~ In "e"%char ds).
  { intros ds HF Hin. rewrite Forall_forall in HF. apply HF in Hin. discriminate Hin. }
  unfold strconv.AppendInt. destruct (Z.ltb_spec n 0) as [Hneg|Hpos]; cbn [app].
  - destruct (FormatUint_spec (- n)) as (c & ds & E & HF & HV); [lia|].
    rewrite E. split.
    + unfold signedValue. cbn [Ascii.eqb Bool.eqb andb]. unfold unsignedValue.
      rewrite <- digitsValue_decimalOf, HV. cbn [option_map]. f_equal. lia.
    + intros [Hin|Hin]; [discriminate Hin|]. now apply (Hdig _ HF).
  - destruct (FormatUint_spec n Hpos) as (c & ds & E & HF & HV).
    rewrite E. split; [|now apply Hdig].
    assert (Hc : 48 <= byteval c <= 57) by (apply isDigit_spec; now inversion HF).
    unfold signedValue.
    assert (Em : Ascii.eqb c "-"%char = false).
    { apply Ascii.eqb_neq. intros ->. change (byteval "-"%char) with 45 in Hc. lia. }
    assert (Ep : Ascii.eqb c "+"%char = false).
    { apply Ascii.eqb_neq. intros ->. change (byteval "+"%char) with 43 in Hc. lia. }
    rewrite Em, Ep. unfold unsignedValue. now rewrite <- digitsValue_decimalOf, HV.
Qed.

(** Signed integers round-trip. *)
Lemma round_trip_int (h : Hooks) (bits n : Z) :
  0 < bits <= 64 -> fitsInt bits n = true ->
  Marshal h (Some (Int bits, DInt n)) = Ret (inl (B "i" ++ strconv.AppendInt [] n ++ B "e")) /\
  Unmarshal h (B "i" ++ strconv.AppendInt [] n ++ B "e") (target (Int bits) (DInt 0)) =
    (Ret None, target (Int bits) (DInt n)).
Proof.
  intros Hb Hfit. split.
  - unfold Marshal, marshal. cbn [vsize tsize dsize reflectValue Nat.add].
    unfold typeEncoder, newTypeEncoder. cbn [hasHook kind]. unfold intEncoder.
    cbn [Write WriteString eBuffer newEncodeState app]. now rewrite <- app_assoc.
  - destruct (signedValue_AppendInt n) as [Hv Hno].
    pose proof (Unmarshal_int h bits (strconv.AppendInt [] n) [] (DInt 0) Hb Hno) as H.
    rewrite Hv, Hfit in H. exact H.
Qed.

(** C1 fails on the code: the slice [[]int{1, 2, 3}] encodes as
    ["li1ei2ei3ee"], which decodes without an error into [[]int{1}]; the
    empty slice encodes as ["le"], which does not decode at all. *)
Theorem C1_round_trip_slice (h : Hooks) :
  Marshal h (Some (Slice (Int 64), DSlice (Some [DInt 1; DInt 2; DInt 3]))) =
    Ret (inl (B "li1ei2ei3ee")) /\
  Unmarshal h (B "li1ei2ei3ee") (target (Slice (Int 64)) (DSlice None)) =
    (Ret None, target (Slice (Int 64)) (DSlice (Some [DInt 1]))) /\
  DSlice (Some [DInt 1]) <> DSlice (Some [DInt 1; DInt 2; DInt 3]) /\
  Marshal h (Some (Slice (Int 64), DSlice (Some []))) = Ret (inl (B "le")) /\
  Unmarshal h (B "le") (target (Slice (Int 64)) (DSlice None)) =
    (Ret (Some (newSyntaxError 2 EOF)),
     target (Slice (Int 64)) (DSlice (Some [DInt 0; DInt 0]))).
Proof.
  split; [reflexivity|]. split; [reflexivity|]. split; [discriminate|].
  split; reflexivity.
Qed.

(** ** Bytes after the consumed input are not looked at *)

Section Extension.
Variable extra : bytes.

Lemma stable_raise {A C : Type} (o : outcome A) :
  stable (@raise A C o) -> o = PanicOther.
Proof. destruct o; cbn; intros H; try contradiction; reflexivity. Qed.

Lemma readByte_ext d : rsim extra (readByte d) (readByte (extend d extra)).
Proof.
  intros o d' H Hs. unfold readByte in *. cbn [extend Scanner Buffer Offset].
  destruct (Scanner d) as [|b s]; inversion H; subst; [contradiction|]. reflexivity.
Qed.

Lemma readUntilLoop_ext sep s buf off :
  rsim extra (readUntilLoop sep s buf off) (readUntilLoop sep (s ++ extra) buf off).
Proof.
  revert buf off. induction s as [|b s IH]; intros buf off o d' H Hs; cbn [readUntilLoop app] in *.
  - inversion H; subst. contradiction.
  - destruct (Ascii.eqb b sep).
    + inversion H; subst. reflexivity.
    + now apply IH.
Qed.

Lemma readUntil_ext d sep : rsim extra (readUntil d sep) (readUntil (extend d extra) sep).
Proof. unfold readUntil. cbn [extend Scanner Buffer Offset]. apply readUntilLoop_ext. Qed.

Lemma Reset_extend d : Reset (extend d extra) = extend (Reset d) extra.
Proof. reflexivity. Qed.

Lemma WriteByte_extend d b : WriteByte (extend d extra) b = extend (WriteByte d b) extra.
Proof. reflexivity. Qed.

Lemma dWriteString_extend d s : dWriteString (extend d extra) s = extend (dWriteString d s) extra.
Proof. reflexivity. Qed.

Lemma unreadByte_extend d b : unreadByte (extend d extra) b = extend (unreadByte d b) extra.
Proof. reflexivity. Qed.

Lemma readUntilLoop_no_other sep s buf off d' :
  readUntilLoop sep s buf off <> (PanicOther, d').
Proof.
  revert buf off. induction s as [|b s IH]; intros buf off; cbn [readUntilLoop].
  - discriminate.
  - destruct (Ascii.eqb b sep); [discriminate|apply IH].
Qed.

Lemma readUntil_no_other d sep d' : readUntil d sep <> (PanicOther, d').
Proof. apply readUntilLoop_no_other. Qed.

Lemma readInt_ext d : rsim extra (readInt d) (readInt (extend d extra)).
Proof.
  intros o d' H Hs. unfold readInt in *.
  destruct (readUntil d "e"%char) as [o1 d1] eqn:E1.
  destruct o1 as [u| | |]; try (inversion H; subst; contradiction);
    [|now apply readUntil_no_other in E1].
  rewrite (readUntil_ext _ _ _ _ E1 I). cbn [extend Buffer].
  destruct (Buffer d1); inversion H; subst; reflexivity.
Qed.

Lemma readStringLength_ext d :
  rsim extra (readStringLength d) (readStringLength (extend d extra)).
Proof.
  intros o d' H Hs. unfold readStringLength in *.
  destruct (readUntil d ":"%char) as [o1 d1] eqn:E1.
  destruct o1 as [u| | |]; try (inversion H; subst; contradiction);
    [|now apply readUntil_no_other in E1].
  rewrite (readUntil_ext _ _ _ _ E1 I). cbn [extend Buffer].
  destruct (strconv.ParseInt _); inversion H; subst; [contradiction|reflexivity].
Qed.

Lemma firstn_enough {A : Type} (n : nat) (l l' : list A) :
  (n <= List.length l)%nat -> firstn n (l ++ l') = firstn n l.
Proof.
  intros Hn. rewrite firstn_app. replace (n - List.length l)%nat with 0%nat by lia.
  cbn [firstn]. apply app_nil_r.
Qed.

Lemma skipn_enough {A : Type} (n : nat) (l l' : list A) :
  (n <= List.length l)%nat -> skipn n (l ++ l') = skipn n l ++ l'.
Proof.
  intros Hn. rewrite skipn_app. replace (n - List.length l)%nat with 0%nat by lia.
  reflexivity.
Qed.

Lemma taken_enough (n : Z) (s : bytes) :
  0 <= n -> ~ len (firstn (Z.to_nat n) s) < n -> (Z.to_nat n <= List.length s)%nat.
Proof.
  intros Hn Hl. unfold len in Hl. rewrite length_firstn in Hl. lia.
Qed.

Lemma readLength_ext d length :
  rsim extra (readLength d length) (readLength (extend d extra) length).
Proof.
  intros o d' H Hs. unfold readLength in *. cbn [extend Scanner Buffer Offset].
  destruct (Z.ltb_spec length 0); [inversion H; subst; contradiction|].
  destruct (Z.ltb_spec (len (firstn (Z.to_nat length) (Scanner d))) length) as [Hl|Hl];
    [inversion H; subst; contradiction|].
  assert (Hn : (Z.to_nat length <= List.length (Scanner d))%nat)
    by (apply taken_enough; lia).
  rewrite firstn_enough, skipn_enough by exact Hn.
  destruct (Z.ltb_spec (len (firstn (Z.to_nat length) (Scanner d))) length); [lia|].
  inversion H; subst. reflexivity.
Qed.

Lemma readByte_no_other d d' : readByte d <> (PanicOther, d').
Proof. unfold readByte. destruct (Scanner d); discriminate. Qed.

Lemma readInt_no_other d d' : readInt d <> (PanicOther, d').
Proof.
  unfold readInt. destruct (readUntil d "e"%char) as [[u| | |] d1] eqn:E; try discriminate.
  - destruct (Buffer d1); discriminate.
  - now apply readUntil_no_other in E.
Qed.

Lemma readStringLength_no_other d d' : readStringLength d <> (PanicOther, d').
Proof.
  unfold readStringLength.
  destruct (readUntil d ":"%char) as [[u| | |] d1] eqn:E; try discriminate.
  - destruct (strconv.ParseInt _); discriminate.
  - now apply readUntil_no_other in E.
Qed.

Lemma readLength_no_other d length d' : readLength d length <> (PanicOther, d').
Proof.
  unfold readLength. destruct (length <? 0); [discriminate|].
  destruct (_ <? length); discriminate.
Qed.

(** Case analysis of a result that no longer depends on the cursor. *)
Ltac pure_cases H :=
  repeat match type of H with
         | context [match ?x with _ => _ end] => destruct x eqn:?
         end;
  try discriminate; inversion H; subst; try reflexivity; try contradiction.

Section ReadValueExt.
Variables rec1 rec2 : decodeState -> rres bool.
Hypothesis rec_ext : forall d, rsim extra (rec1 d) (rec2 (extend d extra)).
Hypothesis rec_no_other : forall d d', rec1 d <> (PanicOther, d').

Lemma readValueLoop_ext n1 n2 d :
  (n1 <= n2)%nat ->
  rsim extra (readValueLoop rec1 n1 d) (readValueLoop rec2 n2 (extend d extra)).
Proof.
  revert n2 d. induction n1 as [|n1 IH]; intros n2 d Hn o d' H Hs; cbn [readValueLoop] in H.
  - inversion H; subst. contradiction.
  - destruct n2 as [|n2]; [lia|]. cbn [readValueLoop].
    destruct (rec1 d) as [o1 d1] eqn:E1.
    destruct o1 as [[]| | |]; try (inversion H; subst; contradiction);
      try (now apply rec_no_other in E1);
      rewrite (rec_ext _ _ _ E1 I).
    + apply (IH n2 d1); auto. lia.
    + inversion H; subst. reflexivity.
Qed.

Lemma readValueLoop_no_other n d d' : readValueLoop rec1 n d <> (PanicOther, d').
Proof.
  revert d. induction n as [|n IH]; intros d; cbn [readValueLoop]; [discriminate|].
  destruct (rec1 d) as [[[]| | |] d1] eqn:E; try discriminate; auto.
  now apply rec_no_other in E.
Qed.

Lemma readValueBody_no_other n d d' : readValueBody rec1 n d <> (PanicOther, d').
Proof.
  unfold readValueBody.
  destruct (readByte d) as [[b| | |] d1] eqn:E1; try discriminate;
    [|now apply readByte_no_other in E1].
  destruct (Ascii.eqb b "e"%char); [discriminate|].
  destruct (_ || _).
  - destruct (readValueLoop rec1 n _) as [[u| | |] d2] eqn:E2; try discriminate;
      [|now apply readValueLoop_no_other in E2].
    destruct (readByte d2) as [[b2| | |] d3] eqn:E3; try discriminate.
    now apply readByte_no_other in E3.
  - destruct (Ascii.eqb b "i"%char).
    + destruct (readUntil _ _) as [[u| | |] d2] eqn:E2; try discriminate.
      now apply readUntil_no_other in E2.
    + destruct (strconv.isDigit b); [|discriminate].
      destruct (readUntil _ _) as [[u| | |] d2] eqn:E2; try discriminate;
        [|now apply readUntil_no_other in E2].
      destruct (strconv.ParseInt _); [discriminate|].
      destruct (_ <? _); discriminate.
Qed.

Lemma readValueBody_ext n1 n2 d :
  (n1 <= n2)%nat ->
  rsim extra (readValueBody rec1 n1 d) (readValueBody rec2 n2 (extend d extra)).
Proof.
  intros Hn o d' H Hs. unfold readValueBody in *.
  destruct (readByte d) as [o1 d1] eqn:E1.
  destruct o1 as [b| | |]; try (inversion H; subst; contradiction);
    [|now apply readByte_no_other in E1].
  rewrite (readByte_ext _ _ _ E1 I).
  destruct (Ascii.eqb b "e"%char); [inversion H; subst; reflexivity|].
  rewrite WriteByte_extend.
  destruct (_ || _).
  - destruct (readValueLoop rec1 n1 _) as [o2 d2] eqn:E2.
    destruct o2 as [u| | |]; try (inversion H; subst; contradiction);
      [|now apply readValueLoop_no_other in E2].
    rewrite (readValueLoop_ext _ _ _ Hn _ _ E2 I).
    destruct (readByte d2) as [o3 d3] eqn:E3.
    destruct o3 as [b3| | |]; try (inversion H; subst; contradiction);
      [|now apply readByte_no_other in E3].
    rewrite (readByte_ext _ _ _ E3 I). inversion H; subst. reflexivity.
  - destruct (Ascii.eqb b "i"%char).
    + destruct (readUntil _ _) as [o2 d2] eqn:E2.
      destruct o2 as [u| | |]; try (inversion H; subst; contradiction);
        [|now apply readUntil_no_other in E2].
      rewrite (readUntil_ext _ _ _ _ E2 I). inversion H; subst. reflexivity.
    + destruct (strconv.isDigit b); [|inversion H; subst; contradiction].
      cbn [WriteByte Buffer extend] in *.
      destruct (readUntil _ _) as [o2 d2] eqn:E2.
      destruct o2 as [u| | |]; try (inversion H; subst; contradiction);
        [|now apply readUntil_no_other in E2].
      change (mkDecodeState (Buffer d1 ++ [b]) (Scanner d1 ++ extra) (Offset d1))
        with (extend (mkDecodeState (Buffer d1 ++ [b]) (Scanner d1) (Offset d1)) extra).
      rewrite (readUntil_ext _ _ _ _ E2 I). cbn [extend Buffer Scanner Offset dWriteString].
      destruct (strconv.ParseInt _) as [e|length]; [inversion H; subst; contradiction|].
      cbn [Buffer Scanner Offset dWriteString] in H.
      destruct (Z.ltb_spec (len (firstn (Z.to_nat length) (Scanner d2))) length) as [Hl|Hl];
        [inversion H; subst; contradiction|].
      destruct (Z.le_gt_cases 0 length) as [Hpos|Hneg].
      * assert (Hk : (Z.to_nat length <= List.length (Scanner d2))%nat)
          by (apply taken_enough; lia).
        rewrite firstn_enough, skipn_enough by exact Hk.
        destruct (Z.ltb_spec (len (firstn (Z.to_nat length) (Scanner d2))) length); [lia|].
        inversion H; subst. reflexivity.
      * replace (Z.to_nat length) with 0%nat in * by lia. cbn [firstn skipn] in *.
        destruct (Z.ltb_spec (len []) length); [unfold len in *; cbn in *; lia|].
        inversion H; subst. reflexivity.
Qed.

End ReadValueExt.

Lemma readValue_no_other fuel d d' : readValue fuel d <> (PanicOther, d').
Proof.
  revert d d'. induction fuel as [|fuel IH]; intros d d'; cbn [readValue]; [discriminate|].
  apply readValueBody_no_other. exact IH.
Qed.

Lemma readValue_ext fuel fuel' d :
  (fuel <= fuel')%nat ->
  rsim extra (readValue fuel d) (readValue fuel' (extend d extra)).
Proof.
  revert fuel' d. induction fuel as [|fuel IH]; intros fuel' d Hf o d' H Hs.
  - inversion H; subst. contradiction.
  - destruct fuel' as [|fuel']; [lia|]. cbn [readValue] in *.
    apply (readValueBody_ext (readValue fuel) (readValue fuel')) with (n1 := fuel); auto.
    + intros d0. apply IH. lia.
    + intros d0 d0'. apply readValue_no_other.
    + lia.
Qed.

Lemma bigIntDecoder_ext d t v :
  psim extra (bigIntDecoder d t v) (bigIntDecoder (extend d extra) t v).
Proof.
  intros o v' d' H Hs. unfold bigIntDecoder in *.
  destruct (readInt d) as [o1 d1] eqn:E1.
  destruct o1 as [s0| | |]; try (inversion H; subst; contradiction);
    [|now apply readInt_no_other in E1].
  rewrite (readInt_ext _ _ _ E1 I). pure_cases H.
Qed.

Lemma parseByteString_ext d t v :
  psim extra (parseByteString d t v) (parseByteString (extend d extra) t v).
Proof.
  intros o v' d' H Hs. unfold parseByteString in *.
  destruct (readStringLength d) as [o1 d1] eqn:E1.
  destruct o1 as [length| | |]; try (inversion H; subst; contradiction);
    [|now apply readStringLength_no_other in E1].
  rewrite (readStringLength_ext _ _ _ E1 I).
  destruct (readLength d1 length) as [o2 d2] eqn:E2.
  destruct o2 as [b| | |]; try (inversion H; subst; contradiction);
    [|now apply readLength_no_other in E2].
  rewrite (readLength_ext _ _ _ _ E2 I).
  destruct (setByteString t v b). inversion H; subst. reflexivity.
Qed.

Lemma parseInteger_ext d t v :
  psim extra (parseInteger d t v) (parseInteger (extend d extra) t v).
Proof.
  intros o v' d' H Hs. unfold parseInteger in *.
  destruct (readInt d) as [o1 d1] eqn:E1.
  destruct o1 as [s0| | |]; try (inversion H; subst; contradiction);
    [|now apply readInt_no_other in E1].
  rewrite (readInt_ext _ _ _ E1 I).
  destruct t; try (pure_cases H); try (now apply bigIntDecoder_ext).
Qed.

Section ParseExt.
Variable h : Hooks.

Lemma unmarshalerDecoder_ext n1 n2 d t v :
  (n1 <= n2)%nat ->
  psim extra (unmarshalerDecoder h n1 d t v)
             (unmarshalerDecoder h n2 (extend d extra) t v).
Proof.
  intros Hn o v' d' H Hs. unfold unmarshalerDecoder in *.
  assert (Hgen : forall id,
             match readValue n1 (Reset d) with
             | (Ret false, d0) => (Ret (Some ErrA), v, d0)
             | (Ret true, d0) =>
                 let '(o0, v'0) := UnmarshalBencode h id v (Buffer d0) in
                 (ofCall o0, v'0, d0)
             | (o0, d0) => (raise o0, v, d0)
             end = (o, v', d') ->
             match readValue n2 (Reset (extend d extra)) with
             | (Ret false, d0) => (Ret (Some ErrA), v, d0)
             | (Ret true, d0) =>
                 let '(o0, v'0) := UnmarshalBencode h id v (Buffer d0) in
                 (ofCall o0, v'0, d0)
             | (o0, d0) => (raise o0, v, d0)
             end = (o, v', extend d' extra)).
  { intros id Hid. rewrite Reset_extend.
    destruct (readValue n1 (Reset d)) as [o1 d1] eqn:E1.
    destruct o1 as [[]| | |]; try (inversion Hid; subst; contradiction);
      try (now apply readValue_no_other in E1);
      rewrite (readValue_ext _ _ _ Hn _ _ E1 I).
    - cbn [extend Buffer].
      destruct (UnmarshalBencode h id v (Buffer d1)) as [o0 v0].
      inversion Hid; subst. reflexivity.
    - inversion Hid; subst. reflexivity. }
  destruct t; try (inversion H; subst; reflexivity); try (now apply Hgen).
  destruct t; try (inversion H; subst; reflexivity); try (now apply Hgen).
Qed.

Variables rec1 rec2 : decodeState -> rtype -> data -> pres (bool * option Error).
Hypothesis rec_ext : forall d t v, psim extra (rec1 d t v) (rec2 (extend d extra) t v).

(** The outcome of a call that its caller passes on was stable. *)
Ltac unstable H Hs := exfalso; inversion H; subst; exact Hs.

Lemma parseSliceLoop_ext n1 n2 d et done :
  (n1 <= n2)%nat ->
  psim extra (parseSliceLoop h rec1 n1 d et done)
             (parseSliceLoop h rec2 n2 (extend d extra) et done).
Proof.
  revert n2 d done. induction n1 as [|n1 IH]; intros n2 d done Hn o v' d' H Hs;
    cbn [parseSliceLoop] in H.
  - unstable H Hs.
  - destruct n2 as [|n2]; [lia|]. cbn [parseSliceLoop].
    destruct (rec1 d et (zero h et)) as [[o1 x1] d1] eqn:E1.
    destruct o1 as [[b [err|]]| | |]; try (unstable H Hs);
      rewrite (rec_ext _ _ _ _ _ _ E1 I).
    + destruct b; inversion H; subst; reflexivity.
    + destruct b; [inversion H; subst; reflexivity|].
      apply (IH n2); auto. lia.
    + inversion H; subst. reflexivity.
Qed.

Lemma parseArrayLoop_ext d et done todo :
  psim extra (parseArrayLoop h rec1 d et done todo)
             (parseArrayLoop h rec2 (extend d extra) et done todo).
Proof.
  revert d done. induction todo as [|x todo IH]; intros d done o v' d' H Hs;
    cbn [parseArrayLoop] in *.
  - inversion H; subst. reflexivity.
  - destruct (rec1 d et x) as [[o1 x1] d1] eqn:E1.
    destruct o1 as [[b [err|]]| | |]; try (unstable H Hs);
      rewrite (rec_ext _ _ _ _ _ _ E1 I).
    + destruct b; inversion H; subst; reflexivity.
    + destruct b; now apply IH.
    + inversion H; subst. reflexivity.
Qed.

Lemma parseList_ext n1 n2 d t v :
  (n1 <= n2)%nat ->
  psim extra (parseList h rec1 n1 d t v) (parseList h rec2 n2 (extend d extra) t v).
Proof.
  intros Hn o v' d' H Hs. unfold parseList in *.
  destruct t; try (inversion H; subst; reflexivity).
  - now apply (parseSliceLoop_ext n1 n2).
  - destruct v; try (inversion H; subst; reflexivity).
    now apply parseArrayLoop_ext.
Qed.

Lemma parseDictLoop_ext n1 n2 settable d t v :
  (n1 <= n2)%nat ->
  psim extra (parseDictLoop h rec1 n1 settable d t v)
             (parseDictLoop h rec2 n2 settable (extend d extra) t v).
Proof.
  revert n2 d v. induction n1 as [|n1 IH]; intros n2 d v Hn o v' d' H Hs;
    cbn [parseDictLoop] in H.
  - unstable H Hs.
  - destruct n2 as [|n2]; [lia|]. cbn [parseDictLoop].
    assert (Hn' : (n1 <= n2)%nat) by lia.
    destruct (rec1 d String_ (DString [])) as [[o1 k] d1] eqn:E1.
    destruct o1 as [[[] [err|]]| | |]; try (unstable H Hs);
      rewrite (rec_ext _ _ _ _ _ _ E1 I);
      try (inversion H; subst; reflexivity).
    assert (Hstruct :
      forall fs,
        match getStructFieldForKey fs (match k with DString s0 => s0 | _ => [] end) with
        | None => (Ret (Some ErrEmptyMessage), v, d1)
        | Some sf =>
            if negb (bytes_eqb (PkgPath (sf_r sf)) [])
            then (Ret (Some ErrEmptyMessage), v, d1)
            else
              match v with
              | DStruct ds =>
                  match nth_error ds (sf_index sf) with
                  | Some value =>
                      match rec1 d1 (Typ (sf_r sf)) value with
                      | (Ret (_, Some err), x, d0) =>
                          (Ret (Some (newParseError
                             (match k with DString s0 => s0 | _ => [] end) err)),
                           DStruct (setNth ds (sf_index sf) x), d0)
                      | (Ret (false, None), x, d0) =>
                          (Ret (Some (ErrMissingValue
                             (match k with DString s0 => s0 | _ => [] end))),
                           DStruct (setNth ds (sf_index sf) x), d0)
                      | (Ret (true, None), x, d0) =>
                          parseDictLoop h rec1 n1 settable d0 t
                            (DStruct (setNth ds (sf_index sf) x))
                      | (o0, x, d0) =>
                          (raise o0, DStruct (setNth ds (sf_index sf) x), d0)
                      end
                  | None => (PanicErr ErrReflectValue, v, d1)
                  end
              | _ => (PanicErr ErrReflectValue, v, d1)
              end
        end = (o, v', d') ->
        match getStructFieldForKey fs (match k with DString s0 => s0 | _ => [] end) with
        | None => (Ret (Some ErrEmptyMessage), v, extend d1 extra)
        | Some sf =>
            if negb (bytes_eqb (PkgPath (sf_r sf)) [])
            then (Ret (Some ErrEmptyMessage), v, extend d1 extra)
            else
              match v with
              | DStruct ds =>
                  match nth_error ds (sf_index sf) with
                  | Some value =>
                      match rec2 (extend d1 extra) (Typ (sf_r sf)) value with
                      | (Ret (_, Some err), x, d0) =>
                          (Ret (Some (newParseError
                             (match k with DString s0 => s0 | _ => [] end) err)),
                           DStruct (setNth ds (sf_index sf) x), d0)
                      | (Ret (false, None), x, d0) =>
                          (Ret (Some (ErrMissingValue
                             (match k with DString s0 => s0 | _ => [] end))),
                           DStruct (setNth ds (sf_index sf) x), d0)
                      | (Ret (true, None), x, d0) =>
                          parseDictLoop h rec2 n2 settable d0 t
                            (DStruct (setNth ds (sf_index sf) x))
                      | (o0, x, d0) =>
                          (raise o0, DStruct (setNth ds (sf_index sf) x), d0)
                      end
                  | None => (PanicErr ErrReflectValue, v, extend d1 extra)
                  end
              | _ => (PanicErr ErrReflectValue, v, extend d1 extra)
              end
        end = (o, v', extend d' extra)).
    { intros fs Hfs.
      destruct (getStructFieldForKey fs _) as [sf|]; [|inversion Hfs; subst; reflexivity].
      destruct (negb _); [inversion Hfs; subst; reflexivity|].
      destruct v; try (unstable Hfs Hs).
      destruct (nth_error _ _) as [value|]; [|unstable Hfs Hs].
      destruct (rec1 d1 (Typ (sf_r sf)) value) as [[o2 x2] d2] eqn:E2.
      destruct o2 as [[[] [err2|]]| | |]; try (unstable Hfs Hs);
        rewrite (rec_ext _ _ _ _ _ _ E2 I);
        try (inversion Hfs; subst; reflexivity).
      now apply IH. }
    destruct t; try (now apply IH); try (now apply Hstruct).
    destruct v; try (unstable H Hs).
    destruct (rec1 d1 t2 (zero h t2)) as [[o2 x2] d2] eqn:E2.
    destruct o2 as [[[] [err2|]]| | |]; try (unstable H Hs);
      rewrite (rec_ext _ _ _ _ _ _ E2 I);
      try (inversion H; subst; reflexivity).
    destruct m as [m|]; [|destruct settable; [|inversion H; subst; reflexivity]];
      (destruct (convertibleKey t1); [now apply IH|inversion H; subst; reflexivity]).
Qed.

Lemma parseDict_ext n1 n2 d t v :
  (n1 <= n2)%nat ->
  psim extra (parseDict h rec1 n1 d t v) (parseDict h rec2 n2 (extend d extra) t v).
Proof.
  intros Hn o v' d' H Hs. unfold parseDict in *.
  destruct t; try (now apply (parseDictLoop_ext n1 n2)).
  destruct (parseDictLoop h rec1 n1 false d _ _) as [[o1 x1] d1] eqn:E1.
  inversion H; subst.
  now rewrite (parseDictLoop_ext n1 n2 _ _ _ _ Hn _ _ _ E1 Hs).
Qed.

Lemma parseValueElem_ext n1 n2 d t v :
  (n1 <= n2)%nat ->
  psim extra (parseValueElem h rec1 n1 d t v)
             (parseValueElem h rec2 n2 (extend d extra) t v).
Proof.
  intros Hn o v' d' H Hs. unfold parseValueElem in *.
  destruct (hasHook t).
  - destruct (unmarshalerDecoder h (S n1) d t v) as [[o1 x1] d1] eqn:E1.
    destruct o1 as [[err|]| | |]; try (unstable H Hs);
      rewrite (unmarshalerDecoder_ext (S n1) (S n2) _ _ _ (le_n_S _ _ Hn) _ _ _ E1 I);
      inversion H; subst; reflexivity.
  - destruct (readByte d) as [o1 d1] eqn:E1.
    destruct o1 as [b| | |]; try (unstable H Hs);
      [|now apply readByte_no_other in E1].
    rewrite (readByte_ext _ _ _ E1 I).
    destruct (Ascii.eqb b "e"%char); [inversion H; subst; reflexivity|].
    destruct (Ascii.eqb b "d"%char).
    { destruct (parseDict h rec1 n1 d1 t v) as [[o2 x2] d2] eqn:E2.
      destruct o2 as [err| | |]; try (unstable H Hs);
        rewrite (parseDict_ext n1 n2 _ _ _ Hn _ _ _ E2 I);
        inversion H; subst; reflexivity. }
    destruct (Ascii.eqb b "l"%char).
    { destruct (parseList h rec1 n1 d1 t v) as [[o2 x2] d2] eqn:E2.
      destruct o2 as [err| | |]; try (unstable H Hs);
        rewrite (parseList_ext n1 n2 _ _ _ Hn _ _ _ E2 I);
        inversion H; subst; reflexivity. }
    destruct (Ascii.eqb b "i"%char).
    { destruct (parseInteger d1 t v) as [[o2 x2] d2] eqn:E2.
      destruct o2 as [err| | |]; try (unstable H Hs);
        rewrite (parseInteger_ext _ _ _ _ _ _ E2 I);
        inversion H; subst; reflexivity. }
    destruct (strconv.isDigit b); [|inversion H; subst; reflexivity].
    rewrite Reset_extend, WriteByte_extend.
    destruct (parseByteString _ t v) as [[o2 x2] d2] eqn:E2.
    destruct o2 as [err| | |]; try (unstable H Hs);
      rewrite (parseByteString_ext _ _ _ _ _ _ E2 I);
      inversion H; subst; reflexivity.
Qed.

Lemma parseValueBody_ext n1 n2 d t v :
  (n1 <= n2)%nat ->
  psim extra (parseValueBody h rec1 n1 d t v)
             (parseValueBody h rec2 n2 (extend d extra) t v).
Proof.
  intros Hn o v' d' H Hs. unfold parseValueBody in *.
  destruct t; try (now apply (parseValueElem_ext n1 n2)).
  destruct (parseValueElem h rec1 n1 d t _) as [[o1 x1] d1] eqn:E1.
  inversion H; subst.
  now rewrite (parseValueElem_ext n1 n2 _ _ _ Hn _ _ _ E1 Hs).
Qed.

End ParseExt.

Lemma parseValue_ext (h : Hooks) fuel fuel' d t v :
  (fuel <= fuel')%nat ->
  psim extra (parseValue h fuel d t v) (parseValue h fuel' (extend d extra) t v).
Proof.
  revert fuel' d t v. induction fuel as [|fuel IH]; intros fuel' d t v Hf o v' d' H Hs.
  - inversion H; subst. contradiction.
  - destruct fuel' as [|fuel']; [lia|]. cbn [parseValue] in *.
    apply (parseValueBody_ext h (parseValue h fuel) (parseValue h fuel')) with (n1 := fuel);
      auto; try lia.
    intros d0 t0 v0. apply IH. lia.
Qed.

End Extension.

(** C10 fails on the code: the bytes after a value can decide the call.  The
    empty list ["le"] does not decode into an [int] slice, the loop of
    [parseList] reading on after its ['e'], while ["lei5e"] decodes without an
    error into [[0, 5]]; and of ["li1e"] followed by anything only these four
    bytes are read.  The array loop reads on in the same way: ["li1ee"] does
    not decode into a [[3]int], ["li1eei7e"] decodes into [[1, 0, 7]]. *)
Theorem C10_bytes_after_a_list_are_read (h : Hooks) :
  Unmarshal h (B "le") (target (Slice (Int 64)) (DSlice None)) =
    (Ret (Some (newSyntaxError 2 EOF)),
     target (Slice (Int 64)) (DSlice (Some [DInt 0; DInt 0]))) /\
  Unmarshal h (B "le" ++ B "i5e") (target (Slice (Int 64)) (DSlice None)) =
    (Ret None, target (Slice (Int 64)) (DSlice (Some [DInt 0; DInt 5]))) /\
  (forall rest,
     Unmarshal h (B "li1e" ++ rest) (target (Slice (Int 64)) (DSlice None)) =
       (Ret None, target (Slice (Int 64)) (DSlice (Some [DInt 1])))) /\
  Unmarshal h (B "li1ee") (target (Array 3 (Int 64)) (DArray [DInt 0; DInt 0; DInt 0])) =
    (Ret (Some (newSyntaxError 5 EOF)),
     target (Array 3 (Int 64)) (DArray [DInt 1; DInt 0; DInt 0])) /\
  Unmarshal h (B "li1ee" ++ B "i7e")
    (target (Array 3 (Int 64)) (DArray [DInt 0; DInt 0; DInt 0])) =
    (Ret None, target (Array 3 (Int 64)) (DArray [DInt 1; DInt 0; DInt 7])).
Proof.
  split; [reflexivity|]. split; [reflexivity|]. split; [|split; reflexivity].
  intros rest. vm_compute. reflexivity.
Qed.

(** ** The fuel of [Marshal] is enough *)

Lemma tsize_pos (t : rtype) : (1 <= tsize t)%nat.
Proof. destruct t; cbn; lia. Qed.

Fixpoint dsize_zero (h : Hooks) (t : rtype) {struct t} : dsize (zero h t) = 0%nat.
Proof.
  destruct t; cbn [zero dsize]; try reflexivity.
  - induction fields as [|f fs IH]; cbn [map list_sum]; [reflexivity|].
    rewrite (dsize_zero h (Typ f)). exact IH.
  - induction len0 as [|n IH]; cbn [repeat map list_sum]; [reflexivity|].
    rewrite (dsize_zero h t). exact IH.
Qed.

Lemma nth_error_sum {A : Type} (g : A -> nat) (l : list A) (i : nat) (x : A) :
  nth_error l i = Some x -> (g x <= list_sum (map g l))%nat.
Proof.
  revert i. induction l as [|y l IH]; intros [|i] H; cbn [nth_error map] in *;
    try discriminate;
    change (list_sum (g y :: map g l)) with (g y + list_sum (map g l))%nat.
  - inversion H; subst. lia.
  - apply IH in H. lia.
Qed.

Lemma In_sum {A : Type} (g : A -> nat) (l : list A) (x : A) :
  In x l -> (g x <= list_sum (map g l))%nat.
Proof.
  induction l as [|y l IH]; intros H; cbn [In map] in *; [contradiction|].
  change (list_sum (g y :: map g l)) with (g y + list_sum (map g l))%nat.
  destruct H as [->|H]; [lia|]. apply IH in H. lia.
Qed.

Lemma mapaccess_In {V : Type} (m : list (bytes * V)) (k : bytes) (x : V) :
  mapaccess m k = Some x -> exists k', In (k', x) m.
Proof.
  induction m as [|[k0 v0] m IH]; cbn; [discriminate|].
  destruct (bytes_eqb k0 k).
  - intros H. inversion H; subst. exists k0. now left.
  - intros H. destruct (IH H) as [k' Hin]. exists k'. now right.
Qed.

(** A call that ended in a way other than by lack of fuel. *)
Ltac ended := cbn [fst]; discriminate.

Section EncoderFuel.
Variable h : Hooks.
Variable rv : encodeState -> Value -> eres.
Variable bound : nat.
Hypothesis rv_total : forall e v, (vsize v < bound)%nat -> fst (rv e v) <> OutOfFuel.

Lemma structEncoderLoop_total efs (fs : list StructField) ds e :
  (list_sum (map (fun f => tsize (Typ f)) fs) + list_sum (map dsize ds) < bound)%nat ->
  fst (structEncoderLoop h rv efs fs ds e) <> OutOfFuel.
Proof.
  intros Hsz. revert e. induction efs as [|ef efs IH]; intros e; simpl.
  - ended.
  - destruct (nth_error fs (ef_i ef)) as [f|] eqn:Ef; [|ended].
    destruct (nth_error ds (ef_i ef)) as [x|] eqn:Ex; [|ended].
    destruct (if ef_omitEmpty ef then _ else _) as [[]|]; [apply IH| |ended].
    pose proof (nth_error_sum (fun f => tsize (Typ f)) _ _ _ Ef) as H1.
    pose proof (nth_error_sum dsize _ _ _ Ex) as H2.
    match goal with
    | |- context [rv ?e1 ?v1] =>
        pose proof (rv_total e1 v1) as Hrv; destruct (rv e1 v1) as [o1 e2]
    end.
    cbn [fst vsize] in Hrv.
    destruct o1 as [[err|]| | |]; cbn [fst]; try ended; [apply IH|apply Hrv; lia].
Qed.

Lemma mapEncoderLoop_total sv kt et m e :
  (tsize et + list_sum (map (fun kv => dsize (snd kv)) m) < bound)%nat ->
  fst (mapEncoderLoop rv sv kt et m e) <> OutOfFuel.
Proof.
  intros Hsz. revert e. induction sv as [|key sv IH]; intros e; simpl.
  - ended.
  - cbn [stringEncoder].
    match goal with
    | |- context [rv ?e1 ?v1] =>
        pose proof (rv_total e1 v1) as Hrv; destruct (rv e1 v1) as [o1 e2]
    end.
    assert (Hv : (vsize (option_map (pair et) (mapaccess m key)) < bound)%nat).
    { destruct (mapaccess m key) as [x|] eqn:Em; cbn [option_map vsize]; [|lia].
      destruct (mapaccess_In _ _ _ Em) as [k' Hin].
      pose proof (In_sum (fun kv => dsize (snd kv)) _ _ Hin) as Hle. cbn [snd] in Hle. lia. }
    destruct o1 as [[err|]| | |]; cbn [fst] in *; try ended; [apply IH|now apply Hrv].
Qed.

Lemma arrayEncoderLoop_total et a e :
  (tsize et + list_sum (map dsize a) < bound)%nat ->
  fst (arrayEncoderLoop rv et a e) <> OutOfFuel.
Proof.
  revert e. induction a as [|x a IH]; intros e Hsz; simpl.
  - ended.
  - change (list_sum (map dsize (x :: a)))
      with (dsize x + list_sum (map dsize a))%nat in Hsz.
    pose proof (rv_total e (Some (et, x))) as Hrv.
    destruct (rv e (Some (et, x))) as [o1 e2]. cbn [fst vsize] in Hrv.
    destruct o1 as [[err|]| | |]; cbn [fst]; try ended;
      [apply IH; lia|apply Hrv; lia].
Qed.

Lemma typeEncoder_total t d e :
  (tsize t + dsize d <= bound)%nat ->
  fst (typeEncoder h rv t e t d) <> OutOfFuel.
Proof.
  intros Hsz. unfold typeEncoder, newTypeEncoder.
  destruct (hasHook t) eqn:Eh.
  - unfold marshalerEncoder.
    destruct t as [| | | | | | | | | |[]| | | |]; try ended.
    + destruct d as [| | | | | | | | |[]| | |]; try ended.
      destruct (MarshalBencode h id _) as [[b []]| |]; ended.
    + destruct (hookOnPtr h id); [ended|].
      destruct (MarshalBencode h id d) as [[b []]| |]; ended.
  - destruct t; cbn [kind].
    + unfold boolEncoder. destruct d as [[]| | | | | | | | | | | |]; ended.
    + unfold intEncoder. destruct d; ended.
    + unfold uintEncoder. destruct d; ended.
    + unfold uintEncoder. destruct d; ended.
    + unfold stringEncoder. destruct d; ended.
    + unfold interfaceEncoder. destruct d; try ended.
      apply rv_total. destruct held as [[t' x]|]; cbn [vsize tsize dsize] in *; lia.
    + unfold newStructEncoder. destruct d; try ended.
      apply structEncoderLoop_total. cbn [structFields tsize dsize] in *. lia.
    + unfold newMapEncoder, unsupportedTypeEncoder. destruct d; try ended.
      destruct (kind t1); try ended. destruct m; [|ended].
      apply mapEncoderLoop_total. cbn [tsize dsize] in *. lia.
    + unfold newSliceEncoder. destruct d; try ended.
      destruct (isUint8 t); [ended|]. destruct s; [|ended].
      unfold newArrayEncoder. apply arrayEncoderLoop_total. cbn [tsize dsize] in *. lia.
    + unfold newArrayEncoder. destruct d; try ended.
      apply arrayEncoderLoop_total. cbn [tsize dsize] in *. lia.
    + unfold newPtrEncoder. destruct d as [| | | | | | | | |[x|]| | |]; try ended;
        apply rv_total; cbn [vsize tsize dsize] in *; [lia|].
      rewrite dsize_zero. lia.
    + unfold bigIntEncoder. destruct d; ended.
    + ended.
    + ended.
    + ended.
Qed.

End EncoderFuel.

Lemma reflectValue_total (h : Hooks) (fuel : nat) (e : encodeState) (v : Value) :
  (vsize v < fuel)%nat -> fst (reflectValue h fuel e v) <> OutOfFuel.
Proof.
  revert e v. induction fuel as [|fuel IH]; intros e [[t d]|] Hsz;
    cbn [reflectValue]; try ended.
  - cbn [vsize] in Hsz. lia.
  - apply (typeEncoder_total h (reflectValue h fuel) fuel).
    + intros e0 v0. apply IH.
    + cbn [vsize] in Hsz. lia.
Qed.

(** [Marshal] never stops for lack of fuel. *)
Lemma Marshal_total (h : Hooks) (v : Value) : Marshal h v <> OutOfFuel.
Proof.
  unfold Marshal, marshal.
  pose proof (reflectValue_total h (S (vsize v)) newEncodeState v (Nat.lt_succ_diag_r _)) as H.
  destruct (reflectValue h (S (vsize v)) newEncodeState v) as [[[err|]| | |] e];
    cbn [fst] in H; try discriminate. now contradiction H.
Qed.

(** ** The fuel of [Unmarshal] is enough *)

Ltac lens :=
  unfold unread, Reset, WriteByte, dWriteString, unreadByte in *;
  cbn [Scanner List.length] in *; try lia.

Lemma readByte_good d : rgood (fun _ => True) d (readByte d).
Proof.
  unfold rgood, readByte, unread.
  destruct (Scanner d) as [|b s] eqn:E; cbn [fst snd Scanner]; rewrite ?E;
    cbn [List.length]; repeat split; try discriminate; intros; lia.
Qed.

Lemma readUntilLoop_good sep s buf off :
  fst (readUntilLoop sep s buf off) <> OutOfFuel /\
  (unread (snd (readUntilLoop sep s buf off)) <= List.length s)%nat /\
  (forall u, fst (readUntilLoop sep s buf off) = Ret u ->
             (unread (snd (readUntilLoop sep s buf off)) < List.length s)%nat).
Proof.
  revert buf off. induction s as [|b s IH]; intros buf off; cbn [readUntilLoop].
  - cbn. repeat split; try discriminate. lia.
  - destruct (Ascii.eqb b sep).
    + cbn. repeat split; try discriminate; intros; lia.
    + destruct (IH (buf ++ [b]) (off + 1)) as (H1 & H2 & H3). cbn [List.length].
      repeat split; auto. intros u Hu. specialize (H3 u Hu). lia.
Qed.

Lemma readUntil_good d sep : rgood (fun _ => True) d (readUntil d sep).
Proof.
  unfold rgood, readUntil.
  destruct (readUntilLoop_good sep (Scanner d) (Buffer d) (Offset d)) as (H1 & H2 & H3).
  repeat split; auto. intros u Hu _. now apply (H3 u).
Qed.

Lemma readInt_good d : rgood (fun _ => True) d (readInt d).
Proof.
  unfold readInt. destruct (readUntil_good d "e"%char) as (H1 & H2 & H3).
  destruct (readUntil d "e"%char) as [[u| | |] d1]; cbn [fst snd] in *;
    try (unfold rgood; cbn [fst snd raise]; repeat split; auto; discriminate).
  specialize (H3 u eq_refl I).
  destruct (Buffer d1); unfold rgood; cbn [fst snd];
      repeat split; try discriminate; intros; lens.
Qed.

Lemma readStringLength_good d : rgood (fun _ => True) d (readStringLength d).
Proof.
  unfold readStringLength. destruct (readUntil_good d ":"%char) as (H1 & H2 & H3).
  destruct (readUntil d ":"%char) as [[u| | |] d1]; cbn [fst snd] in *;
    try (unfold rgood; cbn [fst snd raise]; repeat split; auto; discriminate).
  specialize (H3 u eq_refl I).
  destruct (strconv.ParseInt _); unfold rgood; cbn [fst snd];
      repeat split; try discriminate; intros; lens.
Qed.

Lemma skipn_length_le {A : Type} (n : nat) (l : list A) :
  (List.length (skipn n l) <= List.length l)%nat.
Proof. rewrite length_skipn. lia. Qed.

Lemma readLength_good d length : rgood (fun _ => False) d (readLength d length).
Proof.
  unfold rgood, readLength, unread. destruct (length <? 0); cbn [fst snd].
  - repeat split; try discriminate; try lia; contradiction.
  - destruct (_ <? length); cbn [fst snd Scanner];
      repeat split; try discriminate; try apply skipn_length_le; contradiction.
Qed.

(** Closes a goal [rgood] or [pgood] on a result that is spelled out. *)
Ltac good :=
  unfold rgood, pgood; cbn [fst snd raise];
  repeat split; try discriminate; try assumption; intros; subst;
  repeat match goal with
         | H : Ret _ = Ret _ |- _ => inversion H; clear H; subst
         end;
  unfold noError in *; cbn [fst snd] in *;
  try contradiction; try congruence; lens.

Section ReadValueFuel.
Variable rec : decodeState -> rres bool.
Variable bound : nat.
Hypothesis rec_good :
  forall d, (unread d < bound)%nat -> rgood (fun b => b = true) d (rec d).

Lemma readValueLoop_good n d :
  (unread d < n)%nat -> (unread d < bound)%nat ->
  rgood (fun _ => False) d (readValueLoop rec n d).
Proof.
  revert d. induction n as [|n IH]; intros d Hn Hb; [lia|]. cbn [readValueLoop].
  destruct (rec_good d Hb) as (H1 & H2 & H3).
  destruct (rec d) as [[[]| | |] d1]; cbn [fst snd] in *;
    try (now contradiction H1); try (now good).
  specialize (H3 true eq_refl eq_refl).
  destruct (IH d1) as (G1 & G2 & G3); try lia. good.
Qed.

Lemma readValueBody_good n d :
  (n <= bound)%nat -> (unread d <= n)%nat ->
  rgood (fun b => b = true) d (readValueBody rec n d).
Proof.
  intros Hnb Hn. unfold readValueBody.
  destruct (readByte_good d) as (H1 & H2 & H3).
  destruct (readByte d) as [[b| | |] d1]; cbn [fst snd] in *;
    try (now contradiction H1); try (now good).
  specialize (H3 b eq_refl I).
  destruct (Ascii.eqb b "e"%char).
  { unfold rgood; cbn [fst snd]. repeat split; try discriminate; lens.
    intros a Ha Hb. inversion Ha; subst. discriminate. }
  assert (Hw : unread (WriteByte d1 b) = unread d1) by reflexivity.
  destruct (_ || _).
  - destruct (readValueLoop_good n (WriteByte d1 b)) as (G1 & G2 & G3); try (rewrite Hw; lia).
    destruct (readValueLoop rec n (WriteByte d1 b)) as [[u| | |] d2]; cbn [fst snd] in *;
      try (now contradiction G1); try (now good).
    destruct (readByte_good d2) as (K1 & K2 & K3).
    destruct (readByte d2) as [[b2| | |] d3]; cbn [fst snd] in *;
      try (now contradiction K1); try (now good).
  - destruct (Ascii.eqb b "i"%char).
    + destruct (readUntil_good (WriteByte d1 b) "e"%char) as (G1 & G2 & G3).
      destruct (readUntil (WriteByte d1 b) "e"%char) as [[u| | |] d2]; cbn [fst snd] in *;
        try (now contradiction G1); try (now good).
    + destruct (strconv.isDigit b); [|now good].
      destruct (readUntil_good (WriteByte d1 b) ":"%char) as (G1 & G2 & G3).
      destruct (readUntil (WriteByte d1 b) ":"%char) as [[u| | |] d2]; cbn [fst snd] in *;
        try (now contradiction G1); try (now good).
      destruct (strconv.ParseInt _) as [e|length]; [now good|].
      cbn [dWriteString Scanner Buffer Offset].
      pose proof (skipn_length_le (Z.to_nat length) (Scanner d2)) as Hsk.
      destruct (_ <? length); good.
Qed.

End ReadValueFuel.

Lemma readValue_good fuel d :
  (unread d < fuel)%nat -> rgood (fun b => b = true) d (readValue fuel d).
Proof.
  revert d. induction fuel as [|fuel IH]; intros d Hf; [lia|]. cbn [readValue].
  apply (readValueBody_good (readValue fuel) fuel); auto. lia.
Qed.

Lemma bigIntDecoder_good d t v : pgood (fun _ => False) d (bigIntDecoder d t v).
Proof.
  unfold bigIntDecoder. destruct (readInt_good d) as (H1 & H2 & H3).
  destruct (readInt d) as [[s| | |] d1]; cbn [fst snd] in *;
    try (now contradiction H1); try (now good).
  destruct s; [now good|]. destruct (SetString _); [|now good]. destruct t; good.
Qed.

Lemma parseByteString_good d t v : pgood (fun _ => False) d (parseByteString d t v).
Proof.
  unfold parseByteString. destruct (readStringLength_good d) as (H1 & H2 & H3).
  destruct (readStringLength d) as [[length| | |] d1]; cbn [fst snd] in *;
    try (now contradiction H1); try (now good).
  destruct (readLength_good d1 length) as (G1 & G2 & G3).
  destruct (readLength d1 length) as [[b| | |] d2]; cbn [fst snd] in *;
    try (now contradiction G1); try (now good).
  destruct (setByteString t v b). good.
Qed.

Lemma parseInteger_good d t v : pgood (fun _ => False) d (parseInteger d t v).
Proof.
  unfold parseInteger. destruct (readInt_good d) as (H1 & H2 & H3).
  destruct (readInt d) as [[s| | |] d1]; cbn [fst snd] in *;
    try (now contradiction H1); try (now good).
  assert (Hbig : forall t', pgood (fun _ => False) d (bigIntDecoder d1 t' v)).
  { intros t'. destruct (bigIntDecoder_good d1 t' v) as (G1 & G2 & G3).
    unfold pgood. repeat split; auto; try lia; try (intros; contradiction). }
  destruct t; try (now good); try (now apply Hbig);
    try (destruct (strconv.ParseInt s); [now good|];
         first [ now good | destruct (OverflowInt _ _); now good ]);
    try (destruct (strconv.ParseUint s); [now good|];
         destruct (OverflowUint _ _); now good).
  destruct v as [| | | | | | | | |[]| | |]; destruct t; try (now good); now apply Hbig.
Qed.

Section ParseFuel.
Variable h : Hooks.

Lemma unmarshalerDecoder_good n d t v :
  (unread d < n)%nat ->
  pgood (fun err => err = None) d (unmarshalerDecoder h n d t v).
Proof.
  intros Hn. unfold unmarshalerDecoder.
  assert (Hgen : forall id,
    pgood (fun err => err = None) d
      match readValue n (Reset d) with
      | (Ret false, d0) => (Ret (Some ErrA), v, d0)
      | (Ret true, d0) =>
          let '(o0, v'0) := UnmarshalBencode h id v (Buffer d0) in (ofCall o0, v'0, d0)
      | (o0, d0) => (raise o0, v, d0)
      end).
  { intros id. destruct (readValue_good n (Reset d) Hn) as (H1 & H2 & H3).
    destruct (readValue n (Reset d)) as [[[]| | |] d1]; cbn [fst snd] in *;
      try (now contradiction H1); try (now good).
    specialize (H3 true eq_refl eq_refl).
    destruct (UnmarshalBencode h id v (Buffer d1)) as [[a| |] v0]; good. }
  destruct t; try (now good); try (now apply Hgen).
  destruct t; try (now good); now apply Hgen.
Qed.

Variable rec : decodeState -> rtype -> data -> pres (bool * option Error).
Variable bound : nat.
Hypothesis rec_good :
  forall d t v, (unread d < bound)%nat -> pgood noError d (rec d t v).

Lemma parseSliceLoop_good n d et done :
  (unread d < n)%nat -> (unread d < bound)%nat ->
  pgood (fun _ => False) d (parseSliceLoop h rec n d et done).
Proof.
  revert d done. induction n as [|n IH]; intros d done Hn Hb; [lia|].
  cbn [parseSliceLoop].
  destruct (rec_good d et (zero h et) Hb) as (H1 & H2 & H3).
  destruct (rec d et (zero h et)) as [[[[[] [err|]]| | |] x1] d1]; cbn [fst snd] in *;
    try (now contradiction H1); try (now good).
  specialize (H3 (false, None) eq_refl eq_refl).
  destruct (IH d1 (done ++ [x1])) as (G1 & G2 & G3); try lia. good.
Qed.

Lemma parseArrayLoop_good d et done todo :
  (unread d < bound)%nat ->
  pgood (fun _ => False) d (parseArrayLoop h rec d et done todo).
Proof.
  revert d done. induction todo as [|x todo IH]; intros d done Hb; cbn [parseArrayLoop].
  - good.
  - destruct (rec_good d et x Hb) as (H1 & H2 & H3).
    destruct (rec d et x) as [[[[[] [err|]]| | |] x1] d1]; cbn [fst snd] in *;
      try (now contradiction H1); try (now good).
    + destruct (IH d1 (done ++ [x1])) as (G1 & G2 & G3); try lia. good.
    + destruct (IH d1 (done ++ [zero h et])) as (G1 & G2 & G3); try lia. good.
Qed.

Lemma parseList_good n d t v :
  (unread d < n)%nat -> (unread d < bound)%nat ->
  pgood (fun _ => False) d (parseList h rec n d t v).
Proof.
  intros Hn Hb. unfold parseList. destruct t; try (now good).
  - now apply parseSliceLoop_good.
  - destruct v; try (now good). now apply parseArrayLoop_good.
Qed.

Lemma parseDictLoop_good n settable d t v :
  (unread d < n)%nat -> (unread d < bound)%nat ->
  pgood (fun _ => False) d (parseDictLoop h rec n settable d t v).
Proof.
  revert d v. induction n as [|n IH]; intros d v Hn Hb; [lia|].
  cbn [parseDictLoop].
  destruct (rec_good d String_ (DString []) Hb) as (H1 & H2 & H3).
  destruct (rec d String_ (DString [])) as [[[[[] [err|]]| | |] k] d1]; cbn [fst snd] in *;
    try (now contradiction H1); try (now good).
  specialize (H3 (true, None) eq_refl eq_refl).
  assert (Hloop : forall v0 d2, (unread d2 <= unread d1)%nat ->
            pgood (fun _ => False) d (parseDictLoop h rec n settable d2 t v0)).
  { intros v0 d2 Hd2. destruct (IH d2 v0) as (G1 & G2 & G3); try lia. good. }
  assert (Hstruct : forall fs,
    pgood (fun _ => False) d
      match getStructFieldForKey fs (match k with DString s0 => s0 | _ => [] end) with
      | None => (Ret (Some ErrEmptyMessage), v, d1)
      | Some sf =>
          if negb (bytes_eqb (PkgPath (sf_r sf)) [])
          then (Ret (Some ErrEmptyMessage), v, d1)
          else
            match v with
            | DStruct ds =>
                match nth_error ds (sf_index sf) with
                | Some value =>
                    match rec d1 (Typ (sf_r sf)) value with
                    | (Ret (_, Some err), x, d0) =>
                        (Ret (Some (newParseError
                           (match k with DString s0 => s0 | _ => [] end) err)),
                         DStruct (setNth ds (sf_index sf) x), d0)
                    | (Ret (false, None), x, d0) =>
                        (Ret (Some (ErrMissingValue
                           (match k with DString s0 => s0 | _ => [] end))),
                         DStruct (setNth ds (sf_index sf) x), d0)
                    | (Ret (true, None), x, d0) =>
                        parseDictLoop h rec n settable d0 t
                          (DStruct (setNth ds (sf_index sf) x))
                    | (o0, x, d0) =>
                        (raise o0, DStruct (setNth ds (sf_index sf) x), d0)
                    end
                | None => (PanicErr ErrReflectValue, v, d1)
                end
            | _ => (PanicErr ErrReflectValue, v, d1)
            end
      end).
  { intros fs. destruct (getStructFieldForKey fs _) as [sf|]; [|now good].
    destruct (negb _); [now good|]. destruct v; try (now good).
    destruct (nth_error _ _) as [value|]; [|now good].
    destruct (rec_good d1 (Typ (sf_r sf)) value) as (G1 & G2 & G3); [lia|].
    destruct (rec d1 (Typ (sf_r sf)) value) as [[[[[] [err|]]| | |] x2] d2];
      cbn [fst snd] in *; try (now contradiction G1); try (now good).
    now apply Hloop. }
  destruct t; try (apply Hloop; lia); try (now apply Hstruct).
  destruct v; try (now good).
  destruct (rec_good d1 t2 (zero h t2)) as (G1 & G2 & G3); [lia|].
  destruct (rec d1 t2 (zero h t2)) as [[[[[] [err|]]| | |] x2] d2];
    cbn [fst snd] in *; try (now contradiction G1); try (now good).
  destruct m as [m|]; [|destruct settable; [|now good]];
    (destruct (convertibleKey t1); [now apply Hloop|now good]).
Qed.

Lemma parseDict_good n d t v :
  (unread d < n)%nat -> (unread d < bound)%nat ->
  pgood (fun _ => False) d (parseDict h rec n d t v).
Proof.
  intros Hn Hb. unfold parseDict.
  destruct t; try (now apply parseDictLoop_good).
  destruct (parseDictLoop_good n false d (Map String_ Interface) (DMap None) Hn Hb)
    as (G1 & G2 & G3).
  destruct (parseDictLoop h rec n false d _ _) as [[o1 x1] d1]. cbn [fst snd] in *. good.
Qed.

Lemma parseValueElem_good n d t v :
  (n <= bound)%nat -> (unread d <= n)%nat ->
  pgood noError d (parseValueElem h rec n d t v).
Proof.
  intros Hnb Hn. unfold parseValueElem. destruct (hasHook t).
  - destruct (unmarshalerDecoder_good (S n) d t v) as (H1 & H2 & H3); [lia|].
    destruct (unmarshalerDecoder h (S n) d t v) as [[[[err|]| | |] x1] d1];
      cbn [fst snd] in *; try (now contradiction H1); try (now good).
    specialize (H3 None eq_refl eq_refl). good.
  - destruct (readByte_good d) as (H1 & H2 & H3).
    destruct (readByte d) as [[b| | |] d1]; cbn [fst snd] in *;
      try (now contradiction H1); try (now good).
    specialize (H3 b eq_refl I).
    assert (Hsub : forall r : pres (option Error),
              pgood (fun _ => False) d1 r ->
              pgood noError d
                match r with
                | (Ret err, v0, d0) => (Ret (true, err), v0, d0)
                | (o, v0, d0) => (raise o, v0, d0)
                end).
    { intros [[o1 x1] d2] (G1 & G2 & G3). cbn [fst snd] in *.
      destruct o1; try (now contradiction G1); good. }
    destruct (Ascii.eqb b "e"%char); [now good|].
    destruct (Ascii.eqb b "d"%char); [apply Hsub, parseDict_good; lia|].
    destruct (Ascii.eqb b "l"%char); [apply Hsub, parseList_good; lia|].
    destruct (Ascii.eqb b "i"%char); [apply Hsub, parseInteger_good|].
    destruct (strconv.isDigit b); [|now good].
    apply Hsub. destruct (parseByteString_good (WriteByte (Reset d1) b) t v) as (G1 & G2 & G3).
    good.
Qed.

Lemma parseValueBody_good n d t v :
  (n <= bound)%nat -> (unread d <= n)%nat ->
  pgood noError d (parseValueBody h rec n d t v).
Proof.
  intros Hnb Hn. unfold parseValueBody.
  destruct t; try (now apply parseValueElem_good).
  match goal with
  | |- context [parseValueElem h rec n d ?t0 ?v0] =>
      destruct (parseValueElem_good n d t0 v0 Hnb Hn) as (G1 & G2 & G3);
      destruct (parseValueElem h rec n d t0 v0) as [[o1 x1] d1]
  end.
  cbn [fst snd] in *. good.
Qed.

End ParseFuel.

Lemma parseValue_good (h : Hooks) fuel d t v :
  (unread d < fuel)%nat -> pgood noError d (parseValue h fuel d t v).
Proof.
  revert d t v. induction fuel as [|fuel IH]; intros d t v Hf; [lia|]. cbn [parseValue].
  apply (parseValueBody_good h (parseValue h fuel) fuel); auto. lia.
Qed.

(** [Unmarshal] never stops for lack of fuel. *)
Lemma Unmarshal_total (h : Hooks) (data : bytes) (v : Value) :
  fst (Unmarshal h data v) <> OutOfFuel.
Proof.
  unfold Unmarshal, unmarshal. cbn [Scanner].
  destruct v as [[t x]|]; [|discriminate].
  destruct t; try discriminate. destruct x as [| | | | | | | | |[x|]| | |]; try discriminate.
  destruct (parseValue_good h (S (List.length data))
              (mkDecodeState [] data 0) t x (Nat.lt_succ_diag_r _)) as (G1 & _).
  destruct (parseValue h (S (List.length data)) _ t x) as [[o x1] d1]. cbn [fst snd] in G1.
  destruct o as [[[] [err|]]| | |]; try discriminate. now contradiction G1.
Qed.

(** * Further properties

    What the code does beyond the statements above: the error and edge
    behaviour of the decoder, the two field indexes, emptiness, the shape of
    what the encoder writes, the hooks, and the round trips that hold. *)

(** ** Inputs that start no value *)








(** ** Integers into other targets *)

(** [readInt] on a payload, with the cursor it leaves. *)
Lemma readInt_exact (payload rest : bytes) (off : Z) :
  ~ In "e"%char payload ->
  readInt (mkDecodeState [] (payload ++ "e"%char :: rest) off) =
    (Ret payload, mkDecodeState [] rest (off + len payload + 1)).
Proof.
  intros Hno. unfold readInt, readUntil. cbn [Scanner Buffer Offset].
  rewrite readUntilLoop_stop by exact Hno. cbn [Buffer app].
  destruct payload; [reflexivity|]. now rewrite bytesAsString_id.
Qed.

(** [parseValueElem] on an integer hands the cursor after the ['i'] to
    [parseInteger]. *)
Lemma parseValueElem_i (h : Hooks) rec (n : nat) (buf s : bytes) (off : Z)
    (t : rtype) (v : data) :
  hasHook t = false ->
  parseValueElem h rec n (mkDecodeState buf ("i"%char :: s) off) t v =
    match parseInteger (mkDecodeState buf s (off + 1)) t v with
    | (Ret err, v, d) => (Ret (true, err), v, d)
    | (o, v, d) => (raise o, v, d)
    end.
Proof. intros Hh. unfold parseValueElem. rewrite Hh. reflexivity. Qed.

(** X3: decoding an integer into a bool target never fails and does not check
    the payload: the target becomes false when the payload is exactly [0] and
    true for every other payload, the empty one and the non-numeric ones
    included. *)
Theorem Unmarshal_bool (h : Hooks) (payload rest : bytes) (x : data) :
  ~ In "e"%char payload ->
  Unmarshal h (B "i" ++ payload ++ B "e" ++ rest) (target Bool x) =
    (Ret None, target Bool (DBool (negb (bytes_eqb payload (B "0"))))).
Proof.
  intros Hno. unfold Unmarshal, unmarshal, target. cbn [Scanner].
  cbn [parseValue parseValueBody].
  change (B "i" ++ payload ++ B "e" ++ rest) with ("i"%char :: payload ++ "e"%char :: rest).
  rewrite parseValueElem_i by reflexivity.
  unfold parseInteger. rewrite readInt_exact by exact Hno. reflexivity.
Qed.

Lemma Unmarshal_bool_witness :
  Unmarshal noHooks (B "i" ++ B "-7" ++ B "e" ++ []) (target Bool (DBool false)) =
    (Ret None, target Bool (DBool true)) /\
  Unmarshal noHooks (B "i" ++ [] ++ B "e" ++ []) (target Bool (DBool false)) =
    (Ret None, target Bool (DBool true)).
Proof.
  split.
  - apply (Unmarshal_bool noHooks (B "-7") [] (DBool false)).
    cbn. intros [E|[E|[]]]; discriminate E.
  - apply (Unmarshal_bool noHooks [] [] (DBool false)). intros [].
Defined.

(** big.Int: the integer is read twice. *)
Lemma bigInt_alone (h : Hooks) (p1 : bytes) (x : data) :
  ~ In "e"%char p1 ->
  Unmarshal h (B "i" ++ p1 ++ B "e") (target BigInt x) =
    (Ret (Some (newSyntaxError (len p1 + 2) EOF)), target BigInt x).
Proof.
  intros H1. unfold Unmarshal, unmarshal, target. cbn [Scanner].
  cbn [parseValue parseValueBody].
  change (B "i" ++ p1 ++ B "e") with ("i"%char :: p1 ++ "e"%char :: []).
  rewrite parseValueElem_i by reflexivity.
  unfold parseInteger, bigIntDecoder. rewrite readInt_exact by exact H1.
  unfold readInt, readUntil. cbn [Scanner Buffer Offset readUntilLoop raise].
  replace (0 + 1 + len p1 + 1) with (len p1 + 2) by lia. reflexivity.
Qed.

(** X4: decoding into a [big.Int] target reads the integer twice:
    [parseInteger] consumes the first integer and [bigIntDecoder] reads again.
    An input that holds one integer only fails with the EOF syntax error at its
    end; on [i<p1>e<p2>e] the target receives the value of [p2], or the call
    fails with the empty-message error when [p2] is not a signed decimal. *)
Theorem Unmarshal_bigInt_reads_twice (h : Hooks) (p1 p2 rest : bytes) (x : data) :
  ~ In "e"%char p1 -> ~ In "e"%char p2 ->
  Unmarshal h (B "i" ++ p1 ++ B "e") (target BigInt x) =
    (Ret (Some (newSyntaxError (len p1 + 2) EOF)), target BigInt x) /\
  Unmarshal h (B "i" ++ p1 ++ B "e" ++ p2 ++ B "e" ++ rest) (target BigInt x) =
    match SetString p2 with
    | Some bi => (Ret None, target BigInt (DBig bi))
    | None => (Ret (Some ErrEmptyMessage), target BigInt x)
    end.
Proof.
  intros H1 H2. split; [now apply bigInt_alone|].
  unfold Unmarshal, unmarshal, target. cbn [Scanner].
  cbn [parseValue parseValueBody].
  change (B "i" ++ p1 ++ B "e" ++ p2 ++ B "e" ++ rest)
    with ("i"%char :: p1 ++ "e"%char :: p2 ++ "e"%char :: rest).
  rewrite parseValueElem_i by reflexivity.
  unfold parseInteger, bigIntDecoder. rewrite readInt_exact by exact H1.
  rewrite readInt_exact by exact H2.
  destruct p2 as [|c p2]; [reflexivity|].
  destruct (SetString (c :: p2)); reflexivity.
Qed.

Lemma Unmarshal_bigInt_reads_twice_witness :
  Unmarshal noHooks (B "i" ++ B "5" ++ B "e") (target BigInt (DBig 0)) =
    (Ret (Some (newSyntaxError (len (B "5") + 2) EOF)), target BigInt (DBig 0)) /\
  Unmarshal noHooks (B "i" ++ B "5" ++ B "e" ++ B "77" ++ B "e" ++ []) (target BigInt (DBig 0)) =
    (Ret None, target BigInt (DBig 77)).
Proof.
  apply (Unmarshal_bigInt_reads_twice noHooks (B "5") (B "77") [] (DBig 0));
    cbn; intuition discriminate.
Defined.

(** X6: decoding an integer into an [interface{}] target stores the value as
    an [int64] when the payload is a signed decimal in the range of [int64],
    and otherwise fails with the cannot-unmarshal error and leaves the target
    as it was. *)
Theorem Unmarshal_integer_into_interface (h : Hooks) (payload rest : bytes) (x : data) :
  ~ In "e"%char payload ->
  Unmarshal h (B "i" ++ payload ++ B "e" ++ rest) (target Interface x) =
    match signedValue payload with
    | Some n =>
        if fitsInt 64 n
        then (Ret None, target Interface (DIface (Some (Int 64, DInt n))))
        else (Ret (Some ErrCannotUnmarshal), target Interface x)
    | None => (Ret (Some ErrCannotUnmarshal), target Interface x)
    end.
Proof.
  intros Hno. unfold Unmarshal, unmarshal, target. cbn [Scanner].
  cbn [parseValue parseValueBody].
  change (B "i" ++ payload ++ B "e" ++ rest) with ("i"%char :: payload ++ "e"%char :: rest).
  rewrite parseValueElem_i by reflexivity.
  unfold parseInteger. rewrite readInt_exact by exact Hno.
  pose proof (ParseInt_spec payload) as H.
  destruct (signedValue payload) as [n|].
  - rewrite H. destruct (fitsInt 64 n); reflexivity.
  - destruct H as [e ->]. reflexivity.
Qed.

Lemma Unmarshal_integer_into_interface_witness :
  Unmarshal noHooks (B "i" ++ B "-42" ++ B "e" ++ []) (target Interface (DIface None)) =
    (Ret None, target Interface (DIface (Some (Int 64, DInt (-42))))).
Proof.
  apply (Unmarshal_integer_into_interface noHooks (B "-42") [] (DIface None)).
  cbn; intuition discriminate.
Defined.

(** X7: decoding an integer into a target whose kind [parseInteger] has no
    case for (string, struct other than [big.Int], map, slice, array, uintptr,
    float, complex, chan, func) fails with the error of [newUnknownType] and
    leaves the target as it was. *)
Theorem Unmarshal_integer_unknown_type (h : Hooks) (payload rest : bytes)
    (t : rtype) (x : data) :
  ~ In "e"%char payload -> noIntegerCase t = true -> hasHook t = false ->
  Unmarshal h (B "i" ++ payload ++ B "e" ++ rest) (target t x) =
    (Ret (Some newUnknownType), target t x).
Proof.
  intros Hno Ht Hh. unfold Unmarshal, unmarshal, target. cbn [Scanner].
  change (B "i" ++ payload ++ B "e" ++ rest) with ("i"%char :: payload ++ "e"%char :: rest).
  destruct t; try discriminate Ht; cbn [parseValue parseValueBody];
    rewrite parseValueElem_i by exact Hh;
    unfold parseInteger; rewrite readInt_exact by exact Hno; reflexivity.
Qed.

Lemma Unmarshal_integer_unknown_type_witness :
  Unmarshal noHooks (B "i" ++ B "5" ++ B "e" ++ []) (target String_ (DString [])) =
    (Ret (Some newUnknownType), target String_ (DString [])).
Proof.
  apply (Unmarshal_integer_unknown_type noHooks (B "5") [] String_ (DString []));
    [cbn; intuition discriminate | reflexivity | reflexivity].
Defined.

(** ** Byte strings: framing and targets *)

Lemma digit_not_letter (c : ascii) :
  strconv.isDigit c = true ->
  Ascii.eqb c "e"%char = false /\ Ascii.eqb c "d"%char = false /\
  Ascii.eqb c "l"%char = false /\ Ascii.eqb c "i"%char = false.
Proof.
  intros Hd. apply isDigit_spec in Hd.
  repeat split; apply Ascii.eqb_neq; intros ->;
    match type of Hd with
    | _ <= byteval ?c <= _ =>
        let v := eval vm_compute in (byteval c) in
        change (byteval c) with v in Hd
    end; lia.
Qed.

(** [parseValueElem] on a digit hands the cursor to [parseByteString], the
    digit in the scratch buffer. *)
Lemma parseValueElem_digit (h : Hooks) rec (n : nat) (buf s : bytes) (off : Z)
    (c : ascii) (t : rtype) (v : data) :
  hasHook t = false -> strconv.isDigit c = true ->
  parseValueElem h rec n (mkDecodeState buf (c :: s) off) t v =
    match parseByteString (mkDecodeState [c] s (off + 1)) t v with
    | (Ret err, v, d) => (Ret (true, err), v, d)
    | (o, v, d) => (raise o, v, d)
    end.
Proof.
  intros Hh Hc. unfold parseValueElem. rewrite Hh.
  destruct (digit_not_letter c Hc) as (He & Hd & Hl & Hi).
  cbn [readByte Scanner Buffer Offset]. rewrite He, Hd, Hl, Hi, Hc. reflexivity.
Qed.

Lemma readStringLength_exact (c : ascii) (junk rest : bytes) (off : Z) :
  ~ In ":"%char junk ->
  readStringLength (mkDecodeState [c] (junk ++ ":"%char :: rest) off) =
    match strconv.ParseInt (c :: junk) with
    | inl err => (PanicErr (ErrNum err), mkDecodeState [] rest (off + len junk + 1))
    | inr n => (Ret n, mkDecodeState [] rest (off + len junk + 1))
    end.
Proof.
  intros Hno. unfold readStringLength, readUntil. cbn [Scanner Buffer Offset].
  rewrite readUntilLoop_stop by exact Hno. cbn [Buffer app].
  rewrite bytesAsString_id.
  destruct (strconv.ParseInt (c :: junk)); reflexivity.
Qed.

Lemma decimalOf_nonneg_gen (s : bytes) (a v : Z) :
  0 <= a -> digitsValue s a = Some v -> 0 <= v.
Proof. intros Ha H. pose proof (digitsValue_ge s a v Ha H). lia. Qed.

(** A length that starts with a digit is not negative. *)
Lemma ParseInt_digit_nonneg (c : ascii) (junk : bytes) (n : Z) :
  strconv.isDigit c = true -> strconv.ParseInt (c :: junk) = inr n -> 0 <= n.
Proof.
  intros Hc H. pose proof (ParseInt_spec (c :: junk)) as S.
  assert (Hm : Ascii.eqb c "-"%char = false).
  { apply Ascii.eqb_neq. intros ->. discriminate Hc. }
  assert (Hp : Ascii.eqb c "+"%char = false).
  { apply Ascii.eqb_neq. intros ->. discriminate Hc. }
  unfold signedValue in S. rewrite Hm, Hp in S. unfold unsignedValue in S.
  rewrite <- digitsValue_decimalOf in S.
  destruct (digitsValue (c :: junk) 0) as [v|] eqn:E.
  - pose proof (decimalOf_nonneg_gen _ _ _ (Z.le_refl 0) E).
    rewrite H in S. destruct (fitsInt 64 v); congruence.
  - destruct S as [e S]. congruence.
Qed.

(** X8: a byte string whose length prefix [strconv.ParseInt] rejects fails
    with that error of [strconv]; one whose declared length (a length that
    [make] can allocate) exceeds the bytes that remain fails with [io.EOF] when
    nothing remains and with [io.ErrUnexpectedEOF] otherwise.  In both cases
    nothing is stored (a nil pointer target has been allocated). *)
Theorem Unmarshal_string_framing (h : Hooks) (c : ascii) (junk rest : bytes)
    (t : rtype) (x : data) :
  strconv.isDigit c = true -> ~ In ":"%char junk -> hasHook (pointee t) = false ->
  (forall err, strconv.ParseInt (c :: junk) = inl err ->
     Unmarshal h (c :: junk ++ ":"%char :: rest) (target t x) =
       (Ret (Some (ErrNum err)), target t (untouched h t x))) /\
  (forall n, strconv.ParseInt (c :: junk) = inr n -> len rest < n <= maxAlloc ->
     Unmarshal h (c :: junk ++ ":"%char :: rest) (target t x) =
       (Ret (Some (ErrIO (match rest with [] => EOF | _ => ErrUnexpectedEOF end))),
        target t (untouched h t x))).
Proof.
  intros Hc Hno Hh. split.
  - intros err E. unfold Unmarshal, unmarshal, target. cbn [Scanner].
    cbn [parseValue]. unfold parseValueBody.
    destruct t; cbn [pointee] in Hh;
      rewrite parseValueElem_digit by assumption;
      unfold parseByteString; rewrite readStringLength_exact by exact Hno;
      rewrite E; reflexivity.
  - intros n E Hlen. pose proof (ParseInt_digit_nonneg c junk n Hc E) as Hn.
    assert (Hr : forall buf off,
               readLength (mkDecodeState buf rest off) n =
                 (PanicErr (ErrIO (match rest with [] => EOF | _ => ErrUnexpectedEOF end)),
                  mkDecodeState buf [] (off + len rest))).
    { intros buf off. unfold readLength. cbn [Scanner Buffer Offset].
      destruct (Z.ltb_spec n 0); [lia|].
      assert (Hall : (List.length rest <= Z.to_nat n)%nat) by (unfold len in Hlen; lia).
      rewrite firstn_all2, skipn_all2 by exact Hall.
      destruct (Z.ltb_spec (len rest) n); [|lia]. reflexivity. }
    unfold Unmarshal, unmarshal, target. cbn [Scanner].
    cbn [parseValue]. unfold parseValueBody.
    destruct t; cbn [pointee] in Hh;
      rewrite parseValueElem_digit by assumption;
      unfold parseByteString; rewrite readStringLength_exact by exact Hno;
      rewrite E, Hr; reflexivity.
Qed.

Lemma Unmarshal_string_framing_witness :
  Unmarshal noHooks ("5"%char :: [] ++ ":"%char :: B "abc") (target String_ (DString [])) =
    (Ret (Some (ErrIO ErrUnexpectedEOF)), target String_ (DString [])) /\
  Unmarshal noHooks ("1"%char :: B "x" ++ ":"%char :: B "abc") (target String_ (DString [])) =
    (Ret (Some (ErrNum strconv.ErrSyntax)), target String_ (DString [])).
Proof.
  split.
  - apply (proj2 (Unmarshal_string_framing noHooks "5"%char [] (B "abc") String_ (DString [])
                    eq_refl (fun H => H) eq_refl) 5); [reflexivity | vm_compute; intuition discriminate].
  - apply (proj1 (Unmarshal_string_framing noHooks "1"%char (B "x") (B "abc") String_ (DString [])
                    eq_refl ltac:(cbn; intuition discriminate) eq_refl)).
    reflexivity.
Defined.

Lemma Unmarshal_bencString_any (h : Hooks) (s rest : bytes) (t : rtype) (x : data) :
  hasHook t = false -> kind t <> KPtr -> len s < 2 ^ 63 ->
  Unmarshal h (bencString s ++ rest) (target t x) =
    (Ret (fst (setByteString t x s)), target t (snd (setByteString t x s))).
Proof.
  intros Hh Hk Hs. unfold Unmarshal, unmarshal, target. cbn [Scanner].
  cbn [parseValue]. unfold parseValueBody.
  destruct t; try (exfalso; apply Hk; reflexivity);
    match goal with
    | |- context [parseValueElem _ ?R ?N _ ?T ?V] =>
        destruct (parseValueElem_bencString h R N [] s rest 0 T V Hh Hs) as (d' & -> & _)
    end;
    destruct (setByteString _ x s) as [[err|] x']; reflexivity.
Qed.

(** X9: decoding a byte string stores it as text in a string target, as a
    fresh byte slice in a [[]byte] target and as a string in an [interface{}]
    target; for a bool, integer, uintptr, struct, map, [big.Int], float or func
    target and for a slice or array whose elements are not bytes it fails with
    the cannot-unmarshal error and leaves the target as it was. *)
Theorem Unmarshal_byte_string (h : Hooks) (s rest : bytes) (x : data) :
  len s < 2 ^ 63 ->
  Unmarshal h (bencString s ++ rest) (target String_ x) =
    (Ret None, target String_ (DString s)) /\
  Unmarshal h (bencString s ++ rest) (target (Slice (Uint 8)) x) =
    (Ret None, target (Slice (Uint 8)) (DSlice (Some (map ofByte s)))) /\
  Unmarshal h (bencString s ++ rest) (target Interface x) =
    (Ret None, target Interface (DIface (Some (String_, DString s)))) /\
  (forall t, noStringCase t = true ->
     Unmarshal h (bencString s ++ rest) (target t x) =
       (Ret (Some ErrCannotUnmarshal), target t x)).
Proof.
  intros Hs. repeat split.
  - rewrite Unmarshal_bencString_any by (reflexivity || discriminate || exact Hs).
    cbn [setByteString fst snd]. now rewrite bytesAsString_id.
  - rewrite Unmarshal_bencString_any by (reflexivity || discriminate || exact Hs).
    reflexivity.
  - rewrite Unmarshal_bencString_any by (reflexivity || discriminate || exact Hs).
    cbn [setByteString fst snd]. now rewrite bytesAsString_id.
  - intros t Ht.
    assert (Hh : hasHook t = false) by (destruct t; try discriminate Ht; reflexivity).
    assert (Hk : kind t <> KPtr) by (destruct t; try discriminate Ht; discriminate).
    rewrite Unmarshal_bencString_any by assumption.
    destruct t; try discriminate Ht; cbn [setByteString fst snd]; try reflexivity;
      cbn [noStringCase] in Ht; apply negb_true_iff in Ht; rewrite Ht;
      try reflexivity; destruct x; reflexivity.
Qed.

Lemma Unmarshal_byte_string_witness :
  Unmarshal noHooks (bencString (B "ab") ++ []) (target (Slice (Uint 8)) (DSlice None)) =
    (Ret None, target (Slice (Uint 8)) (DSlice (Some [DUint 97; DUint 98]))) /\
  Unmarshal noHooks (bencString (B "ab") ++ []) (target (Int 64) (DInt 3)) =
    (Ret (Some ErrCannotUnmarshal), target (Int 64) (DInt 3)).
Proof.
  split.
  - apply (Unmarshal_byte_string noHooks (B "ab") [] (DSlice None)). reflexivity.
  - apply (Unmarshal_byte_string noHooks (B "ab") [] (DInt 3)); reflexivity.
Defined.

(** ** The two field indexes *)

Lemma encodeFieldsLoop_In (i : nat) (fs : list StructField)
    (current : list encodeStructField) (ef : encodeStructField) :
  In ef (encodeFieldsLoop i fs current) <->
  In ef current \/
  exists j f, nth_error fs j = Some f /\ ef_i ef = (i + j)%nat /\ encodable f = true /\
              ef_tag ef = wireKey f /\ ef_omitEmpty ef = OmitEmpty (getTag f).
Proof.
  revert i current. induction fs as [|f fs IH]; intros i current; cbn [encodeFieldsLoop].
  - split; [auto|]. intros [H|(j & f & H & _)]; [exact H|]. now destruct j.
  - assert (Hskip : encodable f = false ->
              (In ef (encodeFieldsLoop (S i) fs current) <->
               In ef current \/
               exists j g, nth_error (f :: fs) j = Some g /\ ef_i ef = (i + j)%nat /\
                           encodable g = true /\ ef_tag ef = wireKey g /\
                           ef_omitEmpty ef = OmitEmpty (getTag g))).
    { intros Hf. rewrite IH. split.
      - intros [H|(j & g & Hj & Hi & Hg)]; [now left|right].
        exists (S j), g. split; [exact Hj|]. split; [lia|exact Hg].
      - intros [H|(j & g & Hj & Hi & Hg)]; [now left|right].
        destruct j as [|j]; cbn [nth_error] in Hj.
        + inversion Hj; subst. destruct Hg as [Hg _]. congruence.
        + exists j, g. split; [exact Hj|]. split; [lia|exact Hg]. }
    unfold encodable in Hskip.
    destruct (bytes_eqb (PkgPath f) []) eqn:Ep; cbn [negb andb] in *; [|now apply Hskip].
    destruct (Anonymous f) eqn:Ea; cbn [negb andb] in *; [now apply Hskip|].
    destruct (Ignore (getTag f)) eqn:Ei; cbn [negb andb] in *; [now apply Hskip|].
    clear Hskip. rewrite IH. rewrite in_app_iff. cbn [In].
    assert (Hf : encodable f = true) by (unfold encodable; now rewrite Ep, Ea, Ei).
    split.
    + intros [[H|[H|[]]]|(j & g & Hj & Hi & Hg)].
      * now left.
      * right. exists 0%nat, f. cbn [nth_error]. split; [reflexivity|].
        subst ef. unfold wireKey.
        destruct (bytes_eqb (Key (getTag f)) []); cbn [negb ef_i ef_tag ef_omitEmpty];
          (split; [lia|]); auto.
      * right. exists (S j), g. split; [exact Hj|]. split; [lia|exact Hg].
    + intros [H|(j & g & Hj & Hi & Hg & Ht & Ho)]; [now left; left|].
      destruct j as [|j]; cbn [nth_error] in Hj.
      * inversion Hj; subst g. left. right. left.
        destruct ef as [ei et eo]. cbn [ef_i ef_tag ef_omitEmpty] in *. subst.
        unfold wireKey. rewrite Nat.add_0_r.
        destruct (bytes_eqb (Key (getTag f)) []); reflexivity.
      * right. exists j, g. split; [exact Hj|]. split; [lia|auto].
Qed.

Lemma encodeFieldsLoop_indexes (i : nat) (fs : list StructField)
    (current : list encodeStructField) :
  NoDup (map ef_i current) -> (forall ef, In ef current -> (ef_i ef < i)%nat) ->
  NoDup (map ef_i (encodeFieldsLoop i fs current)).
Proof.
  revert i current. induction fs as [|f fs IH]; intros i current Hnd Hlt;
    cbn [encodeFieldsLoop]; [exact Hnd|].
  assert (Hlt' : forall ef, In ef current -> (ef_i ef < S i)%nat)
    by (intros ef H; specialize (Hlt ef H); lia).
  destruct (negb (bytes_eqb (PkgPath f) [])); [now apply IH|].
  destruct (Anonymous f); [now apply IH|].
  destruct (Ignore (getTag f)); [now apply IH|].
  apply IH.
  - rewrite map_app. cbn [map].
    assert (Ei : forall a b : encodeStructField,
               ef_i (if negb (bytes_eqb (Key (getTag f)) []) then a else b) =
               if negb (bytes_eqb (Key (getTag f)) []) then ef_i a else ef_i b)
      by (intros; now destruct (negb _)).
    rewrite Ei. cbn [ef_i].
    replace (if negb (bytes_eqb (Key (getTag f)) []) then i else i) with i
      by (now destruct (negb _)).
    apply NoDup_app; [exact Hnd| |].
    + constructor; [intros []|constructor].
    + intros a Ha [<-|[]]. apply in_map_iff in Ha. destruct Ha as (ef & E & Ha).
      specialize (Hlt ef Ha). lia.
  - intros ef H. apply in_app_iff in H. destruct H as [H|[<-|[]]]; [now apply Hlt'|].
    destruct (negb _); cbn [ef_i]; lia.
Qed.

Lemma encodeFields_In (fs : list StructField) (ef : encodeStructField) :
  In ef (encodeFields fs) <-> entryOf fs ef.
Proof.
  unfold encodeFields, entryOf.
  assert (P : Permutation (sortSort Less (encodeFieldsLoop 0 fs []))
                (encodeFieldsLoop 0 fs [])) by apply sortSort_perm.
  split.
  - intros H. apply (Permutation_in _ P) in H.
    apply encodeFieldsLoop_In in H. destruct H as [[]|(j & f & Hj & Hi & Hg)].
    exists f. cbn [Nat.add] in Hi. now rewrite Hi.
  - intros (f & Hj & Hg). apply (Permutation_in _ (Permutation_sym P)).
    apply encodeFieldsLoop_In. right. exists (ef_i ef), f. auto.
Qed.

Lemma encodeFields_NoDup (fs : list StructField) : NoDup (map ef_i (encodeFields fs)).
Proof.
  unfold encodeFields.
  apply (Permutation_NoDup (l := map ef_i (encodeFieldsLoop 0 fs []))).
  - apply Permutation_map, Permutation_sym, sortSort_perm.
  - apply encodeFieldsLoop_indexes; [constructor|intros ef []].
Qed.

(** X10: [encodeFields] lists exactly the fields that are exported, not
    embedded and whose tag does not start with the part [-]: each such field
    once, with its own index, under the key of its tag (its name when the tag
    gives no key) and with the [omitempty] flag of its tag. *)
Theorem encodeFields_lists_encodable_fields (fs : list StructField) :
  (forall ef, In ef (encodeFields fs) <-> entryOf fs ef) /\
  NoDup (map ef_i (encodeFields fs)).
Proof. split; [apply encodeFields_In | apply encodeFields_NoDup]. Qed.

Lemma getStructFieldForKey_last (fs1 fs2 : list StructField) (f : StructField) (key : bytes) :
  decodeKey f = Some key ->
  (forall g, In g fs2 -> decodeKey g <> Some key) ->
  getStructFieldForKey (fs1 ++ f :: fs2) key =
    Some (mkStructField f (List.length fs1) (parseTag (Tag f))).
Proof.
  intros Hf Hno. unfold getStructFieldForKey, decodeFields.
  rewrite decodeFieldsLoop_app. cbn [decodeFieldsLoop Nat.add].
  unfold decodeKey in Hf.
  destruct (Anonymous f); [discriminate|].
  destruct (bytes_eqb (Tag f) (B "-")); [discriminate|].
  rewrite decodeFieldsLoop_other by exact Hno.
  rewrite mapaccess_mapassign. inversion Hf as [Hk]. rewrite Hk.
  now rewrite bytes_eqb_refl.
Qed.

Lemma encodable_decodeKey (f : StructField) :
  encodable f = true -> decodeKey f = Some (wireKey f).
Proof.
  unfold encodable, decodeKey, wireKey, getTag. intros H.
  apply andb_true_iff in H. destruct H as [H Hi].
  apply andb_true_iff in H. destruct H as [_ Ha].
  apply negb_true_iff in Ha, Hi. rewrite Ha.
  destruct (bytes_eqb (Tag f) (B "-")) eqn:E; [|reflexivity].
  apply bytes_eqb_eq in E. rewrite E in Hi. discriminate Hi.
Qed.

Lemma getStructFieldForKey_encoded (fs : list StructField) (ef : encodeStructField)
    (f : StructField) :
  In ef (encodeFields fs) ->
  nth_error fs (ef_i ef) = Some f ->
  (forall j g, (ef_i ef < j)%nat -> nth_error fs j = Some g ->
               decodeKey g <> Some (ef_tag ef)) ->
  getStructFieldForKey fs (ef_tag ef) =
    Some (mkStructField f (ef_i ef) (parseTag (Tag f))).
Proof.
  intros Hin Hf Hlater.
  destruct (proj1 (encodeFields_In _ _) Hin) as (g & Hj & Hg & Ht & _).
  rewrite Hf in Hj. inversion Hj; subst g.
  destruct (nth_error_split fs (ef_i ef) Hf) as (fs1 & fs2 & -> & Hlen).
  rewrite <- Hlen, Ht. apply getStructFieldForKey_last.
  - now apply encodable_decodeKey.
  - intros g Hg2. apply In_nth_error in Hg2. destruct Hg2 as [k Hk].
    rewrite <- Ht. apply (Hlater (S (ef_i ef) + k)%nat); [lia|].
    rewrite <- Hlen. rewrite nth_error_app2 by lia.
    replace (S (List.length fs1) + k - List.length fs1)%nat with (S k) by lia.
    exact Hk.
Qed.

(** X11: the decoder finds the field that the encoder wrote: under the wire
    key that [encodeFields] gives a field, [getStructFieldForKey] returns that
    same field with its index, provided no later field is filed under the same
    key. *)
Theorem decoder_finds_encoded_field (fs : list StructField) (ef : encodeStructField)
    (f : StructField) :
  In ef (encodeFields fs) ->
  nth_error fs (ef_i ef) = Some f ->
  (forall j g, (ef_i ef < j)%nat -> nth_error fs j = Some g ->
               decodeKey g <> Some (ef_tag ef)) ->
  getStructFieldForKey fs (ef_tag ef) =
    Some (mkStructField f (ef_i ef) (parseTag (Tag f))).
Proof. apply getStructFieldForKey_encoded. Qed.

Lemma decoder_finds_encoded_field_witness :
  getStructFieldForKey fooFields (B "foo") =
    Some (mkStructField (mkField (B "Foo") [] false (B "foo") (Int 64)) 0
            (parseTag (B "foo"))).
Proof.
  apply (decoder_finds_encoded_field fooFields
           (mkEncodeStructField 0 (B "foo") false)
           (mkField (B "Foo") [] false (B "foo") (Int 64))).
  - left. reflexivity.
  - reflexivity.
  - intros j g Hj Hg. destruct j as [|[|j]]; cbn in Hg; (lia || discriminate).
Defined.

(** X12: a field tagged [bencode:"-,<options>"] is treated differently by
    the two sides: [encodeFields] skips it, the first part of its tag being
    [-], while [decodeFields], which compares the whole tag with [-], files it
    under the wire key [-]. *)
Theorem dash_with_options_asymmetry (fs1 fs2 : list StructField) (f : StructField)
    (opts : bytes) :
  Tag f = B "-," ++ opts -> Anonymous f = false ->
  (forall g, In g fs2 -> decodeKey g <> Some (B "-")) ->
  (forall ef, In ef (encodeFields (fs1 ++ f :: fs2)) -> ef_i ef <> List.length fs1) /\
  getStructFieldForKey (fs1 ++ f :: fs2) (B "-") =
    Some (mkStructField f (List.length fs1) (parseTag (Tag f))).
Proof.
  intros Ht Ha Hno.
  assert (Hp : exists tl, parseTag (Tag f) = B "-" :: tl).
  { rewrite Ht. unfold parseTag. cbn [B list_ascii_of_string app Split Ascii.eqb Bool.eqb andb].
    eexists. reflexivity. }
  destruct Hp as [tl Hp]. split.
  - intros ef Hin Hi.
    destruct (proj1 (encodeFields_In _ _) Hin) as (g & Hg & He & _).
    rewrite Hi, nth_error_app2, Nat.sub_diag in Hg by lia. cbn [nth_error] in Hg.
    inversion Hg; subst g. unfold encodable, getTag, Ignore in He.
    rewrite Hp in He. cbn [hd] in He. rewrite bytes_eqb_refl in He.
    rewrite andb_false_r in He. discriminate He.
  - apply getStructFieldForKey_last; [|exact Hno].
    unfold decodeKey. rewrite Ha.
    assert (E : bytes_eqb (Tag f) (B "-") = false).
    { apply bytes_eqb_neq. rewrite Ht. discriminate. }
    rewrite E. unfold Key. rewrite Hp. reflexivity.
Qed.

(** ** Emptiness and the zero value *)

Lemma data_children_ind (P : data -> Prop) :
  (forall d, (forall x, In x (children d) -> P x) -> P d) -> forall d, P d.
Proof.
  intros H. fix IH 1. intros d. apply H.
  destruct d as [v|n|n|s|[[t x]|]|ds|[m|]|[a|]|a|[p|]|z|payload|isZero];
    cbn [children]; try (intros ? Hx; exact (False_ind _ Hx)).
  - intros y [<-|[]]. apply IH.
  - induction ds as [|x ds IHds]; [intros y []|].
    intros y [<-|Hy]; [apply IH|now apply IHds].
  - induction m as [|[k x] m IHm]; [intros y []|].
    intros y [<-|Hy]; [apply IH|now apply IHm].
  - induction a as [|x a IHa]; [intros y []|].
    intros y [<-|Hy]; [apply IH|now apply IHa].
  - induction a as [|x a IHa]; [intros y []|].
    intros y [<-|Hy]; [apply IH|now apply IHa].
  - intros y [<-|[]]. apply IH.
Qed.

Section Emptiness.
Variable h : Hooks.
Hypothesis custom_zero : forall id ro p b,
  customIsEmpty h id ro p = Some b -> (b = true <-> p = customZero h id).


End Emptiness.

(** ** More fuel does not change what the encoder does *)

Section EncoderMono.
Variable h : Hooks.
Variables rv1 rv2 : encodeState -> Value -> eres.
Hypothesis rv_mono : forall e v, fst (rv1 e v) <> OutOfFuel -> rv2 e v = rv1 e v.

Lemma structEncoderLoop_mono efs (fs : list StructField) ds e :
  fst (structEncoderLoop h rv1 efs fs ds e) <> OutOfFuel ->
  structEncoderLoop h rv2 efs fs ds e = structEncoderLoop h rv1 efs fs ds e.
Proof.
  revert e. induction efs as [|ef efs IH]; intros e; cbn [structEncoderLoop]; [reflexivity|].
  destruct (nth_error fs (ef_i ef)) as [f|]; [|reflexivity].
  destruct (nth_error ds (ef_i ef)) as [x|]; [|reflexivity].
  destruct (if ef_omitEmpty ef then _ else _) as [[]|]; [apply IH| |reflexivity].
  match goal with
  | |- context [rv1 ?e1 ?v1] =>
      pose proof (rv_mono e1 v1) as Hrv; destruct (rv1 e1 v1) as [o1 e2] eqn:E1
  end.
  cbn [fst] in Hrv. intros Hne.
  destruct o1 as [[err|]| | |]; cbn [fst] in Hne;
    (rewrite Hrv by discriminate) || (now contradiction Hne); try reflexivity.
  now apply IH.
Qed.

Lemma mapEncoderLoop_mono sv kt et m e :
  fst (mapEncoderLoop rv1 sv kt et m e) <> OutOfFuel ->
  mapEncoderLoop rv2 sv kt et m e = mapEncoderLoop rv1 sv kt et m e.
Proof.
  revert e. induction sv as [|key sv IH]; intros e; cbn [mapEncoderLoop]; [reflexivity|].
  cbn [stringEncoder].
  match goal with
  | |- context [rv1 ?e1 ?v1] =>
      pose proof (rv_mono e1 v1) as Hrv; destruct (rv1 e1 v1) as [o1 e2] eqn:E1
  end.
  cbn [fst] in Hrv. intros Hne.
  destruct o1 as [[err|]| | |]; cbn [fst] in Hne;
    (rewrite Hrv by discriminate) || (now contradiction Hne); try reflexivity.
  now apply IH.
Qed.

Lemma arrayEncoderLoop_mono et a e :
  fst (arrayEncoderLoop rv1 et a e) <> OutOfFuel ->
  arrayEncoderLoop rv2 et a e = arrayEncoderLoop rv1 et a e.
Proof.
  revert e. induction a as [|x a IH]; intros e; cbn [arrayEncoderLoop]; [reflexivity|].
  pose proof (rv_mono e (Some (et, x))) as Hrv.
  destruct (rv1 e (Some (et, x))) as [o1 e2] eqn:E1.
  cbn [fst] in Hrv. intros Hne.
  destruct o1 as [[err|]| | |]; cbn [fst] in Hne;
    (rewrite Hrv by discriminate) || (now contradiction Hne); try reflexivity.
  now apply IH.
Qed.

Lemma typeEncoder_mono t d e :
  fst (typeEncoder h rv1 t e t d) <> OutOfFuel ->
  typeEncoder h rv2 t e t d = typeEncoder h rv1 t e t d.
Proof.
  unfold typeEncoder, newTypeEncoder.
  destruct (hasHook t) eqn:Eh; [reflexivity|].
  destruct t; cbn [kind]; try reflexivity.
  - unfold interfaceEncoder. destruct d; try reflexivity. apply rv_mono.
  - unfold newStructEncoder. destruct d; try reflexivity. apply structEncoderLoop_mono.
  - unfold newMapEncoder. destruct d; try reflexivity.
    destruct (kind t1); try reflexivity. destruct m; [|reflexivity].
    apply mapEncoderLoop_mono.
  - unfold newSliceEncoder. destruct d; try reflexivity.
    destruct (isUint8 t); [reflexivity|]. destruct s; [|reflexivity].
    unfold newArrayEncoder. apply arrayEncoderLoop_mono.
  - unfold newArrayEncoder. destruct d; try reflexivity. apply arrayEncoderLoop_mono.
  - unfold newPtrEncoder. destruct d as [| | | | | | | | |[x|]| | |]; try reflexivity;
      apply rv_mono.
Qed.

End EncoderMono.

Lemma reflectValue_step (h : Hooks) (fuel : nat) (e : encodeState) (v : Value) :
  fst (reflectValue h fuel e v) <> OutOfFuel ->
  reflectValue h (S fuel) e v = reflectValue h fuel e v.
Proof.
  revert e v. induction fuel as [|fuel IH]; intros e [[t d]|] Hne; try reflexivity.
  - now contradiction Hne.
  - change (typeEncoder h (reflectValue h (S fuel)) t e t d =
              typeEncoder h (reflectValue h fuel) t e t d).
    apply typeEncoder_mono; [|exact Hne].
    intros e0 v0 H0. now apply IH.
Qed.

Lemma reflectValue_more (h : Hooks) (fuel k : nat) (e : encodeState) (v : Value) :
  fst (reflectValue h fuel e v) <> OutOfFuel ->
  reflectValue h (k + fuel) e v = reflectValue h fuel e v.
Proof.
  intros Hne. induction k as [|k IH]; [reflexivity|].
  cbn [Nat.add]. rewrite reflectValue_step; [exact IH|]. now rewrite IH.
Qed.

(** Above the size of the value the fuel does not matter. *)
Lemma reflectValue_enough (h : Hooks) (fuel : nat) (e : encodeState) (v : Value) :
  (vsize v < fuel)%nat ->
  reflectValue h fuel e v = reflectValue h (S (vsize v)) e v.
Proof.
  intros Hsz. replace fuel with ((fuel - S (vsize v)) + S (vsize v))%nat by lia.
  apply reflectValue_more, reflectValue_total. lia.
Qed.

Lemma reflectValue_any (h : Hooks) (fuel : nat) (e : encodeState) (v : Value) :
  fst (reflectValue h fuel e v) <> OutOfFuel ->
  reflectValue h fuel e v = reflectValue h (S (vsize v)) e v.
Proof.
  intros Hne.
  rewrite <- (reflectValue_more h fuel (S (vsize v)) e v Hne).
  replace (S (vsize v) + fuel)%nat with (fuel + S (vsize v))%nat by lia.
  apply reflectValue_more, reflectValue_total. lia.
Qed.

(** [Marshal] in terms of [reflectValue] on any buffer, with any fuel above
    the size of the value. *)
Lemma Marshal_ok_iff (h : Hooks) (fuel : nat) (e : encodeState) (v : Value) (out : bytes) :
  (vsize v < fuel)%nat ->
  Marshal h v = Ret (inl out) <-> reflectValue h fuel e v = (Ret None, Write e out).
Proof.
  intros Hsz. unfold Marshal, marshal.
  rewrite (reflectValue_enough h fuel e v Hsz).
  destruct (reflectValue h (S (vsize v)) newEncodeState v) as [o e0] eqn:E0.
  destruct (reflectValue_frames h (S (vsize v)) v _ _ _ E0) as (w & Hw & Hall).
  rewrite (Hall e). subst e0. split.
  - destruct o as [[err|]| | |]; intros H; inversion H. reflexivity.
  - intros H. inversion H as [[Ho Hb]]. apply app_inv_head in Hb. now subst.
Qed.

Lemma Marshal_err_iff (h : Hooks) (fuel : nat) (e : encodeState) (v : Value) (err : Error) :
  (vsize v < fuel)%nat ->
  Marshal h v = Ret (inr err) <-> exists e', reflectValue h fuel e v = (Ret (Some err), e').
Proof.
  intros Hsz. unfold Marshal, marshal.
  rewrite (reflectValue_enough h fuel e v Hsz).
  destruct (reflectValue h (S (vsize v)) newEncodeState v) as [o e0] eqn:E0.
  destruct (reflectValue_frames h (S (vsize v)) v _ _ _ E0) as (w & Hw & Hall).
  rewrite (Hall e). split.
  - destruct o as [[err'|]| | |]; intros H; inversion H. eexists; reflexivity.
  - intros [e' H]. inversion H. reflexivity.
Qed.

Lemma encodes_Marshal (h : Hooks) (v : Value) (out : bytes) :
  encodes h v out <-> Marshal h v = Ret (inl out).
Proof.
  unfold encodes. split.
  - intros [fuel H].
    assert (Hne : fst (reflectValue h fuel newEncodeState v) <> OutOfFuel)
      by (rewrite H; discriminate).
    rewrite (reflectValue_any h fuel _ _ Hne) in H.
    unfold Marshal, marshal. now rewrite H.
  - intros H. exists (S (vsize v)).
    apply (Marshal_ok_iff h (S (vsize v)) newEncodeState v out) in H; [|lia].
    exact H.
Qed.

(** X14: [reflectValue] only appends: on any buffer it ends the way it ends on
    an empty buffer, and it leaves the buffer as it was, followed by the bytes
    that it writes on an empty buffer. *)
Theorem reflectValue_appends (h : Hooks) (fuel : nat) (e : encodeState) (v : Value) :
  reflectValue h fuel e v =
    (fst (reflectValue h fuel newEncodeState v),
     Write e (eBuffer (snd (reflectValue h fuel newEncodeState v)))).
Proof.
  destruct (reflectValue h fuel newEncodeState v) as [o e0] eqn:E0.
  destruct (reflectValue_frames h fuel v _ _ _ E0) as (w & Hw & Hall).
  rewrite (Hall e). subst e0. reflexivity.
Qed.

Lemma Marshal_ptr (h : Hooks) (t : rtype) (x : data) :
  hasHook (Ptr t) = false ->
  Marshal h (Some (Ptr t, DPtr (Some x))) = Marshal h (Some (t, x)).
Proof.
  intros Hh. unfold Marshal, marshal. cbn [vsize tsize dsize Nat.add reflectValue].
  unfold typeEncoder, newTypeEncoder. rewrite Hh. cbn [kind newPtrEncoder].
  reflexivity.
Qed.

Lemma Marshal_nil_ptr (h : Hooks) (t : rtype) :
  hasHook (Ptr t) = false ->
  Marshal h (Some (Ptr t, DPtr None)) = Marshal h (Some (t, zero h t)).
Proof.
  intros Hh. unfold Marshal, marshal. cbn [vsize tsize dsize Nat.add reflectValue].
  unfold typeEncoder, newTypeEncoder. rewrite Hh. cbn [kind newPtrEncoder].
  rewrite dsize_zero, Nat.add_0_r. reflexivity.
Qed.

Lemma Marshal_interface (h : Hooks) (v : Value) :
  Marshal h (Some (Interface, DIface v)) = Marshal h v.
Proof.
  unfold Marshal, marshal.
  change (reflectValue h (S (vsize (Some (Interface, DIface v)))) newEncodeState
            (Some (Interface, DIface v)))
    with (reflectValue h (vsize (Some (Interface, DIface v))) newEncodeState v).
  rewrite (reflectValue_enough h (vsize (Some (Interface, DIface v)))); [reflexivity|].
  destruct v as [[t x]|]; cbn [vsize tsize dsize]; lia.
Qed.

(** X15: [Marshal] sees through indirections: for a type without the
    [Marshaler] hook a non-nil pointer encodes as its pointee and a nil pointer
    as the zero value of the pointee type; an interface value encodes as the
    value it holds (the invalid-value error when it holds none). *)
Theorem Marshal_sees_through_indirections (h : Hooks) :
  (forall t x, hasHook (Ptr t) = false ->
     Marshal h (Some (Ptr t, DPtr (Some x))) = Marshal h (Some (t, x))) /\
  (forall t, hasHook (Ptr t) = false ->
     Marshal h (Some (Ptr t, DPtr None)) = Marshal h (Some (t, zero h t))) /\
  (forall v, Marshal h (Some (Interface, DIface v)) = Marshal h v).
Proof.
  split; [|split].
  - apply Marshal_ptr.
  - apply Marshal_nil_ptr.
  - apply Marshal_interface.
Qed.

(** ** Lists *)

Lemma arrayEncoderLoop_ok (h : Hooks) (fuel : nat) (et : rtype) (a : list data)
    (e e' : encodeState) :
  (forall x, In x a -> (vsize (Some (et, x)) < fuel)%nat) ->
  arrayEncoderLoop (reflectValue h fuel) et a e = (Ret None, e') <->
  exists encs,
    Forall2 (fun x enc => Marshal h (Some (et, x)) = Ret (inl enc)) a encs /\
    e' = Write e (List.concat encs ++ B "e").
Proof.
  revert e. induction a as [|x a IH]; intros e Hsz; cbn [arrayEncoderLoop].
  - split.
    + intros H. inversion H. exists []. split; [constructor|reflexivity].
    + intros (encs & HF & ->). inversion HF. reflexivity.
  - assert (Hx : (vsize (Some (et, x)) < fuel)%nat) by (apply Hsz; now left).
    assert (Ha : forall y, In y a -> (vsize (Some (et, y)) < fuel)%nat)
      by (intros y Hy; apply Hsz; now right).
    destruct (reflectValue h fuel e (Some (et, x))) as [o1 e1] eqn:E1. split.
    + intros H.
      destruct (reflectValue_frames h fuel _ _ _ _ E1) as (w & -> & _).
      destruct o1 as [[err|]| | |]; try discriminate H.
      apply (Marshal_ok_iff h fuel e _ w Hx) in E1.
      apply (IH _ Ha) in H. destruct H as (encs & HF & ->).
      exists (w :: encs). split; [now constructor|].
      rewrite Write_app. cbn [List.concat]. now rewrite <- app_assoc.
    + intros (encs & HF & ->). inversion HF as [|x0 enc a0 encs0 Hm HF']; subst.
      apply (Marshal_ok_iff h fuel e _ enc Hx) in Hm. rewrite Hm in E1.
      inversion E1; subst. apply (IH _ Ha). exists encs0. split; [exact HF'|].
      rewrite Write_app. cbn [List.concat]. now rewrite <- app_assoc.
Qed.

Lemma list_elems_fuel (et : rtype) (a : list data) (x : data) :
  In x a -> (vsize (Some (et, x)) < S (tsize et) + list_sum (map dsize a))%nat.
Proof.
  intros Hin. pose proof (In_sum dsize a x Hin). cbn [vsize]. lia.
Qed.

(** X16: [Marshal] of a non-nil slice whose elements are not bytes, and of an
    array of any element type (bytes included), succeeds exactly when every
    element marshals; its output is ['l'], the outputs of the elements in
    order, ['e']. *)
Theorem Marshal_list (h : Hooks) (et : rtype) (a : list data) (out : bytes) :
  (isUint8 et = false ->
   (Marshal h (Some (Slice et, DSlice (Some a))) = Ret (inl out) <->
    listEncoding h et a out)) /\
  (forall n, Marshal h (Some (Array n et, DArray a)) = Ret (inl out) <->
             listEncoding h et a out).
Proof.
  assert (G : forall e',
             arrayEncoderLoop (reflectValue h (S (tsize et) + list_sum (map dsize a))) et a
               (WriteString newEncodeState (B "l")) = (Ret None, e') <->
             exists encs,
               Forall2 (fun x enc => Marshal h (Some (et, x)) = Ret (inl enc)) a encs /\
               e' = Write (WriteString newEncodeState (B "l")) (List.concat encs ++ B "e")).
  { intros e'. apply arrayEncoderLoop_ok. intros x Hx. now apply list_elems_fuel. }
  assert (K : forall r : eres,
             (forall e', r = (Ret None, e') <->
                exists encs,
                  Forall2 (fun x enc => Marshal h (Some (et, x)) = Ret (inl enc)) a encs /\
                  e' = Write (WriteString newEncodeState (B "l")) (List.concat encs ++ B "e")) ->
             match r with
             | (Ret (Some err), _) => Ret (inr err)
             | (Ret None, e) => Ret (inl (eBuffer e))
             | (PanicErr err, _) => PanicErr err
             | (PanicOther, _) => PanicOther
             | (OutOfFuel, _) => OutOfFuel
             end = Ret (inl out) <-> listEncoding h et a out).
  { intros [o e1] Hr. unfold listEncoding. split.
    - destruct o as [[err|]| | |]; intros H; inversion H; subst.
      destruct (proj1 (Hr e1) eq_refl) as (encs & HF & ->).
      exists encs. split; [exact HF|reflexivity].
    - intros (encs & HF & ->).
      assert (E : (o, e1) = (Ret None, Write (WriteString newEncodeState (B "l"))
                                         (List.concat encs ++ B "e")))
        by (apply Hr; exists encs; auto).
      inversion E; subst. reflexivity. }
  split.
  - intros Hu. unfold Marshal, marshal. cbn [vsize tsize dsize reflectValue].
    unfold typeEncoder, newTypeEncoder. cbn [hasHook kind newSliceEncoder].
    rewrite Hu. cbn [newArrayEncoder]. apply K, G.
  - intros n. unfold Marshal, marshal. cbn [vsize tsize dsize reflectValue].
    unfold typeEncoder, newTypeEncoder. cbn [hasHook kind newArrayEncoder].
    apply K, G.
Qed.

Lemma arrayEncoderLoop_first_error (h : Hooks) (fuel : nat) (et : rtype)
    (a1 a2 : list data) (x : data) (err : Error) (e : encodeState) :
  (forall y, In y (a1 ++ x :: a2) -> (vsize (Some (et, y)) < fuel)%nat) ->
  Forall (fun y => exists enc, Marshal h (Some (et, y)) = Ret (inl enc)) a1 ->
  Marshal h (Some (et, x)) = Ret (inr err) ->
  exists e', arrayEncoderLoop (reflectValue h fuel) et (a1 ++ x :: a2) e = (Ret (Some err), e').
Proof.
  revert e. induction a1 as [|y a1 IH]; intros e Hsz HF Hx; cbn [app arrayEncoderLoop].
  - assert (Hf : (vsize (Some (et, x)) < fuel)%nat) by (apply Hsz; now left).
    apply (Marshal_err_iff h fuel e _ err Hf) in Hx. destruct Hx as [e' ->].
    exists e'. reflexivity.
  - inversion HF as [|y0 a0 [enc Hy] HF']; subst.
    assert (Hf : (vsize (Some (et, y)) < fuel)%nat) by (apply Hsz; now left).
    apply (Marshal_ok_iff h fuel e _ enc Hf) in Hy. rewrite Hy.
    apply IH; auto. intros z Hz. apply Hsz. now right.
Qed.

(** X17: [Marshal] of a slice stops at the first element that fails: when the
    elements before it marshal and it fails with an error, [Marshal] of the
    slice returns that error. *)
Theorem Marshal_list_first_error (h : Hooks) (et : rtype) (a1 a2 : list data)
    (x : data) (err : Error) :
  isUint8 et = false ->
  Forall (fun y => exists enc, Marshal h (Some (et, y)) = Ret (inl enc)) a1 ->
  Marshal h (Some (et, x)) = Ret (inr err) ->
  Marshal h (Some (Slice et, DSlice (Some (a1 ++ x :: a2)))) = Ret (inr err).
Proof.
  intros Hu HF Hx. unfold Marshal, marshal. cbn [vsize tsize dsize reflectValue].
  unfold typeEncoder, newTypeEncoder. cbn [hasHook kind newSliceEncoder].
  rewrite Hu. cbn [newArrayEncoder].
  destruct (arrayEncoderLoop_first_error h
              (S (tsize et) + list_sum (map dsize (a1 ++ x :: a2))) et a1 a2 x err
              (WriteString newEncodeState (B "l"))) as [e' ->]; auto.
  intros y Hy. now apply list_elems_fuel.
Qed.

Lemma Marshal_list_first_error_witness :
  Marshal noHooks (Some (Slice Interface,
                         DSlice (Some ([DIface (Some (Int 64, DInt 1))] ++
                                       DIface None :: [DIface (Some (Int 64, DInt 2))]))))
    = Ret (inr ErrInvalidValueEncoder).
Proof.
  apply (Marshal_list_first_error noHooks Interface
           [DIface (Some (Int 64, DInt 1))] [DIface (Some (Int 64, DInt 2))]
           (DIface None) ErrInvalidValueEncoder).
  - reflexivity.
  - constructor; [|constructor]. eexists. reflexivity.
  - reflexivity.
Defined.

(** X18: [Marshal] returns the unsupported-type error for every value of a
    float, complex, chan or func type and for every map whose key kind is not
    string (the nil map included), and the invalid-value error for a nil
    [interface{}] argument. *)
Theorem Marshal_unsupported (h : Hooks) :
  (forall d, Marshal h (Some (Other, d)) = Ret (inr (ErrUnsupportedType Other))) /\
  (forall d, Marshal h (Some (Func, d)) = Ret (inr (ErrUnsupportedType Func))) /\
  (forall kt et m, kind kt <> KString ->
     Marshal h (Some (Map kt et, DMap m)) = Ret (inr (ErrUnsupportedType (Map kt et)))) /\
  Marshal h None = Ret (inr ErrInvalidValueEncoder).
Proof.
  repeat split.
  intros kt et m Hk. unfold Marshal, marshal. cbn [vsize reflectValue].
  unfold typeEncoder, newTypeEncoder. cbn [hasHook kind newMapEncoder].
  destruct (kind kt); try reflexivity. now contradiction Hk.
Qed.

(** ** [readValue] and the [Unmarshaler] hook *)

Lemma bencString_digit (s : bytes) :
  len s < 2 ^ 63 ->
  exists c ds, bencString s = c :: ds ++ ":"%char :: s /\
               strconv.isDigit c = true /\ ~ In ":"%char ds /\
               strconv.ParseInt (c :: ds) = inr (len s).
Proof.
  intros Hs. unfold bencString, strconv.AppendInt. pose proof (len_nonneg s) as Hl.
  destruct (Z.ltb_spec (len s) 0); [lia|]. cbn [app].
  destruct (FormatUint_spec (len s) Hl) as (c & ds & E & HF & HV).
  pose proof (ParseInt_FormatUint (len s) (conj Hl Hs)) as HP.
  rewrite E in *. exists c, ds. cbn [app]. split; [reflexivity|].
  inversion HF; subst. split; [assumption|]. split; [now apply digits_no_colon|exact HP].
Qed.

Lemma skipn_app_length {A : Type} (a b : list A) : skipn (List.length a) (a ++ b) = b.
Proof. induction a; cbn; auto. Qed.

Section ReadValueOk.
Variable rec : decodeState -> rres bool.
Variable bound : nat.
Hypothesis rec_ok : forall v buf rest off,
  wellFormed v -> (List.length (render v) < bound)%nat ->
  exists off', rec (mkDecodeState buf (render v ++ rest) off) =
                 (Ret true, mkDecodeState (buf ++ render v) rest off').
Hypothesis rec_e : forall buf rest off, (1 <= bound)%nat ->
  exists off', rec (mkDecodeState buf ("e"%char :: rest) off) =
                 (Ret false, mkDecodeState buf ("e"%char :: rest) off').

Lemma readValueLoop_items (items : list bvalue) (n : nat) (buf rest : bytes) (off : Z) :
  fold_right (fun x acc => wellFormed x /\ acc) True items ->
  (List.length (flat_map render items) < bound)%nat ->
  (List.length items < n)%nat ->
  exists off',
    readValueLoop rec n (mkDecodeState buf (flat_map render items ++ "e"%char :: rest) off) =
      (Ret tt, mkDecodeState (buf ++ flat_map render items) ("e"%char :: rest) off').
Proof.
  revert n buf off. induction items as [|x items IH]; intros n buf off Hwf Hlen Hn.
  - destruct n as [|n]; [cbn in Hn; lia|]. cbn [flat_map app readValueLoop].
    destruct (rec_e buf rest off) as [off' ->]; [lia|]. exists off'. now rewrite app_nil_r.
  - destruct n as [|n]; [cbn in Hn; lia|]. cbn [flat_map readValueLoop].
    destruct Hwf as [Hx Hwf]. cbn [flat_map] in Hlen. rewrite length_app in Hlen.
    rewrite <- app_assoc.
    destruct (rec_ok x buf (flat_map render items ++ "e"%char :: rest) off Hx) as [off1 ->];
      [lia|].
    destruct (IH n (buf ++ render x) off1 Hwf) as [off' ->]; [lia|cbn in Hn; lia|].
    exists off'. now rewrite <- app_assoc.
Qed.

Lemma readValueBody_ok (v : bvalue) (n : nat) (buf rest : bytes) (off : Z) :
  wellFormed v -> (List.length (render v) <= bound)%nat -> (List.length (render v) <= n)%nat ->
  exists off',
    readValueBody rec n (mkDecodeState buf (render v ++ rest) off) =
      (Ret true, mkDecodeState (buf ++ render v) rest off').
Proof.
  intros Hwf Hb Hn. unfold readValueBody.
  assert (Hcont : forall (c : ascii) (items : list bvalue),
             Ascii.eqb c "e"%char = false ->
             Ascii.eqb c "d"%char || Ascii.eqb c "l"%char = true ->
             fold_right (fun x acc => wellFormed x /\ acc) True items ->
             (List.length (c :: flat_map render items ++ B "e") <= bound)%nat ->
             (List.length (c :: flat_map render items ++ B "e") <= n)%nat ->
             exists off',
               match readByte (mkDecodeState buf ((c :: flat_map render items ++ B "e") ++ rest) off) with
               | (Ret b, d) =>
                   if Ascii.eqb b "e"%char then (Ret false, unreadByte d b)
                   else
                     let d := WriteByte d b in
                     if Ascii.eqb b "d"%char || Ascii.eqb b "l"%char then
                       match readValueLoop rec n d with
                       | (Ret _, d) =>
                           match readByte d with
                           | (Ret b, d) => (Ret true, WriteByte d b)
                           | (o, d) => (raise o, d)
                           end
                       | (o, d) => (raise o, d)
                       end
                     else (Ret false, d)
               | (o, d) => (raise o, d)
               end = (Ret true, mkDecodeState (buf ++ c :: flat_map render items ++ B "e") rest off')).
  { intros c items He Hdl Hi Hb' Hn'. cbn [app readByte Scanner Buffer Offset].
    rewrite He, Hdl. cbn [Buffer Scanner Offset].
    cbn [List.length] in Hb', Hn'. rewrite length_app in Hb', Hn'. cbn [B list_ascii_of_string List.length] in Hb', Hn'.
    rewrite <- app_assoc. cbn [B list_ascii_of_string app].
    unfold WriteByte at 1. cbn [Buffer Scanner Offset].
    destruct (readValueLoop_items items n (buf ++ [c]) rest (off + 1) Hi) as [off1 ->].
    - lia.
    - assert (List.length items <= List.length (flat_map render items))%nat; [|lia].
      clear - Hi. induction items as [|x items IH]; cbn [flat_map List.length]; [lia|].
      destruct Hi as [Hx Hi]. rewrite length_app. specialize (IH Hi).
      assert (1 <= List.length (render x))%nat; [|lia].
      destruct x; cbn [render List.length]; try lia.
      destruct (bencString_digit s Hx) as (c0 & ds & -> & _). cbn [List.length]. lia.
    - cbn [readByte Scanner Buffer Offset]. unfold WriteByte.
      cbn [Buffer Scanner Offset]. eexists.
      repeat (rewrite <- app_assoc; cbn [app]). reflexivity. }
  destruct v as [payload|s|items|items]; cbn [render wellFormed] in *.
  - (* integer *)
    cbn [app readByte Scanner Buffer Offset Ascii.eqb Bool.eqb andb orb].
    unfold readUntil, WriteByte. cbn [Scanner Buffer Offset]. rewrite <- app_assoc.
    cbn [B list_ascii_of_string app].
    rewrite readUntilLoop_stop by exact Hwf.
    unfold dWriteString. cbn [Buffer Scanner Offset]. eexists.
    repeat (rewrite <- app_assoc; cbn [app]). reflexivity.
  - (* byte string *)
    destruct (bencString_digit s Hwf) as (c & ds & -> & Hc & Hno & HP).
    destruct (digit_not_letter c Hc) as (He & Hd & Hl & Hi).
    cbn [app readByte Scanner Buffer Offset]. rewrite He, Hd, Hl, Hi, Hc.
    cbn [orb]. unfold readUntil, WriteByte.
    cbn [Scanner Buffer Offset]. rewrite <- app_assoc. cbn [app].
    rewrite readUntilLoop_stop by exact Hno.
    unfold dWriteString. cbn [Buffer Scanner Offset].
    rewrite length_app. cbn [List.length].
    replace (List.length buf + 1 - 1)%nat with (List.length buf) by lia.
    rewrite <- app_assoc, skipn_app_length. cbn [app].
    rewrite bytesAsString_id, HP. rewrite firstn_len_app, skipn_len_app.
    destruct (Z.ltb_spec (len s) (len s)); [lia|]. eexists.
    repeat (rewrite <- app_assoc; cbn [app]). reflexivity.
  - destruct (Hcont "l"%char items eq_refl eq_refl Hwf Hb Hn) as [off' E].
    exists off'. cbn [Ascii.eqb Bool.eqb andb orb] in E. exact E.
  - destruct (Hcont "d"%char items eq_refl eq_refl Hwf Hb Hn) as [off' E].
    exists off'. cbn [Ascii.eqb Bool.eqb andb orb] in E. exact E.
Qed.

End ReadValueOk.

Lemma readValue_ok (fuel : nat) (v : bvalue) (buf rest : bytes) (off : Z) :
  wellFormed v -> (List.length (render v) < fuel)%nat ->
  exists off',
    readValue fuel (mkDecodeState buf (render v ++ rest) off) =
      (Ret true, mkDecodeState (buf ++ render v) rest off').
Proof.
  revert v buf rest off. induction fuel as [|fuel IH]; intros v buf rest off Hwf Hlen; [lia|].
  cbn [readValue]. apply (readValueBody_ok (readValue fuel) fuel); try assumption; try lia.
  intros buf0 rest0 off0 Hb. destruct fuel as [|k]; [lia|].
  cbn [readValue]. unfold readValueBody.
  cbn [readByte Scanner Buffer Offset Ascii.eqb Bool.eqb andb unreadByte].
  eexists. reflexivity.
Qed.

(** X20: [readValue] copies exactly one value: on an input that starts with a
    well-formed value (an integer whose payload has no ['e'], a byte string
    with its length, a list or a dict of such values) it returns true, appends
    the bytes of that value to the scratch buffer and leaves the cursor right
    after it. *)
Theorem readValue_copies_one_value (v : bvalue) (buf rest : bytes) (off : Z) :
  wellFormed v ->
  exists off',
    readValue (S (List.length (render v))) (mkDecodeState buf (render v ++ rest) off) =
      (Ret true, mkDecodeState (buf ++ render v) rest off').
Proof. intros Hwf. apply readValue_ok; [exact Hwf|lia]. Qed.

(** X21: [Unmarshal] into a type with the [Unmarshaler] hook hands the hook
    exactly the bytes of the first value of the input and ignores what follows;
    it returns the error of the hook (nil when the hook panics with a value
    that is not an error), and the target is what the hook leaves. *)
Theorem hook_receives_the_value (h : Hooks) (id : nat) (v : bvalue) (rest : bytes) (x : data) :
  wellFormed v ->
  Unmarshal h (render v ++ rest) (target (Custom id) x) =
    (Ret (hookError (fst (UnmarshalBencode h id x (render v)))),
     target (Custom id) (snd (UnmarshalBencode h id x (render v)))).
Proof.
  intros Hwf. unfold Unmarshal, unmarshal, target. cbn [Scanner].
  cbn [parseValue parseValueBody]. unfold parseValueElem. cbn [hasHook unmarshalerDecoder].
  unfold Reset. cbn [Scanner Buffer Offset].
  destruct (readValue_ok (S (List.length (render v ++ rest))) v [] rest 0 Hwf) as [off' ->].
  { rewrite length_app. lia. }
  cbn [Buffer app].
  destruct (UnmarshalBencode h id x (render v)) as [[[err|]| |] x']; reflexivity.
Qed.

(** ** Dicts into maps *)

Lemma parseValue_key (h : Hooks) (fuel : nat) (k rest : bytes) (off : Z) :
  len k < 2 ^ 63 ->
  exists off',
    parseValue h (S fuel) (mkDecodeState [] (bencString k ++ rest) off) String_ (DString []) =
      (Ret (true, None), DString k, mkDecodeState [] rest off').
Proof.
  intros Hk. cbn [parseValue parseValueBody].
  destruct (parseValueElem_bencString h (parseValue h fuel) fuel [] k rest off String_
              (DString []) eq_refl Hk) as (d' & -> & Hs & Hb).
  cbn [setByteString fst snd]. rewrite bytesAsString_id.
  destruct d' as [b s o]. cbn in Hs, Hb. subst. eexists. reflexivity.
Qed.

Lemma parseValue_end (h : Hooks) (fuel : nat) (buf rest : bytes) (off : Z)
    (t : rtype) (v : data) :
  hasHook t = false -> kind t <> KPtr ->
  parseValue h (S fuel) (mkDecodeState buf ("e"%char :: rest) off) t v =
    (Ret (false, None), v, mkDecodeState buf rest (off + 1)).
Proof.
  intros Hh Hk. cbn [parseValue]. unfold parseValueBody.
  destruct t; try (exfalso; apply Hk; reflexivity);
    unfold parseValueElem; rewrite Hh; reflexivity.
Qed.

Lemma assignAll_cons (m0 : option (list (bytes * data))) (k : bytes) (v : data)
    (kvs : list (bytes * data)) :
  assignAll (Some (mapassign (match m0 with None => [] | Some m => m end) k v)) kvs =
  assignAll m0 ((k, v) :: kvs).
Proof. destruct kvs; reflexivity. Qed.

Lemma parseDictLoop_map (h : Hooks) (fuel : nat) (kt et : rtype)
    (kvs : list (bytes * data)) :
  forall (encs : list bytes) (n : nat) (m0 : option (list (bytes * data)))
         (rest : bytes) (off : Z),
  convertibleKey kt = true ->
  Forall2 (fun kv enc => len (fst kv) < 2 ^ 63 /\ decodesTo h et enc (snd kv) /\
                         (List.length enc < fuel)%nat) kvs encs ->
  (1 <= fuel)%nat -> (List.length kvs < n)%nat ->
  exists off',
    parseDictLoop h (parseValue h fuel) n true
      (mkDecodeState [] (dictBody (combine (map fst kvs) encs) ++ "e"%char :: rest) off)
      (Map kt et) (DMap m0) =
    (Ret None, DMap (assignAll m0 kvs), mkDecodeState [] rest off').
Proof.
  induction kvs as [|[k v] kvs IH]; intros encs n m0 rest off Hc HF Hf Hn.
  - inversion HF; subst. destruct n as [|n]; [cbn in Hn; lia|].
    destruct fuel as [|fuel]; [lia|].
    cbn [map combine dictBody flat_map app parseDictLoop].
    rewrite parseValue_end by (reflexivity || discriminate).
    eexists. reflexivity.
  - inversion HF as [|kv enc kvs0 encs0 (Hk & Hd & Hl) HF']; subst.
    destruct n as [|n]; [cbn in Hn; lia|].
    destruct fuel as [|fuel]; [lia|].
    cbn [map combine fst]. rewrite dictBody_cons. cbn [parseDictLoop].
    repeat rewrite <- app_assoc.
    destruct (parseValue_key h fuel k
                (enc ++ dictBody (combine (map fst kvs) encs0) ++ "e"%char :: rest) off Hk)
      as [off1 ->].
    destruct (Hd (S fuel) (dictBody (combine (map fst kvs) encs0) ++ "e"%char :: rest) off1 Hl)
      as [off2 ->].
    rewrite Hc.
    destruct (IH encs0 n (Some (mapassign (match m0 with None => [] | Some m => m end) k v))
                rest off2 Hc HF' Hf) as [off' E]; [cbn in Hn; lia|].
    exists off'. rewrite assignAll_cons in E.
    destruct m0; exact E.
Qed.

Lemma dictBody_length (keys : list bytes) (encs : list bytes) (enc : bytes) :
  In enc encs -> List.length keys = List.length encs ->
  (List.length enc <= List.length (dictBody (combine keys encs)))%nat.
Proof.
  revert encs. induction keys as [|k keys IH]; intros [|e encs] Hin Hlen;
    try contradiction; try discriminate.
  cbn [combine]. rewrite dictBody_cons, !length_app.
  destruct Hin as [->|Hin]; [lia|].
  specialize (IH encs Hin). cbn in Hlen. lia.
Qed.

Lemma dictBody_entries (keys encs : list bytes) :
  List.length keys = List.length encs ->
  (List.length keys <= List.length (dictBody (combine keys encs)))%nat.
Proof.
  revert encs. induction keys as [|k keys IH]; intros [|e encs] Hlen;
    try discriminate; cbn [combine List.length]; [cbn; lia|].
  rewrite dictBody_cons, !length_app. specialize (IH encs). cbn in Hlen.
  unfold bencString. rewrite length_app. cbn [List.length]. lia.
Qed.

Lemma Forall2_within {A C : Type} (R Q : A -> C -> Prop) (l1 : list A) (l2 : list C) :
  (forall a c, In a l1 -> In c l2 -> R a c -> Q a c) ->
  Forall2 R l1 l2 -> Forall2 Q l1 l2.
Proof.
  intros H HF. induction HF as [|a c l1 l2 Hac HF IH]; constructor.
  - apply H; [now left|now left|exact Hac].
  - apply IH. intros a' c' Ha Hc. apply H; now right.
Qed.

(** X22: decoding a dict into a map assigns the entries in the order of the
    input: the keys need not be sorted, a repeated key keeps its last value,
    the entries already in the map are kept, and a nil map is made only when
    there is an entry to assign. *)
Theorem Unmarshal_map_assigns_in_order (h : Hooks) (kt et : rtype)
    (kvs : list (bytes * data)) (encs : list bytes)
    (m0 : option (list (bytes * data))) (rest : bytes) :
  convertibleKey kt = true ->
  Forall2 (fun kv enc => len (fst kv) < 2 ^ 63 /\ decodesTo h et enc (snd kv)) kvs encs ->
  Unmarshal h (dictBytes (combine (map fst kvs) encs) ++ rest) (target (Map kt et) (DMap m0)) =
    (Ret None, target (Map kt et) (DMap (assignAll m0 kvs))).
Proof.
  intros Hc HF. unfold Unmarshal, unmarshal, target. cbn [Scanner].
  cbn [parseValue parseValueBody]. unfold parseValueElem. cbn [hasHook].
  unfold dictBytes. cbn [B list_ascii_of_string app readByte Scanner Buffer Offset
                          Ascii.eqb Bool.eqb andb parseDict].
  rewrite <- app_assoc. cbn [app].
  set (body := dictBody (combine (map fst kvs) encs)).
  assert (Hlen : List.length (map fst kvs) = List.length encs)
    by (rewrite length_map; now apply Forall2_length in HF).
  set (F := List.length ("d"%char :: body ++ "e"%char :: rest)).
  assert (HF' : F = S (List.length body + S (List.length rest)))
    by (unfold F; cbn [List.length]; rewrite length_app; reflexivity).
  destruct (parseDictLoop_map h F kt et kvs encs F m0 rest (0 + 1) Hc) as [off' E];
    [| | |fold body in E; rewrite E; reflexivity].
  - eapply Forall2_within; [|exact HF].
    intros kv enc Hkv Henc [Hk Hd]. split; [exact Hk|]. split; [exact Hd|].
    pose proof (dictBody_length (map fst kvs) encs enc Henc Hlen) as Hle.
    fold body in Hle. lia.
  - lia.
  - pose proof (dictBody_entries (map fst kvs) encs Hlen) as He. fold body in He.
    rewrite length_map in He. lia.
Qed.

Lemma digits_no_e (ds : bytes) :
  Forall (fun c => strconv.isDigit c = true) ds -> ~ In "e"%char ds.
Proof.
  intros HF Hin. rewrite Forall_forall in HF. apply HF in Hin. discriminate Hin.
Qed.

Lemma unsignedValue_FormatUint (n : Z) :
  0 <= n ->
  unsignedValue (strconv.FormatUint n) = Some n /\ ~ In "e"%char (strconv.FormatUint n).
Proof.
  intros Hn. destruct (FormatUint_spec n Hn) as (c & ds & E & HF & HV).
  rewrite E. split; [|now apply digits_no_e].
  unfold unsignedValue. now rewrite <- digitsValue_decimalOf.
Qed.

Lemma decodesTo_int (h : Hooks) (bits n : Z) :
  0 < bits <= 64 -> fitsInt bits n = true ->
  decodesTo h (Int bits) (B "i" ++ strconv.AppendInt [] n ++ B "e") (DInt n).
Proof.
  intros Hb Hfit fuel rest off Hf. destruct fuel as [|fuel]; [lia|].
  destruct (signedValue_AppendInt n) as [Hv Hno].
  cbn [parseValue parseValueBody zero].
  repeat rewrite <- app_assoc. cbn [B list_ascii_of_string app].
  rewrite parseValueElem_i by reflexivity.
  unfold parseInteger. rewrite readInt_exact by exact Hno.
  pose proof (ParseInt_spec (strconv.AppendInt [] n)) as HP. rewrite Hv in HP.
  rewrite (fitsInt_64 bits n Hb Hfit) in HP. rewrite HP.
  rewrite OverflowInt_fits, Hfit. cbn [negb]. eexists. reflexivity.
Qed.

Lemma decodesTo_uint (h : Hooks) (bits n : Z) :
  0 < bits <= 64 -> fitsUint bits n = true ->
  decodesTo h (Uint bits) (B "i" ++ strconv.AppendUint [] n ++ B "e") (DUint n).
Proof.
  intros Hb Hfit fuel rest off Hf. destruct fuel as [|fuel]; [lia|].
  assert (Hn : 0 <= n).
  { unfold fitsUint in Hfit. apply andb_true_iff in Hfit. destruct Hfit as [H0 _].
    now apply Z.leb_le in H0. }
  unfold strconv.AppendUint. cbn [app].
  destruct (unsignedValue_FormatUint n Hn) as [Hv Hno].
  cbn [parseValue parseValueBody zero].
  repeat rewrite <- app_assoc. cbn [B list_ascii_of_string app].
  rewrite parseValueElem_i by reflexivity.
  unfold parseInteger. rewrite readInt_exact by exact Hno.
  pose proof (ParseUint_spec (strconv.FormatUint n)) as HP. rewrite Hv in HP.
  destruct HP as [_ HP]. rewrite HP.
  pose proof (fitsUint_64 bits n Hb Hfit) as H64.
  destruct (Z.ltb_spec n (2 ^ 64)); [|lia].
  rewrite OverflowUint_fits, Hfit by exact Hn. cbn [negb]. eexists. reflexivity.
Qed.

Lemma decodesTo_bool (h : Hooks) (b : bool) :
  decodesTo h Bool (if b then B "i1e" else B "i0e") (DBool b).
Proof.
  intros fuel rest off Hf. destruct fuel as [|fuel]; [lia|].
  cbn [parseValue parseValueBody zero].
  destruct b; cbn [B list_ascii_of_string app];
    rewrite parseValueElem_i by reflexivity; unfold parseInteger.
  - rewrite (readInt_exact (B "1") rest) by (cbn; intuition discriminate).
    eexists. reflexivity.
  - rewrite (readInt_exact (B "0") rest) by (cbn; intuition discriminate).
    eexists. reflexivity.
Qed.

Lemma decodesTo_bytes (h : Hooks) (t : rtype) (s : bytes) :
  hasHook t = false -> kind t <> KPtr -> len s < 2 ^ 63 ->
  fst (setByteString t (zero h t) s) = None ->
  decodesTo h t (bencString s) (snd (setByteString t (zero h t) s)).
Proof.
  intros Hh Hk Hs Hok fuel rest off Hf. destruct fuel as [|fuel]; [lia|].
  cbn [parseValue]. unfold parseValueBody.
  destruct t; try (exfalso; apply Hk; reflexivity);
    match goal with
    | |- context [parseValueElem _ ?R ?N _ ?T ?V] =>
        destruct (parseValueElem_bencString h R N [] s rest off T V Hh Hs)
          as (d' & -> & HS & HB)
    end;
    rewrite Hok; destruct d' as [b' s' o']; cbn in HS, HB; subst;
    eexists; reflexivity.
Qed.

Lemma decodesTo_string (h : Hooks) (s : bytes) :
  len s < 2 ^ 63 -> decodesTo h String_ (bencString s) (DString s).
Proof.
  intros Hs.
  pose proof (decodesTo_bytes h String_ s eq_refl ltac:(discriminate) Hs eq_refl) as H.
  cbn [setByteString snd] in H. now rewrite bytesAsString_id in H.
Qed.

Lemma Unmarshal_map_assigns_in_order_witness :
  Unmarshal noHooks
    (dictBytes (combine (map fst [(B "b", DInt 2); (B "a", DInt 1); (B "b", DInt 3)])
                  [B "i2e"; B "i1e"; B "i3e"]) ++ [])
    (target (Map String_ (Int 64)) (DMap None)) =
  (Ret None, target (Map String_ (Int 64)) (DMap (Some [(B "b", DInt 3); (B "a", DInt 1)]))).
Proof.
  apply (Unmarshal_map_assigns_in_order noHooks String_ (Int 64)
           [(B "b", DInt 2); (B "a", DInt 1); (B "b", DInt 3)]
           [B "i2e"; B "i1e"; B "i3e"] None []).
  - reflexivity.
  - assert (D : forall n, fitsInt 64 n = true ->
                 len (B "b") < 2 ^ 63 /\
                 decodesTo noHooks (Int 64) (B "i" ++ strconv.AppendInt [] n ++ B "e") (DInt n)).
    { intros n Hn. split; [reflexivity|]. apply decodesTo_int; [lia|exact Hn]. }
    constructor; [exact (D 2 eq_refl)|].
    constructor; [exact (D 1 eq_refl)|].
    constructor; [exact (D 3 eq_refl)|constructor].
Defined.

(** ** A key without a value *)




(** ** Round trip *)

Fixpoint canon_zero (h : Hooks) (t : rtype) {struct t} : canon (zero h t) = zero h t.
Proof.
  destruct t; cbn [zero canon]; try reflexivity.
  f_equal. induction fields as [|f fs IH]; cbn [map]; [reflexivity|].
  rewrite (canon_zero h (Typ f)). now rewrite IH.
Qed.

Lemma plain_no_hook (t : rtype) (x : data) : plain t x -> hasHook t = false.
Proof.
  intros H. destruct H; try reflexivity.
  destruct t; try reflexivity. inversion H0.
Qed.

Lemma parseValue_not_ptr (h : Hooks) (fuel : nat) (d : decodeState) (t : rtype) (v : data) :
  kind t <> KPtr ->
  parseValue h (S fuel) d t v = parseValueElem h (parseValue h fuel) fuel d t v.
Proof.
  intros Hk. cbn [parseValue]. unfold parseValueBody.
  destruct t; try reflexivity. exfalso. apply Hk. reflexivity.
Qed.

(** *** Maps *)

Lemma mapaccess_In_NoDup {V : Type} (m : list (bytes * V)) (k : bytes) (v : V) :
  NoDup (map fst m) -> In (k, v) m -> mapaccess m k = Some v.
Proof.
  induction m as [|[k0 v0] m IH]; intros Hnd Hin; [contradiction|].
  cbn [map fst] in Hnd. inversion Hnd as [|? ? Hni Hnd']; subst.
  cbn [mapaccess]. destruct Hin as [E|Hin].
  - inversion E; subst. now rewrite bytes_eqb_refl.
  - destruct (bytes_eqb k0 k) eqn:E.
    + apply bytes_eqb_eq in E. subst k0. exfalso. apply Hni.
      apply in_map_iff. exists (k, v). auto.
    + now apply IH.
Qed.

Lemma mapassign_fresh {V : Type} (m : list (bytes * V)) (k : bytes) (v : V) :
  ~ In k (map fst m) -> mapassign m k v = m ++ [(k, v)].
Proof.
  induction m as [|[k0 v0] m IH]; intros Hni; [reflexivity|].
  cbn [mapassign]. destruct (bytes_eqb k0 k) eqn:E.
  - apply bytes_eqb_eq in E. subst. exfalso. apply Hni. now left.
  - cbn [app]. f_equal. apply IH. intros Hin. apply Hni. now right.
Qed.

Lemma assign_in_order (acc kvs : list (bytes * data)) :
  NoDup (map fst (acc ++ kvs)) ->
  fold_left (fun m kv => mapassign m (fst kv) (snd kv)) kvs acc = acc ++ kvs.
Proof.
  revert acc. induction kvs as [|[k v] kvs IH]; intros acc Hnd; cbn [fold_left fst snd].
  - now rewrite app_nil_r.
  - rewrite mapassign_fresh.
    + rewrite IH; rewrite <- app_assoc; [reflexivity|exact Hnd].
    + rewrite map_app in Hnd. apply NoDup_remove_2 in Hnd.
      intros Hin. apply Hnd. apply in_or_app. now left.
Qed.

Lemma assignAll_sorted (kvs : list (bytes * data)) :
  NoDup (map fst kvs) ->
  assignAll None kvs = match kvs with [] => None | _ => Some kvs end.
Proof.
  intros Hnd. destruct kvs as [|kv kvs]; [reflexivity|].
  unfold assignAll. now rewrite (assign_in_order [] (kv :: kvs) Hnd).
Qed.

Lemma pair_less_asym (a b : bytes * data) :
  bytes_ltb (fst a) (fst b) = true -> bytes_ltb (fst b) (fst a) = false.
Proof. apply bytes_ltb_asym. Qed.

Lemma pair_le_trans (a b c : bytes * data) :
  bytes_ltb (fst b) (fst a) = false -> bytes_ltb (fst c) (fst b) = false ->
  bytes_ltb (fst c) (fst a) = false.
Proof. apply bytes_le_trans. Qed.

Lemma sortedEntries_perm (m : list (bytes * data)) : Permutation (sortedEntries m) m.
Proof. apply sortSort_perm. Qed.

Lemma sortedEntries_keys (m : list (bytes * data)) :
  NoDup (map fst m) ->
  map fst (sortedEntries m) = sortSort bytes_ltb (map fst m).
Proof.
  intros Hnd. apply sorted_perm_unique.
  - apply sorted_le_strict.
    + apply StronglySorted_map.
      apply (sortSort_sorted (fun a b : bytes * data => bytes_ltb (fst a) (fst b))
               pair_less_asym pair_le_trans).
    + apply (Permutation_NoDup (l := map fst m)); [|exact Hnd].
      apply Permutation_map, Permutation_sym, sortedEntries_perm.
  - now apply sortSort_bytes_lt.
  - etransitivity; [apply Permutation_map, sortedEntries_perm|].
    apply Permutation_sym, sortSort_bytes_perm.
Qed.

Lemma string_key_written (e : encodeState) (kt : rtype) (k : bytes) :
  stringEncoder e kt (DString k) = (Ret None, Write e (bencString k)).
Proof.
  unfold stringEncoder, WriteString, bencString. now rewrite Write_app.
Qed.

Lemma mapEncoderLoop_build (h : Hooks) (F : nat) (kt et : rtype) (m : list (bytes * data)) :
  forall (kvs : list (bytes * data)) (encs : list bytes) (e : encodeState),
  Forall2 (fun kv enc =>
             exists v, mapaccess m (fst kv) = Some v /\
                       Marshal h (Some (et, v)) = Ret (inl enc) /\
                       (vsize (Some (et, v)) < F)%nat) kvs encs ->
  mapEncoderLoop (reflectValue h F) (map fst kvs) kt et m e =
    (Ret None, Write e (dictBody (combine (map fst kvs) encs) ++ B "e")).
Proof.
  induction kvs as [|[k y] kvs IH]; intros encs e HF.
  - inversion HF; subst. reflexivity.
  - inversion HF as [|kv enc kvs0 encs0 (v & Hm & Henc & Hsz) HF']; subst.
    cbn [map fst snd mapEncoderLoop combine] in *.
    rewrite string_key_written, Hm. cbn [option_map].
    apply (Marshal_ok_iff h F (Write e (bencString k)) _ enc Hsz) in Henc.
    rewrite Henc, (IH encs0) by exact HF'. rewrite dictBody_cons, !Write_app.
    now rewrite <- !app_assoc.
Qed.

Lemma Forall_choose {A C : Type} (Q : A -> C -> Prop) (l : list A) :
  Forall (fun a => exists c, Q a c) l -> exists cs, Forall2 Q l cs.
Proof.
  induction l as [|a l IH]; intros HF.
  - exists []. constructor.
  - inversion HF as [|? ? [c Hc] HF']; subst. destruct (IH HF') as [cs Hcs].
    exists (c :: cs). now constructor.
Qed.

Lemma canon_map_sorted (m : list (bytes * data)) :
  canon (DMap (Some m)) =
    DMap (match sortedEntries (canonEntries m) with
          | [] => None
          | _ => Some (sortedEntries (canonEntries m))
          end).
Proof.
  destruct m as [|kv m]; [reflexivity|].
  cbn [canon]. fold (canonEntries (kv :: m)).
  destruct (sortedEntries (canonEntries (kv :: m))) as [|p S] eqn:ES; [|reflexivity].
  exfalso. pose proof (sortedEntries_perm (canonEntries (kv :: m))) as P. rewrite ES in P.
  apply Permutation_nil in P. discriminate P.
Qed.

Section MapRound.
Variable h : Hooks.
Variable et : rtype.
Variable m : list (bytes * data).
Hypothesis keys_distinct : NoDup (map fst m).
Hypothesis entries_ok :
  Forall (fun kv => len (fst kv) < 2 ^ 63 /\
                    exists enc, Marshal h (Some (et, snd kv)) = Ret (inl enc) /\
                                decodesTo h et enc (canon (snd kv))) m.

Lemma canon_keys : map fst (canonEntries m) = map fst m.
Proof. unfold canonEntries. rewrite map_map. reflexivity. Qed.

Lemma sorted_keys_distinct : NoDup (map fst (sortedEntries (canonEntries m))).
Proof.
  apply (Permutation_NoDup (l := map fst (canonEntries m))).
  - apply Permutation_map, Permutation_sym, sortedEntries_perm.
  - rewrite canon_keys. exact keys_distinct.
Qed.

Lemma map_round :
  exists out,
    Marshal h (Some (Map String_ et, DMap (Some m))) = Ret (inl out) /\
    decodesTo h (Map String_ et) out (canon (DMap (Some m))).
Proof.
  assert (Hq : Forall (fun kv =>
                 exists enc v,
                   mapaccess m (fst kv) = Some v /\ snd kv = canon v /\
                   len (fst kv) < 2 ^ 63 /\
                   Marshal h (Some (et, v)) = Ret (inl enc) /\
                   decodesTo h et enc (snd kv) /\
                   (vsize (Some (et, v)) <
                    S (tsize String_ + tsize et) +
                    list_sum (map (fun kv => dsize (snd kv)) m))%nat)
                (sortedEntries (canonEntries m))).
  { apply Forall_forall. intros [k y] Hin.
    apply (Permutation_in _ (sortedEntries_perm (canonEntries m))) in Hin.
    unfold canonEntries in Hin. apply in_map_iff in Hin. destruct Hin as ([k0 v] & E & Hin).
    cbn [fst snd] in E. inversion E; subst k0 y.
    rewrite Forall_forall in entries_ok.
    destruct (entries_ok _ Hin) as (Hk & enc & Henc & Hd). cbn [fst snd] in *.
    exists enc, v. repeat split; try assumption.
    - now apply mapaccess_In_NoDup.
    - pose proof (In_sum (fun kv => dsize (snd kv)) m _ Hin) as Hle.
      cbn [snd vsize] in *. lia. }
  destruct (Forall_choose _ _ Hq) as [encs HF].
  assert (Hkeys : sortSort bytes_ltb (map fst m) = map fst (sortedEntries (canonEntries m))).
  { rewrite sortedEntries_keys, canon_keys; [reflexivity|].
    rewrite canon_keys. exact keys_distinct. }
  exists (dictBytes (combine (map fst (sortedEntries (canonEntries m))) encs)). split.
  - unfold Marshal, marshal. cbn [vsize tsize dsize reflectValue].
    unfold typeEncoder, newTypeEncoder. cbn [hasHook kind newMapEncoder].
    rewrite Hkeys.
    rewrite (mapEncoderLoop_build h _ String_ et m (sortedEntries (canonEntries m)) encs); [reflexivity|].
    eapply Forall2_impl; [|exact HF].
    intros kv enc (v & Hm & _ & _ & Henc & _ & Hsz). exists v. auto.
  - intros fuel rest off Hfuel. destruct fuel as [|fuel]; [lia|].
    rewrite parseValue_not_ptr by discriminate.
    unfold parseValueElem. cbn [hasHook zero]. unfold dictBytes in *.
    repeat rewrite <- app_assoc.
    cbn [B list_ascii_of_string app readByte Scanner Buffer Offset
           Ascii.eqb Bool.eqb andb parseDict].
    set (body := dictBody (combine (map fst (sortedEntries (canonEntries m))) encs)) in *.
    assert (Hlen : List.length (map fst (sortedEntries (canonEntries m))) = List.length encs)
      by (rewrite length_map; now apply Forall2_length in HF).
    assert (HL : List.length (B "d" ++ body ++ B "e") = S (S (List.length body))).
    { cbn [B list_ascii_of_string app List.length]. rewrite length_app. cbn. lia. }
    rewrite HL in Hfuel.
    destruct (parseDictLoop_map h fuel String_ et (sortedEntries (canonEntries m)) encs fuel None
                rest (off + 1) eq_refl) as [off' E].
    + eapply Forall2_within; [|exact HF].
      intros kv enc Hkv Henc (v & _ & _ & Hk & _ & Hd & _).
      split; [exact Hk|]. split; [exact Hd|].
      pose proof (dictBody_length (map fst (sortedEntries (canonEntries m))) encs enc Henc Hlen) as Hle.
      fold body in Hle. lia.
    + lia.
    + pose proof (dictBody_entries (map fst (sortedEntries (canonEntries m))) encs Hlen) as He.
      fold body in He. rewrite length_map in He. lia.
    + fold body in E. rewrite E. exists off'. do 2 f_equal.
      rewrite (assignAll_sorted _ sorted_keys_distinct), canon_map_sorted.
      reflexivity.
Qed.

End MapRound.

(** *** Structs *)

Lemma encodable_exported (f : StructField) :
  encodable f = true -> bytes_eqb (PkgPath f) [] = true.
Proof.
  unfold encodable. intros H. apply andb_true_iff in H. destruct H as [H _].
  apply andb_true_iff in H. now destruct H.
Qed.

Lemma isEmptyFields_plain (h : Hooks) (fs : list StructField) :
  forall (ds : list data) (z : bool),
  Forall2 (fun f x => encodable f = true /\
                      exists b, isEmptyValue h false (Typ f) x = Some b /\
                                (b = true -> x = zero h (Typ f))) fs ds ->
  exists b,
    (fix fields (ds : list data) (fs : list StructField) (z : bool)
         {struct ds} : option bool :=
       match ds, fs with
       | _, [] => Some z
       | x :: ds', f :: fs' =>
           if z then
             match isEmptyValue h (false || negb (bytes_eqb (PkgPath f) [])) (Typ f) x with
             | Some z' => fields ds' fs' z'
             | None => None
             end
           else fields ds' fs' false
       | [], _ :: _ => None
       end) ds fs z = Some b /\
    (b = true -> z = true /\ ds = map (fun f => zero h (Typ f)) fs).
Proof.
  induction fs as [|f fs IH]; intros ds z HF.
  - inversion HF; subst. exists z. split; [reflexivity|]. auto.
  - inversion HF as [|f0 x fs0 ds0 (He & b & Hb & Hz) HF']; subst.
    rewrite (encodable_exported f He). cbn [negb orb].
    destruct z.
    + rewrite Hb. destruct (IH ds0 b HF') as (b' & E & Hb').
      exists b'. split; [exact E|]. intros Ht. destruct (Hb' Ht) as [-> ->].
      split; [reflexivity|]. cbn [map]. f_equal. now apply Hz.
    + destruct (IH ds0 false HF') as (b' & E & Hb').
      exists b'. split; [exact E|]. intros Ht. destruct (Hb' Ht) as [Hf _]. discriminate Hf.
Qed.

Lemma plain_isEmpty (h : Hooks) (x : data) :
  forall t, plain t x ->
  exists b, isEmptyValue h false t x = Some b /\ (b = true -> x = zero h t).
Proof.
  induction x as [x IHx] using data_children_ind. intros t Hp.
  inversion Hp; subst; cbn [isEmptyValue zero].
  - eexists. split; [reflexivity|]. destruct b; [discriminate|reflexivity].
  - eexists. split; [reflexivity|]. intros E. apply Z.eqb_eq in E. now subst.
  - eexists. split; [reflexivity|]. intros E. apply Z.eqb_eq in E. now subst.
  - eexists. split; [reflexivity|]. intros E. apply bytes_eqb_eq in E. now subst.
  - eexists. split; [reflexivity|]. discriminate.
  - eexists. split; [reflexivity|]. discriminate.
  - eexists. split; [reflexivity|]. reflexivity.
  - eexists. split; [reflexivity|]. discriminate.
  - destruct (isEmptyFields_plain h fs ds true) as (b & E & Hb).
    + rename H into Hall. rename H1 into HF. clear Hp H0.
      cbn [children] in IHx. revert Hall IHx.
      induction HF as [|f y fs ds Hfy HF IH]; intros Hall IHx; constructor.
      * inversion Hall as [|? ? [He _] ?]; subst. split; [exact He|].
        apply IHx; [now left|exact Hfy].
      * inversion Hall; subst. apply IH; [assumption|].
        intros y0 Hy0. apply IHx. now right.
    + exists b. split; [exact E|]. intros Ht. destruct (Hb Ht) as [_ ->]. reflexivity.
Qed.

Lemma structEncoderLoop_build (h : Hooks) (F : nat) (fs : list StructField) (ds : list data) :
  forall (l : list fieldPlan) (e : encodeState),
  Forall (fun p =>
            exists f x,
              nth_error fs (ef_i (fst p)) = Some f /\
              nth_error ds (ef_i (fst p)) = Some x /\
              encodable f = true /\
              match snd p with
              | None => ef_omitEmpty (fst p) = true /\
                        isEmptyValue h false (Typ f) x = Some true
              | Some (enc, _) =>
                  (ef_omitEmpty (fst p) = false \/
                   isEmptyValue h false (Typ f) x = Some false) /\
                  Marshal h (Some (Typ f, x)) = Ret (inl enc) /\
                  (vsize (Some (Typ f, x)) < F)%nat
              end) l ->
  structEncoderLoop h (reflectValue h F) (map fst l) fs ds e =
    (Ret None, Write e (bodyOf l ++ B "e")).
Proof.
  induction l as [|[ef o] l IH]; intros e HF; [reflexivity|].
  inversion HF as [|p l0 (f & x & Hf & Hx & He & Ho) HF']; subst.
  cbn [map fst snd structEncoderLoop] in *. rewrite Hf, Hx.
  rewrite (encodable_exported f He). cbn [negb].
  unfold bodyOf. cbn [flat_map snd fst]. fold (bodyOf l).
  destruct o as [[enc y]|].
  - destruct Ho as (Hkeep & Henc & Hsz).
    assert (Hk : (if ef_omitEmpty ef then isEmptyValue h false (Typ f) x else Some false)
                 = Some false).
    { destruct Hkeep as [-> | Hk]; [reflexivity|]. now destruct (ef_omitEmpty ef). }
    rewrite Hk.
    match goal with
    | |- context [reflectValue h F ?E (Some (Typ f, x))] =>
        apply (Marshal_ok_iff h F E _ enc Hsz) in Henc; rewrite Henc
    end.
    rewrite IH by exact HF'. unfold WriteString. rewrite !Write_app.
    unfold bencString. now rewrite <- !app_assoc.
  - destruct Ho as [-> ->]. rewrite IH by exact HF'. reflexivity.
Qed.

Lemma nth_error_setNth_other (l : list data) (i j : nat) (y : data) :
  i <> j -> nth_error (setNth l i y) j = nth_error l j.
Proof.
  revert i j. induction l as [|x l IH]; intros [|i] [|j] Hne; cbn; try reflexivity;
    try (now contradiction Hne).
  apply IH. lia.
Qed.

Lemma nth_error_setNth_same (l : list data) (i : nat) (y : data) :
  (i < List.length l)%nat -> nth_error (setNth l i y) i = Some y.
Proof.
  revert i. induction l as [|x l IH]; intros [|i] Hlt; cbn in *; try lia; [reflexivity|].
  apply IH. lia.
Qed.

Lemma length_setNth (l : list data) (i : nat) (y : data) :
  List.length (setNth l i y) = List.length l.
Proof.
  revert i. induction l as [|x l IH]; intros [|i]; cbn; try reflexivity. now rewrite IH.
Qed.

Lemma parseDictLoop_struct (h : Hooks) (fuel : nat) (fs : list StructField) :
  forall (l : list fieldPlan) (n : nat) (cur : list data) (rest : bytes) (off : Z),
  Forall (fun p =>
            match snd p with
            | None => True
            | Some (enc, y) =>
                exists f,
                  len (ef_tag (fst p)) < 2 ^ 63 /\
                  getStructFieldForKey fs (ef_tag (fst p)) =
                    Some (mkStructField f (ef_i (fst p)) (parseTag (Tag f))) /\
                  encodable f = true /\
                  nth_error cur (ef_i (fst p)) = Some (zero h (Typ f)) /\
                  decodesTo h (Typ f) enc y /\
                  (List.length enc < fuel)%nat
            end) l ->
  NoDup (map (fun p => ef_i (fst p)) l) ->
  (1 <= fuel)%nat -> (List.length (bodyOf l) < n)%nat ->
  exists off',
    parseDictLoop h (parseValue h fuel) n true
      (mkDecodeState [] (bodyOf l ++ "e"%char :: rest) off) (Struct fs) (DStruct cur) =
    (Ret None, DStruct (applyAll l cur), mkDecodeState [] rest off').
Proof.
  induction l as [|[ef o] l IH]; intros n cur rest off HF Hnd Hf Hn.
  - destruct n as [|n]; [cbn in Hn; lia|]. destruct fuel as [|fuel]; [lia|].
    cbn [bodyOf flat_map app parseDictLoop applyAll fold_left].
    rewrite parseValue_end by (reflexivity || discriminate). eexists. reflexivity.
  - inversion HF as [|p l0 Hp HF']; subst. cbn [map fst] in Hnd.
    inversion Hnd as [|i0 is0 Hni Hnd']; subst.
    change (bodyOf ((ef, o) :: l))
      with (match o with
            | Some (enc, _) => bencString (ef_tag ef) ++ enc
            | None => []
            end ++ bodyOf l) in Hn |- *.
    unfold applyAll. cbn [fold_left snd fst].
    destruct o as [[enc y]|]; cbn [snd fst] in Hp.
    + destruct Hp as (f & Hk & Hsf & He & Hcur & Hd & Hl).
      assert (Hn' : (S (List.length (bodyOf l)) <= List.length
                        ((bencString (ef_tag ef) ++ enc) ++ bodyOf l))%nat).
      { rewrite !length_app. unfold bencString. rewrite length_app. cbn [List.length]. lia. }
      destruct n as [|n]; [lia|]. destruct fuel as [|fuel]; [lia|].
      cbn [parseDictLoop]. repeat rewrite <- app_assoc.
      destruct (parseValue_key h fuel (ef_tag ef) (enc ++ bodyOf l ++ "e"%char :: rest) off Hk)
        as [off1 ->].
      cbn [structFields]. rewrite Hsf. cbn [sf_r sf_index].
      rewrite (encodable_exported f He). cbn [negb]. rewrite Hcur.
      destruct (Hd (S fuel) (bodyOf l ++ "e"%char :: rest) off1 Hl) as [off2 ->].
      apply IH; try assumption; [|lia].
      rewrite Forall_forall in HF' |- *.
      intros [ef' [[enc' y']|]] Hin; [|exact I]. pose proof (HF' _ Hin) as Hq.
      cbn [snd fst] in *.
      destruct Hq as (f' & Hk' & Hsf' & He' & Hcur' & Hd' & Hl').
      exists f'. repeat split; try assumption.
      rewrite nth_error_setNth_other; [exact Hcur'|].
      intros E. apply Hni. apply in_map_iff. exists (ef', Some (enc', y')). auto.
    + cbn [app] in *. apply IH; assumption.
Qed.

Lemma length_applyAll (l : list fieldPlan) (cur : list data) :
  List.length (applyAll l cur) = List.length cur.
Proof.
  revert cur. induction l as [|[ef [[enc y]|]] l IH]; intros cur; cbn; [reflexivity| |].
  - unfold applyAll in IH. rewrite IH. apply length_setNth.
  - apply IH.
Qed.

Lemma applyAll_miss (l : list fieldPlan) (cur : list data) (i : nat) :
  (forall p, In p l -> snd p <> None -> ef_i (fst p) <> i) ->
  nth_error (applyAll l cur) i = nth_error cur i.
Proof.
  revert cur. induction l as [|[ef o] l IH]; intros cur Hmiss; [reflexivity|].
  unfold applyAll. cbn [fold_left snd fst]. fold (applyAll l).
  assert (Hl : forall p, In p l -> snd p <> None -> ef_i (fst p) <> i)
    by (intros p Hp; apply Hmiss; now right).
  destruct o as [[enc y]|].
  - fold (applyAll l (setNth cur (ef_i ef) y)). rewrite IH by exact Hl.
    apply nth_error_setNth_other.
    apply (Hmiss (ef, Some (enc, y))); [now left|discriminate].
  - fold (applyAll l cur). now apply IH.
Qed.

Lemma applyAll_hit (l : list fieldPlan) (cur : list data) (ef : encodeStructField)
    (enc : bytes) (y : data) :
  NoDup (map (fun p => ef_i (fst p)) l) ->
  In (ef, Some (enc, y)) l -> (ef_i ef < List.length cur)%nat ->
  nth_error (applyAll l cur) (ef_i ef) = Some y.
Proof.
  revert cur. induction l as [|[ef0 o] l IH]; intros cur Hnd Hin Hlt; [contradiction|].
  cbn [map fst] in Hnd. inversion Hnd as [|i0 is0 Hni Hnd']; subst.
  unfold applyAll. cbn [fold_left snd fst].
  destruct Hin as [E|Hin].
  - inversion E; subst. fold (applyAll l (setNth cur (ef_i ef) y)).
    rewrite applyAll_miss; [now apply nth_error_setNth_same|].
    intros p Hp _ Ep. apply Hni. apply in_map_iff. exists p. auto.
  - destruct o as [[enc0 y0]|].
    + fold (applyAll l (setNth cur (ef_i ef0) y0)). apply IH; try assumption.
      now rewrite length_setNth.
    + fold (applyAll l cur). now apply IH.
Qed.

Lemma Forall2_nth_error_l {A C : Type} (R : A -> C -> Prop) (l1 : list A) (l2 : list C)
    (i : nat) (a : A) :
  Forall2 R l1 l2 -> nth_error l1 i = Some a ->
  exists c, nth_error l2 i = Some c /\ R a c.
Proof.
  intros HF. revert i. induction HF as [|x y l1 l2 Hxy HF IH]; intros [|i] Hi;
    cbn in Hi; try discriminate.
  - inversion Hi; subst. exists y. split; [reflexivity|exact Hxy].
  - destruct (IH i Hi) as (c & Hc & Hr). exists c. split; [exact Hc|exact Hr].
Qed.

Lemma plan_exists {A O : Type} (Q : A -> O -> Prop) (efs : list A) :
  Forall (fun ef => exists o, Q ef o) efs ->
  exists l : list (A * O), map fst l = efs /\ Forall (fun p => Q (fst p) (snd p)) l.
Proof.
  induction efs as [|ef efs IH]; intros HF.
  - exists []. split; [reflexivity|constructor].
  - inversion HF as [|? ? [o Ho] HF']; subst. destruct (IH HF') as (l & El & Hl).
    exists ((ef, o) :: l). split; [cbn; now rewrite El|]. constructor; assumption.
Qed.

Lemma bodyOf_length (l : list fieldPlan) (ef : encodeStructField) (enc : bytes) (y : data) :
  In (ef, Some (enc, y)) l -> (List.length enc <= List.length (bodyOf l))%nat.
Proof.
  induction l as [|p l IH]; intros Hin; [contradiction|].
  change (bodyOf (p :: l))
    with (match snd p with
          | Some (enc, _) => bencString (ef_tag (fst p)) ++ enc
          | None => []
          end ++ bodyOf l).
  rewrite length_app. destruct Hin as [->|Hin].
  - cbn [snd fst]. rewrite length_app. lia.
  - specialize (IH Hin). lia.
Qed.

Lemma nth_error_ext {A : Type} (l1 l2 : list A) :
  (forall i, nth_error l1 i = nth_error l2 i) -> l1 = l2.
Proof.
  revert l2. induction l1 as [|x l1 IH]; intros [|y l2] H.
  - reflexivity.
  - specialize (H 0%nat). discriminate H.
  - specialize (H 0%nat). discriminate H.
  - pose proof (H 0%nat) as H0. cbn in H0. inversion H0; subst. f_equal.
    apply IH. intros i. exact (H (S i)).
Qed.

Lemma NoDup_map_In_eq {A C : Type} (g : A -> C) (l : list A) (a b : A) :
  NoDup (map g l) -> In a l -> In b l -> g a = g b -> a = b.
Proof.
  induction l as [|x l IH]; intros Hnd Ha Hb E; [contradiction|].
  cbn [map] in Hnd. inversion Hnd as [|? ? Hni Hnd']; subst.
  destruct Ha as [->|Ha], Hb as [->|Hb]; auto.
  - exfalso. apply Hni. rewrite E. now apply in_map.
  - exfalso. apply Hni. rewrite <- E. now apply in_map.
Qed.

Section StructRound.
Variable h : Hooks.
Variable fs : list StructField.
Variable ds : list data.
Hypothesis fields_ok : Forall (fun f => encodable f = true /\ len (wireKey f) < 2 ^ 63) fs.
Hypothesis keys_distinct : NoDup (map wireKey fs).
Hypothesis values_ok :
  Forall2 (fun f x => plain (Typ f) x /\
                      exists enc, Marshal h (Some (Typ f, x)) = Ret (inl enc) /\
                                  decodesTo h (Typ f) enc (canon x)) fs ds.

Lemma every_field_planned :
  Forall (fun ef => exists o, planned h fs ds ef o) (encodeFields fs).
Proof.
  apply Forall_forall. intros ef Hin.
  destruct (proj1 (encodeFields_In fs ef) Hin) as (f & Hf & He & Ht & Ho).
  destruct (Forall2_nth_error_l _ _ _ _ _ values_ok Hf) as (x & Hx & Hp & enc & Henc & Hd).
  destruct (plain_isEmpty h x (Typ f) Hp) as (b & Hb & Hz).
  destruct (ef_omitEmpty ef && b) eqn:Eo.
  - apply andb_true_iff in Eo. destruct Eo as [Eo ->].
    exists None, f, x. repeat split; auto.
  - exists (Some (enc, canon x)), f, x. repeat split; auto.
    apply andb_false_iff in Eo. destruct Eo as [Eo | ->]; [now left|now right].
Qed.

Lemma planned_key_found (ef : encodeStructField) (f : StructField) :
  In ef (encodeFields fs) -> nth_error fs (ef_i ef) = Some f ->
  getStructFieldForKey fs (ef_tag ef) =
    Some (mkStructField f (ef_i ef) (parseTag (Tag f))).
Proof.
  intros Hin Hf. apply getStructFieldForKey_encoded; [exact Hin|exact Hf|].
  intros j g Hj Hg Hk.
  destruct (proj1 (encodeFields_In fs ef) Hin) as (f' & Hf' & He & Ht & _).
  rewrite Hf in Hf'. inversion Hf'; subst f'.
  assert (Hge : encodable g = true).
  { rewrite Forall_forall in fields_ok. apply fields_ok. eapply nth_error_In; eauto. }
  rewrite (encodable_decodeKey g Hge) in Hk. inversion Hk as [Hw].
  rewrite Ht in Hw.
  assert (E : ef_i ef = j).
  { apply (proj1 (NoDup_nth_error (map wireKey fs)) keys_distinct).
    - rewrite length_map. apply nth_error_Some. congruence.
    - rewrite !nth_error_map, Hf, Hg. cbn. now rewrite Hw. }
  lia.
Qed.

Lemma struct_round :
  exists out,
    Marshal h (Some (Struct fs, DStruct ds)) = Ret (inl out) /\
    decodesTo h (Struct fs) out (DStruct (map canon ds)).
Proof.
  destruct (plan_exists _ _ every_field_planned) as (l & El & Hl).
  exists (B "d" ++ bodyOf l ++ B "e"). split.
  - unfold Marshal, marshal. cbn [vsize tsize dsize reflectValue].
    unfold typeEncoder, newTypeEncoder. cbn [hasHook kind newStructEncoder structFields].
    unfold cachedTypeFields. rewrite <- El.
    rewrite (structEncoderLoop_build h _ fs ds l); [reflexivity|].
    rewrite Forall_forall in Hl |- *. intros p Hp.
    destruct (Hl p Hp) as (f & x & Hf & Hx & He & Ht & Ho).
    exists f, x. repeat split; try assumption.
    destruct (snd p) as [[enc y]|].
    + destruct Ho as (Hk & Hm & _). repeat split; try assumption.
      pose proof (nth_error_sum (fun f => tsize (Typ f)) _ _ _ Hf) as H1.
      pose proof (nth_error_sum dsize _ _ _ Hx) as H2.
      cbn [vsize]. lia.
    + destruct Ho as (Ho & Hb & _). split; assumption.
  - intros fuel rest off Hfuel. destruct fuel as [|fuel]; [lia|].
    rewrite parseValue_not_ptr by discriminate.
    unfold parseValueElem. cbn [hasHook zero].
    repeat rewrite <- app_assoc.
    cbn [B list_ascii_of_string app readByte Scanner Buffer Offset
           Ascii.eqb Bool.eqb andb parseDict].
    assert (Hlen : List.length (B "d" ++ bodyOf l ++ B "e") = S (S (List.length (bodyOf l)))).
    { cbn [B list_ascii_of_string app List.length]. rewrite length_app. cbn. lia. }
    rewrite Hlen in Hfuel.
    assert (Hnd : NoDup (map (fun p : fieldPlan => ef_i (fst p)) l)).
    { assert (E : map (fun p : fieldPlan => ef_i (fst p)) l = map ef_i (map fst l))
        by (symmetry; apply map_map).
      rewrite E, El. apply encodeFields_NoDup. }
    destruct (parseDictLoop_struct h fuel fs l fuel (map (fun f => zero h (Typ f)) fs)
                rest (off + 1)) as [off' ->]; try lia.
    + rewrite Forall_forall in Hl |- *. intros p Hp.
      destruct (Hl p Hp) as (f & x & Hf & Hx & He & Ht & Ho).
      destruct p as [ef [[enc y]|]]; cbn [fst snd] in *; [|exact I].
      destruct Ho as (_ & _ & Hd & _). exists f.
      assert (Hin : In ef (encodeFields fs)).
      { rewrite <- El. apply in_map_iff. exists (ef, Some (enc, y)). auto. }
      split.
      { rewrite Ht. rewrite Forall_forall in fields_ok.
        apply fields_ok. eapply nth_error_In; eauto. }
      split; [now apply planned_key_found|].
      split; [exact He|].
      split; [exact (map_nth_error (fun f0 => zero h (Typ f0)) _ _ Hf)|].
      split; [exact Hd|].
      pose proof (bodyOf_length l ef enc y Hp). lia.
    + exact Hnd.
    + exists off'. do 2 f_equal. f_equal.
      apply nth_error_ext. intros i.
      destruct (nth_error fs i) as [f|] eqn:Hf.
      * assert (Hlt : (i < List.length fs)%nat)
          by (apply nth_error_Some; rewrite Hf; discriminate).
        destruct (Forall2_nth_error_l _ _ _ _ _ values_ok Hf) as (x & Hx & _).
        rewrite (map_nth_error canon _ _ Hx).
        assert (He : encodable f = true).
        { rewrite Forall_forall in fields_ok. apply fields_ok. eapply nth_error_In; eauto. }
        assert (Hin : In (mkEncodeStructField i (wireKey f) (OmitEmpty (getTag f)))
                        (encodeFields fs)).
        { apply encodeFields_In. exists f. cbn. auto. }
        rewrite <- El in Hin. apply in_map_iff in Hin. destruct Hin as ([ef o] & Ee & Hp).
        cbn [fst] in Ee. subst ef. rewrite Forall_forall in Hl.
        destruct (Hl _ Hp) as (f' & x' & Hf' & Hx' & _ & _ & Ho). cbn [fst snd ef_i] in *.
        rewrite Hf in Hf'. inversion Hf'; subst f'. rewrite Hx in Hx'. inversion Hx'; subst x'.
        destruct o as [[enc y]|].
        -- destruct Ho as (_ & _ & _ & ->).
           apply (applyAll_hit l _ _ enc (canon x) Hnd Hp).
           cbn [ef_i]. rewrite length_map. exact Hlt.
        -- destruct Ho as (_ & _ & ->). rewrite canon_zero.
           rewrite applyAll_miss;
             [exact (map_nth_error (fun f0 => zero h (Typ f0)) _ _ Hf)|].
           intros q Hq Hsome Ei. apply Hsome.
           rewrite (NoDup_map_In_eq (fun p : fieldPlan => ef_i (fst p)) l q _ Hnd Hq Hp Ei).
           reflexivity.
      * assert (Hout : (List.length fs <= i)%nat) by now apply nth_error_None.
        rewrite (proj2 (nth_error_None _ _)).
        -- symmetry. apply nth_error_None. rewrite length_map.
           pose proof (Forall2_length values_ok) as HL. unfold StructField in *. lia.
        -- rewrite length_applyAll, length_map. exact Hout.
Qed.

End StructRound.

Lemma isByte_round (a : list data) :
  forallb isByte a = true -> map ofByte (map byteOf a) = a.
Proof.
  induction a as [|x a IH]; intros H; [reflexivity|].
  cbn [forallb] in H. apply andb_true_iff in H. destruct H as [Hx Ha].
  cbn [map]. rewrite IH by exact Ha. f_equal.
  destruct x; try discriminate Hx. cbn [isByte] in Hx.
  apply andb_true_iff in Hx. destruct Hx as [H0 H1].
  apply Z.leb_le in H0. apply Z.ltb_lt in H1.
  unfold ofByte, byteOf, byteval. f_equal.
  rewrite N_ascii_embedding; [lia|]. 
  change 256%N with (Z.to_N 256). apply Z2N.inj_lt; lia.
Qed.

Lemma plain_round (h : Hooks) (x : data) :
  forall t, plain t x ->
  exists out, Marshal h (Some (t, x)) = Ret (inl out) /\ decodesTo h t out (canon x).
Proof.
  induction x as [x IHx] using data_children_ind. intros t Hp.
  inversion Hp; subst.
  - (* bool *)
    exists (if b then B "i1e" else B "i0e"). split; [destruct b; reflexivity|].
    apply decodesTo_bool.
  - (* int *)
    exists (B "i" ++ strconv.AppendInt [] n ++ B "e"). split; [|now apply decodesTo_int].
    unfold Marshal, marshal. cbn [vsize tsize dsize Nat.add reflectValue].
    unfold typeEncoder, newTypeEncoder. cbn [hasHook kind]. unfold intEncoder.
    cbn [Write WriteString eBuffer newEncodeState app]. now rewrite <- app_assoc.
  - (* uint *)
    exists (B "i" ++ strconv.AppendUint [] n ++ B "e"). split; [|now apply decodesTo_uint].
    unfold Marshal, marshal. cbn [vsize tsize dsize Nat.add reflectValue].
    unfold typeEncoder, newTypeEncoder. cbn [hasHook kind]. unfold uintEncoder.
    cbn [Write WriteString eBuffer newEncodeState app]. now rewrite <- app_assoc.
  - (* string *)
    exists (bencString s). split; [reflexivity|]. now apply decodesTo_string.
  - (* []byte *)
    exists (bencString (map byteOf a)). split.
    + unfold Marshal, marshal. cbn [vsize tsize dsize Nat.add reflectValue].
      unfold typeEncoder, newTypeEncoder. cbn [hasHook kind newSliceEncoder isUint8].
      cbn [Write WriteString eBuffer newEncodeState app B list_ascii_of_string].
      unfold bencString. now rewrite <- app_assoc.
    + assert (Hl : len (map byteOf a) < 2 ^ 63) by (unfold len; now rewrite length_map).
      pose proof (decodesTo_bytes h (Slice (Uint 8)) (map byteOf a) eq_refl
                    ltac:(discriminate) Hl eq_refl) as Hd.
      cbn [setByteString isUint8 snd] in Hd. rewrite isByte_round in Hd by assumption.
      exact Hd.
  - (* pointer *)
    destruct (IHx x0 (or_introl eq_refl) t0 H0) as (out & Hm & Hd).
    exists out. split.
    + rewrite <- Hm. apply Marshal_ptr.
      destruct t0; try reflexivity. inversion H0.
    + intros fuel rest off Hf. destruct fuel as [|fuel]; [lia|].
      destruct (Hd (S fuel) rest off Hf) as [off' E].
      rewrite parseValue_not_ptr in E by exact H.
      cbn [parseValue parseValueBody zero canon]. rewrite E. exists off'. reflexivity.
  - (* nil map *)
    exists (B "de"). split; [reflexivity|].
    intros fuel rest off Hf. destruct fuel as [|[|fuel]]; try (cbn in Hf; lia).
    exists (off + 1 + 1). reflexivity.
  - (* map *)
    apply map_round; [assumption|].
    cbn [children] in IHx. rewrite Forall_forall in H0 |- *.
    intros kv Hin. destruct (H0 kv Hin) as [Hk Hpl]. split; [exact Hk|].
    apply IHx; [|exact Hpl]. apply in_map_iff. exists kv. auto.
  - (* struct *)
    cbn [canon]. apply struct_round; try assumption.
    cbn [children] in IHx. clear - IHx H1.
    induction H1 as [|f y fs ds Hfy HF IH]; constructor.
    + split; [exact Hfy|]. apply IHx; [now left|exact Hfy].
    + apply IH. intros y0 Hy0. apply IHx. now right.
Qed.

(** X28: round trip for plain values: for booleans, integers, strings,
    non-nil byte slices, maps with string keys, structs whose fields are all
    exported under distinct keys ([omitempty] allowed) and non-nil pointers to
    these, [Marshal] succeeds and [Unmarshal] of its output into a fresh target
    returns nil and the value, up to the order of the entries of maps and an
    empty map coming back as the nil map. *)
Theorem round_trip_plain (h : Hooks) (t : rtype) (x : data) :
  plain t x ->
  exists out,
    Marshal h (Some (t, x)) = Ret (inl out) /\
    Unmarshal h out (target t (zero h t)) = (Ret None, target t (canon x)).
Proof.
  intros Hp. destruct (plain_round h x t Hp) as (out & Hm & Hd).
  exists out. split; [exact Hm|].
  unfold Unmarshal, unmarshal, target. cbn [Scanner].
  destruct (Hd (S (List.length out)) [] 0 (Nat.lt_succ_diag_r _)) as [off' E].
  rewrite app_nil_r in E. rewrite E. reflexivity.
Qed.

Lemma sample_plain : plain (Struct sampleFields) sampleValue.
Proof.
  apply plain_struct.
  - repeat constructor.
  - cbn. repeat constructor; cbn; intuition discriminate.
  - constructor; [apply plain_int; [lia|reflexivity]|].
    constructor.
    + apply plain_map.
      * cbn. repeat constructor; cbn; intuition discriminate.
      * repeat constructor.
    + constructor; [|constructor].
      apply plain_ptr; [discriminate|]. apply plain_uint; [lia|reflexivity].
Qed.

Lemma round_trip_plain_witness :
  exists out,
    Marshal noHooks (Some (Struct sampleFields, sampleValue)) = Ret (inl out) /\
    Unmarshal noHooks out (target (Struct sampleFields) (zero noHooks (Struct sampleFields))) =
      (Ret None, target (Struct sampleFields) (canon sampleValue)).
Proof. exact (round_trip_plain noHooks (Struct sampleFields) sampleValue sample_plain). Defined.

(** *** Arrays *)

Lemma parseArrayLoop_fresh (h : Hooks) (fuel : nat) (et : rtype) :
  forall (ys : list data) (encs : list bytes) (done : list data) (rest : bytes) (off : Z),
  Forall2 (fun y enc => decodesTo h et enc y /\ (List.length enc < fuel)%nat) ys encs ->
  exists off',
    parseArrayLoop h (parseValue h fuel)
      (mkDecodeState [] (List.concat encs ++ rest) off) et done
      (repeat (zero h et) (List.length ys)) =
    (Ret None, DArray (done ++ ys), mkDecodeState [] rest off').
Proof.
  induction ys as [|y ys IH]; intros encs done rest off HF.
  - inversion HF; subst. cbn [List.length repeat parseArrayLoop List.concat app].
    exists off. now rewrite app_nil_r.
  - inversion HF as [|y0 enc ys0 encs0 [Hd Hl] HF']; subst.
    cbn [List.length repeat parseArrayLoop List.concat]. rewrite <- app_assoc.
    destruct (Hd fuel (List.concat encs0 ++ rest) off Hl) as [off1 ->].
    destruct (IH encs0 (done ++ [y]) rest off1 HF') as [off' ->].
    exists off'. now rewrite <- app_assoc.
Qed.

Lemma concat_length_In (encs : list bytes) (enc : bytes) :
  In enc encs -> (List.length enc <= List.length (List.concat encs))%nat.
Proof.
  induction encs as [|e encs IH]; intros Hin; [contradiction|].
  cbn [List.concat]. rewrite length_app. destruct Hin as [->|Hin]; [lia|].
  specialize (IH Hin). lia.
Qed.

(** [parseValue] on a list, into a fresh array: the elements are decoded and
    the cursor stays before whatever follows them. *)
Lemma parseValue_array (h : Hooks) (n : nat) (et : rtype) (ys : list data)
    (encs : list bytes) (fuel : nat) (rest : bytes) (off : Z) :
  Forall2 (fun y enc => decodesTo h et enc y) ys encs ->
  (List.length (B "l" ++ List.concat encs) < fuel)%nat ->
  exists off',
    parseValue h fuel (mkDecodeState [] (B "l" ++ List.concat encs ++ rest) off)
      (Array n et) (DArray (repeat (zero h et) (List.length ys))) =
    (Ret (true, None), DArray ys, mkDecodeState [] rest off').
Proof.
  intros HF Hfuel. destruct fuel as [|fuel]; [lia|].
  rewrite parseValue_not_ptr by discriminate.
  unfold parseValueElem. cbn [hasHook].
  cbn [B list_ascii_of_string app readByte Scanner Buffer Offset
         Ascii.eqb Bool.eqb andb parseList] in *.
  destruct (parseArrayLoop_fresh h fuel et ys encs [] rest (off + 1)) as [off' ->].
  - eapply Forall2_within; [|exact HF]. intros y enc _ Henc Hd. split; [exact Hd|].
    pose proof (concat_length_In encs enc Henc). cbn [List.length] in Hfuel. lia.
  - exists off'. reflexivity.
Qed.

Lemma Unmarshal_array_helper (h : Hooks) (n : nat) (et : rtype)
    (ys : list data) (encs : list bytes) (rest : bytes) :
  Forall2 (fun y enc => decodesTo h et enc y) ys encs ->
  Unmarshal h (B "l" ++ List.concat encs ++ rest)
    (target (Array n et) (DArray (repeat (zero h et) (List.length ys)))) =
    (Ret None, target (Array n et) (DArray ys)).
Proof.
  intros HF. unfold Unmarshal, unmarshal, target. cbn [Scanner].
  destruct (parseValue_array h n et ys encs
              (S (List.length (B "l" ++ List.concat encs ++ rest))) rest 0 HF) as [off' ->].
  - rewrite !length_app. lia.
  - reflexivity.
Qed.

(** X25: decoding a list into a fresh array of [n] elements decodes the first
    [n] elements and stops: what follows them, a missing ['e'] included, is not
    looked at, and [Unmarshal] returns nil. *)
Theorem Unmarshal_array_ignores_what_follows (h : Hooks) (n : nat) (et : rtype)
    (ys : list data) (encs : list bytes) (rest : bytes) :
  Forall2 (fun y enc => decodesTo h et enc y) ys encs ->
  Unmarshal h (B "l" ++ List.concat encs ++ rest)
    (target (Array n et) (DArray (repeat (zero h et) (List.length ys)))) =
    (Ret None, target (Array n et) (DArray ys)).
Proof. apply Unmarshal_array_helper. Qed.

Lemma Unmarshal_array_ignores_what_follows_witness :
  Unmarshal noHooks (B "l" ++ List.concat [B "i1e"; B "i2e"] ++ B "i3e")
    (target (Array 2 (Int 64)) (DArray (repeat (zero noHooks (Int 64)) (List.length [DInt 1; DInt 2])))) =
    (Ret None, target (Array 2 (Int 64)) (DArray [DInt 1; DInt 2])).
Proof.
  apply (Unmarshal_array_ignores_what_follows noHooks 2 (Int 64) [DInt 1; DInt 2]
           [B "i1e"; B "i2e"] (B "i3e")).
  constructor; [apply (decodesTo_int noHooks 64 1); [lia|reflexivity]|].
  constructor; [apply (decodesTo_int noHooks 64 2); [lia|reflexivity]|constructor].
Defined.

(** X26: an array value ends the decoding of the dict that holds it: the
    array decoder leaves the ['e'] of the list unread, the loop of [parseDict]
    takes it for the end of the dict, and what follows the array is dropped
    without an error. *)
Theorem array_value_ends_the_dict (h : Hooks) (n : nat) (et : rtype) (k : bytes)
    (ys : list data) (encs : list bytes) (m0 : option (list (bytes * data))) (rest : bytes) :
  len k < 2 ^ 63 ->
  Forall2 (fun y enc => decodesTo h et enc y) ys encs ->
  n = List.length ys ->
  Unmarshal h (B "d" ++ bencString k ++ B "l" ++ List.concat encs ++ B "e" ++ rest)
    (target (Map String_ (Array n et)) (DMap m0)) =
    (Ret None,
     target (Map String_ (Array n et))
       (DMap (Some (mapassign (match m0 with None => [] | Some m => m end) k (DArray ys))))).
Proof.
  intros Hk HF Hn. subst n. unfold Unmarshal, unmarshal, target. cbn [Scanner].
  cbn [parseValue parseValueBody]. unfold parseValueElem. cbn [hasHook].
  cbn [B list_ascii_of_string app readByte Scanner Buffer Offset
         Ascii.eqb Bool.eqb andb parseDict List.length].
  rewrite length_app. cbn [List.length]. rewrite Nat.add_succ_r.
  cbn [parseDictLoop].
  match goal with
  | |- context [parseValue h (S ?F0) (mkDecodeState [] (bencString k ++ ?R) ?O) String_ _] =>
      set (F := F0);
      destruct (parseValue_key h F k R O Hk) as [off1 ->]
  end.
  destruct (parseValue_array h (List.length ys) et ys encs (S F) ("e"%char :: rest) off1 HF)
    as [off2 E].
  { unfold F. cbn [B list_ascii_of_string app List.length]. rewrite length_app.
    unfold bencString. rewrite length_app. cbn [List.length]. lia. }
  cbn [zero]. cbn [B list_ascii_of_string app] in E. rewrite E.
  cbn [convertibleKey kind].
  assert (HF1 : (1 <= F)%nat).
  { unfold F, bencString. rewrite !length_app. cbn [List.length]. lia. }
  destruct F as [|F']; [lia|].
  cbn [parseDictLoop].
  destruct m0 as [m|]; rewrite parseValue_end by (reflexivity || discriminate); reflexivity.
Qed.

Lemma array_value_ends_the_dict_witness :
  Unmarshal noHooks
    (B "d" ++ bencString (B "a") ++ B "l" ++ List.concat [B "i1e"] ++ B "e" ++ B "1:bli2eee")
    (target (Map String_ (Array 1 (Int 64))) (DMap None)) =
    (Ret None,
     target (Map String_ (Array 1 (Int 64))) (DMap (Some [(B "a", DArray [DInt 1])]))).
Proof.
  apply (array_value_ends_the_dict noHooks 1 (Int 64) (B "a") [DInt 1] [B "i1e"] None
           (B "1:bli2eee")).
  - reflexivity.
  - constructor; [apply (decodesTo_int noHooks 64 1); [lia|reflexivity]|constructor].
  - reflexivity.
Defined.

(** Arrays of plain values round-trip at the outermost call. *)
Lemma Marshal_array_build (h : Hooks) (n : nat) (et : rtype) (a : list data)
    (encs : list bytes) :
  Forall2 (fun x enc => Marshal h (Some (et, x)) = Ret (inl enc)) a encs ->
  Marshal h (Some (Array n et, DArray a)) = Ret (inl (B "l" ++ List.concat encs ++ B "e")).
Proof.
  intros HF. unfold Marshal, marshal. cbn [vsize tsize dsize reflectValue].
  unfold typeEncoder, newTypeEncoder. cbn [hasHook kind newArrayEncoder].
  rewrite (proj2 (arrayEncoderLoop_ok h _ et a (WriteString newEncodeState (B "l"))
                    (Write (WriteString newEncodeState (B "l")) (List.concat encs ++ B "e"))
                    (fun x Hx => list_elems_fuel et a x Hx))); [reflexivity|].
  exists encs. auto.
Qed.

(** X27: an array of plain values round-trips at the outermost call: [Marshal]
    succeeds and [Unmarshal] of its output into a fresh array returns nil and
    the elements (the entries of maps in the order of their keys). *)
Theorem round_trip_array (h : Hooks) (et : rtype) (a : list data) :
  Forall (plain et) a ->
  exists out,
    Marshal h (Some (Array (List.length a) et, DArray a)) = Ret (inl out) /\
    Unmarshal h out (target (Array (List.length a) et) (zero h (Array (List.length a) et))) =
      (Ret None, target (Array (List.length a) et) (DArray (map canon a))).
Proof.
  intros Hp.
  assert (He : exists encs,
             Forall2 (fun x enc => Marshal h (Some (et, x)) = Ret (inl enc) /\
                                   decodesTo h et enc (canon x)) a encs).
  { apply Forall_choose. eapply Forall_impl; [|exact Hp].
    intros x Hx. now apply plain_round. }
  destruct He as [encs HF].
  exists (B "l" ++ List.concat encs ++ B "e"). split.
  - apply Marshal_array_build. eapply Forall2_impl; [|exact HF]. now intros x enc [Hm _].
  - assert (HD : Forall2 (fun y enc => decodesTo h et enc y) (map canon a) encs).
    { clear Hp. induction HF as [|x enc a encs [_ Hd] HF IH]; cbn [map]; constructor; auto. }
    pose proof (Unmarshal_array_helper h (List.length a) et (map canon a) encs (B "e") HD) as E.
    rewrite length_map in E. exact E.
Qed.

Lemma round_trip_array_witness :
  exists out,
    Marshal noHooks (Some (Array (List.length [DString (B "ab"); DString []]) String_,
                           DArray [DString (B "ab"); DString []])) = Ret (inl out) /\
    Unmarshal noHooks out
      (target (Array (List.length [DString (B "ab"); DString []]) String_)
         (zero noHooks (Array (List.length [DString (B "ab"); DString []]) String_))) =
      (Ret None,
       target (Array (List.length [DString (B "ab"); DString []]) String_)
         (DArray (map canon [DString (B "ab"); DString []]))).
Proof.
  apply (round_trip_array noHooks String_ [DString (B "ab"); DString []]).
  constructor; [apply plain_string; reflexivity|].
  constructor; [apply plain_string; reflexivity|constructor].
Defined.

Lemma dash_with_options_asymmetry_witness :
  (forall ef,
     In ef (encodeFields ([] ++ mkField (B "A") [] false (B "-,omitempty") (Int 64) :: [])) ->
     ef_i ef <> List.length (@nil StructField)) /\
  getStructFieldForKey ([] ++ mkField (B "A") [] false (B "-,omitempty") (Int 64) :: []) (B "-") =
    Some (mkStructField (mkField (B "A") [] false (B "-,omitempty") (Int 64))
            (List.length (@nil StructField))
            (parseTag (Tag (mkField (B "A") [] false (B "-,omitempty") (Int 64))))).
Proof.
  apply (dash_with_options_asymmetry [] [] (mkField (B "A") [] false (B "-,omitempty") (Int 64))
           (B "omitempty")).
  - reflexivity.
  - reflexivity.
  - intros g [].
Defined.



Lemma readValue_copies_one_value_witness :
  exists off',
    readValue (S (List.length (render (BDict [BStr (B "a"); BList [BInt (B "1"); BStr []]]))))
      (mkDecodeState (B "x")
         (render (BDict [BStr (B "a"); BList [BInt (B "1"); BStr []]]) ++ B "i2e") 0) =
      (Ret true,
       mkDecodeState (B "x" ++ render (BDict [BStr (B "a"); BList [BInt (B "1"); BStr []]]))
         (B "i2e") off').
Proof.
  apply (readValue_copies_one_value (BDict [BStr (B "a"); BList [BInt (B "1"); BStr []]])
           (B "x") (B "i2e") 0).
  cbn. repeat split; try reflexivity. intros [E|[]]. discriminate E.
Defined.

Lemma hook_receives_the_value_witness :
  Unmarshal rawHooks (render (BList [BInt (B "1"); BStr (B "ab")]) ++ B "rest")
    (target (Custom 0) (DOpaque [])) =
    (Ret None, target (Custom 0) (DOpaque (B "li1e2:abe"))).
Proof.
  apply (hook_receives_the_value rawHooks 0 (BList [BInt (B "1"); BStr (B "ab")]) (B "rest")
           (DOpaque [])).
  cbn. repeat split; try reflexivity. intros [E|[]]. discriminate E.
Defined.

(** ** The [Marshaler] hook *)

(** X19: for a type with the [Marshaler] hook [Marshal] returns what the hook
    returns, the bytes unchecked or the error; it fails with the
    unaddressable-value error when the hook is declared on the pointer type and
    a value is passed, and with [ptr is nil] for a nil pointer. *)
Theorem Marshal_of_a_Marshaler (h : Hooks) (id : nat) :
  (forall d, hookOnPtr h id = false ->
     Marshal h (Some (Custom id, d)) = hookResult (MarshalBencode h id d)) /\
  (forall d, hookOnPtr h id = true ->
     Marshal h (Some (Custom id, d)) = Ret (inr (ErrUnaddressable (Custom id)))) /\
  Marshal h (Some (Ptr (Custom id), DPtr None)) = Ret (inr ErrPtrIsNil) /\
  (forall x, Marshal h (Some (Ptr (Custom id), DPtr (Some x))) =
             hookResult (MarshalBencode h id (DPtr (Some x)))).
Proof.
  repeat split.
  - intros d Hp. unfold Marshal, marshal. cbn [vsize reflectValue].
    unfold typeEncoder, newTypeEncoder. cbn [hasHook marshalerEncoder]. rewrite Hp.
    destruct (MarshalBencode h id d) as [[b [err|]]| |]; reflexivity.
  - intros d Hp. unfold Marshal, marshal. cbn [vsize reflectValue].
    unfold typeEncoder, newTypeEncoder. cbn [hasHook marshalerEncoder]. now rewrite Hp.
  - intros x. unfold Marshal, marshal. cbn [vsize reflectValue].
    unfold typeEncoder, newTypeEncoder. cbn [hasHook marshalerEncoder].
    destruct (MarshalBencode h id (DPtr (Some x))) as [[b [err|]]| |]; reflexivity.
Qed.

(** X5: a [big.Int] does not survive a round trip: [Marshal] writes
    [i<decimal>e], and [Unmarshal] of exactly these bytes into a [big.Int]
    fails with the EOF syntax error at the end of the input. *)
Theorem bigInt_does_not_round_trip (h : Hooks) (z : Z) (x : data) :
  Marshal h (Some (BigInt, DBig z)) = Ret (inl (B "i" ++ strconv.AppendInt [] z ++ B "e")) /\
  Unmarshal h (B "i" ++ strconv.AppendInt [] z ++ B "e") (target BigInt x) =
    (Ret (Some (newSyntaxError (len (strconv.AppendInt [] z) + 2) EOF)), target BigInt x).
Proof.
  split.
  - unfold Marshal, marshal. cbn [vsize tsize dsize Nat.add reflectValue].
    unfold typeEncoder, newTypeEncoder. cbn [hasHook kind]. unfold bigIntEncoder.
    cbn [Write WriteString eBuffer newEncodeState app]. now rewrite <- app_assoc.
  - destruct (signedValue_AppendInt z) as [_ Hno].
    apply bigInt_alone; exact Hno.
Qed.

(** ** Containers into [interface{}] *)

(** X24: lists and dicts are never decoded into an [interface{}] target: for
    a list [Unmarshal] returns nil and leaves a nil [[]interface{}] in the
    target, whatever follows the ['l']; for a dict the target always ends as a
    nil [map[string]interface{}], and [Unmarshal] returns nil as soon as a first
    entry has been read. *)
Theorem containers_into_interface (h : Hooks) (rest : bytes) (x : data) :
  Unmarshal h ("l"%char :: rest) (target Interface x) =
    (Ret None, target Interface (DIface (Some (Slice Interface, DSlice None)))) /\
  snd (Unmarshal h ("d"%char :: rest) (target Interface x)) =
    target Interface (DIface (Some (Map String_ Interface, DMap None))) /\
  (forall k enc y rest',
     len k < 2 ^ 63 -> decodesTo h Interface enc y ->
     rest = bencString k ++ enc ++ rest' ->
     Unmarshal h ("d"%char :: rest) (target Interface x) =
       (Ret None, target Interface (DIface (Some (Map String_ Interface, DMap None))))).
Proof.
  split; [reflexivity|]. split.
  - unfold Unmarshal, unmarshal, target. cbn [Scanner].
    cbn [parseValue parseValueBody]. unfold parseValueElem. cbn [hasHook].
    cbn [readByte Scanner Buffer Offset Ascii.eqb Bool.eqb andb parseDict].
    destruct (parseDictLoop _ _ _ _ _ _ _) as [[[[err|]| | |] v] d]; reflexivity.
  - intros k enc y rest' Hk Hd ->. unfold Unmarshal, unmarshal, target. cbn [Scanner].
    cbn [parseValue parseValueBody]. unfold parseValueElem. cbn [hasHook].
    cbn [readByte Scanner Buffer Offset Ascii.eqb Bool.eqb andb parseDict List.length].
    assert (HL : exists L, List.length (bencString k ++ enc ++ rest') = S L /\
                           (List.length enc <= L)%nat).
    { unfold bencString. rewrite !length_app. cbn [List.length]. eexists. split.
      - rewrite Nat.add_succ_r, Nat.add_succ_l. reflexivity.
      - lia. }
    destruct HL as (L & -> & HL). cbn [parseDictLoop].
    destruct (parseValue_key h (S L) k (enc ++ rest') (0 + 1) Hk) as [off1 ->].
    destruct (Hd (S (S L)) rest' off1) as [off2 E]; [lia|].
    cbn [zero] in E |- *. rewrite E. reflexivity.
Qed.

Lemma containers_into_interface_witness :
  Unmarshal noHooks ("d"%char :: B "1:a1:be") (target Interface (DIface None)) =
    (Ret None, target Interface (DIface (Some (Map String_ Interface, DMap None)))).
Proof.
  apply (proj2 (proj2 (containers_into_interface noHooks (B "1:a1:be") (DIface None)))
           (B "a") (bencString (B "b")) (DIface (Some (String_, DString (B "b")))) (B "e")).
  - reflexivity.
  - exact (decodesTo_bytes noHooks Interface (B "b") eq_refl ltac:(discriminate)
             eq_refl eq_refl).
  - reflexivity.
Defined.

(** ** An unknown key *)

Lemma entriesBody_cons (e : fieldEntry) (es : list fieldEntry) :
  entriesBody (e :: es) = bencString (fe_key e) ++ fe_enc e ++ entriesBody es.
Proof. unfold entriesBody, dictBody. cbn [map flat_map fst snd]. now rewrite <- app_assoc. Qed.

Lemma parseDictLoop_entries (h : Hooks) (fuel : nat) (fs : list StructField) :
  forall (es : list fieldEntry) (n : nat) (cur : list data) (tail : bytes) (off : Z),
  Forall (storable h fs cur) es ->
  Forall (fun e => (List.length (fe_enc e) < fuel)%nat) es ->
  NoDup (map (fun e => sf_index (fe_field e)) es) ->
  (1 <= fuel)%nat ->
  exists off',
    parseDictLoop h (parseValue h fuel) (List.length es + n) true
      (mkDecodeState [] (entriesBody es ++ tail) off) (Struct fs) (DStruct cur) =
    parseDictLoop h (parseValue h fuel) n true
      (mkDecodeState [] tail off') (Struct fs) (DStruct (storeAll es cur)).
Proof.
  induction es as [|e es IH]; intros n cur tail off HF Hl Hnd Hf.
  - exists off. reflexivity.
  - inversion HF as [|e0 es0 He HF']; subst.
    inversion Hl as [|e1 es1 Hle Hl']; subst.
    cbn [map] in Hnd. inversion Hnd as [|i0 is0 Hni Hnd']; subst.
    destruct He as (Hk & Hsf & Hpk & Hcur & Hd).
    destruct fuel as [|fuel]; [lia|].
    rewrite entriesBody_cons. repeat rewrite <- app_assoc.
    cbn [List.length Nat.add parseDictLoop].
    destruct (parseValue_key h fuel (fe_key e) (fe_enc e ++ entriesBody es ++ tail) off Hk)
      as [off1 ->].
    cbn [structFields]. rewrite Hsf, Hpk. cbn [bytes_eqb negb]. rewrite Hcur.
    destruct (Hd (S fuel) (entriesBody es ++ tail) off1 Hle) as [off2 ->].
    unfold storeAll. cbn [fold_left]. apply IH; try assumption.
    rewrite Forall_forall in HF' |- *. intros e' Hin.
    destruct (HF' _ Hin) as (Hk' & Hsf' & Hpk' & Hcur' & Hd').
    repeat split; try assumption.
    rewrite nth_error_setNth_other; [exact Hcur'|].
    intros E. apply Hni. apply in_map_iff. exists e'. auto.
Qed.

Lemma entriesBody_length (es : list fieldEntry) :
  (List.length es <= List.length (entriesBody es))%nat.
Proof.
  induction es as [|e es IH]; [cbn; lia|].
  rewrite entriesBody_cons. unfold bencString. rewrite !length_app. cbn [List.length]. lia.
Qed.

Lemma entriesBody_enc (es : list fieldEntry) :
  Forall (fun e => (List.length (fe_enc e) <= List.length (entriesBody es))%nat) es.
Proof.
  induction es as [|e es IH]; constructor.
  - rewrite entriesBody_cons, !length_app. lia.
  - eapply Forall_impl; [|exact IH]. intros e' H. cbn beta in *.
    rewrite entriesBody_cons, !length_app. lia.
Qed.

(** X29: a key that no field is filed under, or that is filed under an
    unexported field, fails the decoding of a dict into a struct with the
    empty-message error wherever the loop of [parseDict] reads it: at the
    start of the dict and after any entries for distinct exported fields whose
    values decode from exactly their own bytes.  These fields keep what was
    stored in them. *)
Theorem Unmarshal_unknown_key (h : Hooks) (fs : list StructField) (cur : list data)
    (es : list fieldEntry) (key rest : bytes) :
  Forall (storable h fs cur) es ->
  NoDup (map (fun e => sf_index (fe_field e)) es) ->
  len key < 2 ^ 63 ->
  (forall sf, getStructFieldForKey fs key = Some sf -> PkgPath (sf_r sf) <> []) ->
  Unmarshal h (B "d" ++ entriesBody es ++ bencString key ++ rest)
    (target (Struct fs) (DStruct cur)) =
    (Ret (Some ErrEmptyMessage), target (Struct fs) (DStruct (storeAll es cur))).
Proof.
  intros HF Hnd Hk Hunk.
  unfold Unmarshal, unmarshal, target. cbn [Scanner].
  change (B "d" ++ entriesBody es ++ bencString key ++ rest)
    with ("d"%char :: entriesBody es ++ bencString key ++ rest).
  cbn [List.length parseValue parseValueBody]. unfold parseValueElem at 1.
  cbn [hasHook]. unfold readByte. cbn [Scanner Buffer Offset Ascii.eqb Bool.eqb andb].
  unfold parseDict.
  set (F := List.length (entriesBody es ++ bencString key ++ rest)).
  assert (HbK : (1 <= List.length (bencString key))%nat).
  { unfold bencString. rewrite length_app. cbn [List.length]. lia. }
  assert (HF1 : (List.length (entriesBody es) < F)%nat).
  { unfold F. rewrite !length_app. lia. }
  pose proof (entriesBody_length es) as Hes.
  assert (Hl : Forall (fun e => (List.length (fe_enc e) < F)%nat) es).
  { eapply Forall_impl; [|apply entriesBody_enc]. intros e He. cbn beta in *. lia. }
  change (fun (d : decodeState) (t : rtype) (v : data) =>
            parseValueBody h (parseValue h F) F d t v) with (parseValue h (S F)).
  assert (Hl' : Forall (fun e => (List.length (fe_enc e) < S F)%nat) es).
  { eapply Forall_impl; [|exact Hl]. intros e He. cbn beta in *. lia. }
  replace (S F) with (List.length es + S (F - List.length es))%nat at 2 by lia.
  destruct (parseDictLoop_entries h (S F) fs es (S (F - List.length es)) cur
              (bencString key ++ rest) (0 + 1) HF Hl' Hnd ltac:(lia)) as [off1 ->].
  destruct (parseValue_key h F key rest off1 Hk) as [off2 Ek].
  now rewrite (parseDictLoop_unknown_key h _ _ true _ _ fs _ key Ek Hunk).
Qed.

Lemma Unmarshal_unknown_key_witness :
  Unmarshal noHooks (B "d3:fooi1e3:bari2ee") (target (Struct fooFields) (DStruct [DInt 0])) =
    (Ret (Some ErrEmptyMessage), target (Struct fooFields) (DStruct [DInt 1])).
Proof.
  assert (HF : Forall (storable noHooks fooFields [DInt 0]) [fooEntry]).
  { constructor; [|constructor]. repeat split; try reflexivity.
    exact (decodesTo_int noHooks 64 1 ltac:(lia) eq_refl). }
  assert (Hnd : NoDup (map (fun e => sf_index (fe_field e)) [fooEntry])).
  { repeat constructor. intros []. }
  assert (Hk : len (B "bar") < 2 ^ 63) by (vm_compute; reflexivity).
  assert (Hunk : forall sf, getStructFieldForKey fooFields (B "bar") = Some sf ->
                            PkgPath (sf_r sf) <> []).
  { intros sf E. vm_compute in E. discriminate E. }
  exact (Unmarshal_unknown_key noHooks fooFields [DInt 0] [fooEntry] (B "bar") (B "i2ee")
           HF Hnd Hk Hunk).
Defined.

(** ** Bytes that follow the input *)

(** X30: bytes that follow the input of a successful [Unmarshal] change
    nothing: if [Unmarshal] returns a nil error on [data], it returns a nil
    error and leaves the same target on [data ++ extra], whatever [extra] is. *)
Theorem Unmarshal_ignores_trailing_bytes (h : Hooks) (data extra : bytes) (v v' : Value) :
  Unmarshal h data v = (Ret None, v') ->
  Unmarshal h (data ++ extra) v = (Ret None, v').
Proof.
  unfold Unmarshal, unmarshal. cbn [Scanner].
  destruct v as [[t x]|]; [|discriminate].
  destruct t; try discriminate. destruct x as [| | | | | | | | |[x|]| | |]; try discriminate.
  destruct (parseValue h (S (List.length data)) _ t x) as [[o x1] d1] eqn:E.
  intros H.
  assert (Hs : stable o).
  { destruct o as [[b [err|]]| | |]; cbn; auto; discriminate. }
  assert (Hf : (S (List.length data) <= S (List.length (data ++ extra)))%nat)
    by (rewrite length_app; lia).
  pose proof (parseValue_ext extra h _ _ _ _ _ Hf _ _ _ E Hs) as E'.
  unfold extend at 1 in E'. cbn [Buffer Scanner Offset] in E'. rewrite E'.
  exact H.
Qed.

Lemma Unmarshal_ignores_trailing_bytes_witness :
  Unmarshal noHooks (B "d1:ai1e1:bi2ee" ++ B "garbage")
    (target (Map String_ (Int 64)) (DMap None)) =
    (Ret None, target (Map String_ (Int 64)) (DMap (Some [(B "a", DInt 1); (B "b", DInt 2)]))).
Proof.
  exact (Unmarshal_ignores_trailing_bytes noHooks (B "d1:ai1e1:bi2ee") (B "garbage")
           (target (Map String_ (Int 64)) (DMap None))
           (target (Map String_ (Int 64)) (DMap (Some [(B "a", DInt 1); (B "b", DInt 2)])))
           eq_refl).
Defined.
